(** * File-Organizer: a shallow embedding of [main.go] and of the legacy
    single-file version, with the properties of its specification.

    The program walks configured source directories, moves every file of
    at least a minimum size into the paired target directory (copy, then
    delete), writes a dated log and prunes old log files.

    Modelling decisions, all visible in the definitions below:
    - a path is the list of its components after cleaning, so
      [filepath.Join dir name] is [dir ++ [name]] and [info.Name()] is the
      last component; the root directory is the empty list;
    - the file system is a finite map from paths to nodes, threaded through
      every operation together with an oracle of injected I/O faults, the
      clock, the history of system calls and the lines written to the
      logger;
    - a Go [error] is a value of [Error]; [fmt.Errorf("<text>: %v", err)] is
      [EWrap <context> err], one context per message text of the source;
    - a log line is the timestamp and the arguments of the formatted
      message, one constructor of [Msg] per format string of the source. *)

From stdpp Require Import gmap strings list fin_maps sorting.
From Stdlib Require Import ZArith String Ascii DecimalString.

Local Open Scope string_scope.
Local Open Scope list_scope.

(** ** Paths and nodes *)

Abbreviation Path := (list string).

(** [filepath.Base] / [FileInfo.Name]: the last component. *)
Definition base (p : Path) : string := default "/" (last p).

(** [filepath.Dir]: all components but the last. *)
Definition parent (p : Path) : Path := removelast p.

(** A regular file carries its bytes and its modification time (seconds
    on a UTC clock); directories carry nothing the program reads. *)
Inductive Node :=
| File (data : string) (mtime : Z)
| Dir.

(** ** Errors *)

Inductive Errno := ENOENT | EACCES | EIO | EISDIR | ENOTDIR | ENOTEMPTY | ENOSPC.

(** Faults that the environment may inject into a system call.  None of
    them is [ENOENT]: the oracle cannot make an existing file look absent. *)
Inductive Fault := FAccess | FIO | FNoSpace.

Definition errno_of_fault (f : Fault) : Errno :=
  match f with FAccess => EACCES | FIO => EIO | FNoSpace => ENOSPC end.

Inductive Op :=
| OpOpen | OpStat | OpLstat | OpCreate | OpRead | OpWrite
| OpRemove | OpReadDir | OpMkdir | OpOpenFile.

(** Errors of [encoding/json]'s decoder. *)
Inductive JsonError :=
| JEOF                                  (* io.EOF: no value in the input *)
| JSyntax                               (* *json.SyntaxError / unexpected EOF *)
| JType (field : string).               (* *json.UnmarshalTypeError *)

(** The message prefixes of the [fmt.Errorf] calls of the two sources. *)
Inductive Ctx :=
| CtxOpenSource      (* "не удалось открыть исходный файл" *)
| CtxCheckTarget     (* "ошибка при проверке целевого файла" *)
| CtxCreateTarget    (* "не удалось создать целевой файл" *)
| CtxCopy            (* "ошибка при копировании содержимого" *)
| CtxRemoveSource    (* "не удалось удалить исходный файл после копирования" *)
| CtxRemoveSourceOld (* legacy: "не удалось удалить исходный файл" *)
| CtxCreateConfig    (* "не удалось создать файл конфигурации" *)
| CtxWriteConfig     (* "не удалось записать настройки" *)
| CtxOpenConfig      (* "ошибка при открытии файла конфигурации" *)
| CtxReadConfig      (* "ошибка при чтении файла конфигурации" *)
| CtxMkLogDir.       (* "не удалось создать директорию для логов" *)

Inductive Error :=
| EOs (op : Op) (p : Path) (e : Errno)   (* *fs.PathError *)
| EJson (e : JsonError)
| EWrap (c : Ctx) (inner : Error)
| ETargetExists (p : Path).              (* "целевой файл уже существует: %s" *)

(** [os.IsNotExist]. *)
Definition IsNotExist (e : Error) : bool :=
  match e with EOs _ _ ENOENT => true | _ => false end.

Inductive result (A : Type) :=
| Ok (a : A)
| Err (e : Error).
Arguments Ok {A} a.
Arguments Err {A} e.

(** ** Observable history *)

(** One entry per system call, with whether it succeeded. *)
Inductive Event :=
| Sys (op : Op) (p : Path) (ok : bool)
| SysCopy (dst src : Path) (ok : bool)     (* io.Copy(dst, src) *)
| SysClose (p : Path).

(** The format strings passed to [log]. *)
Inductive Msg :=
| MStarted                                  (* "[INFO] Программа запущена" *)
| MFinished                                 (* "[INFO] Программа завершена" *)
| MProcessing (dir : string)                (* "Обработка исходной папки: %s" *)
| MDirError (dir : string) (e : Error)      (* "[ERROR] Ошибка при обработке папки %s: %v" *)
| MMoveError (src dst : Path) (e : Error)   (* "[ERROR] Ошибка при перемещении файла %s в %s: %v" *)
| MMoved (src dst : Path)                   (* "Файл %s перемещен в %s" *)
| MReadLogDirError (e : Error)              (* "[ERROR] Не удалось прочитать директорию логов: %v" *)
| MStatLogError (name : string) (e : Error) (* "[ERROR] Не удалось получить информацию о файле %s: %v" *)
| MRemoveLogError (name : string) (e : Error) (* "[ERROR] Не удалось удалить старый лог-файл %s: %v" *)
| MRemovedLog (name : string).              (* "Удален старый лог-файл: %s" *)

(** A line of the logger: "DD-MM-YYYY HH:MM:SS: <message>". *)
Record Line := { stamp : Z; text : Msg }.

(** The two [fmt.Printf] calls of [main], which bypass the logger. *)
Inductive Printed :=
| PConfigError (e : Error)    (* "Ошибка при загрузке конфигурации: %v" *)
| PLogFileError (e : Error).  (* "Ошибка при создании лог-файла: %v" *)

(** ** The world *)

(** [trace], [out] and [printed] are histories, newest entry first.  [out]
    is the stream of the logger's lines; the bytes that the logger of [main]
    also appends to the day's log file are written into [fs] by the logger
    with a file behind it, [Logged.log] below. *)
Record World := {
  fs : gmap Path Node;
  fault : Op → Path → option Fault;   (* injected failures *)
  partial : Path → nat;               (* bytes copied before a failing io.Copy *)
  now : Z;                            (* time.Now(), seconds *)
  trace : list Event;
  out : list Line;
  printed : list Printed
}.

Definition set_fs (m : gmap Path Node) (w : World) : World :=
  {| fs := m; fault := fault w; partial := partial w; now := now w;
     trace := trace w; out := out w; printed := printed w |}.

Definition emit (e : Event) (w : World) : World :=
  {| fs := fs w; fault := fault w; partial := partial w; now := now w;
     trace := e :: trace w; out := out w; printed := printed w |}.

Definition Printf (m : Printed) (w : World) : World :=
  {| fs := fs w; fault := fault w; partial := partial w; now := now w;
     trace := trace w; out := out w; printed := m :: printed w |}.

(** [log]: a timestamped line on the logger's stream.  This is [log] for a
    logger with no file behind it; [Logged.log] takes the writer of the
    log file as well. *)
Definition log (m : Msg) (w : World) : World :=
  {| fs := fs w; fault := fault w; partial := partial w; now := now w;
     trace := trace w; out := {| stamp := now w; text := m |} :: out w;
     printed := printed w |}.

(** The node at a path; the root always is a directory. *)
Definition lookup_node (w : World) (p : Path) : option Node :=
  match p with [] => Some Dir | _ => fs w !! p end.

(** ** Directory listings *)

Fixpoint strip (p k : Path) : option Path :=
  match p, k with
  | [], _ => Some k
  | a :: p', b :: k' => if decide (a = b) then strip p' k' else None
  | _ :: _, [] => None
  end.

Definition child_of (p : Path) (kv : Path * Node) : option (string * Node) :=
  match strip p kv.1 with
  | Some [n] => Some (n, kv.2)
  | _ => None
  end.

Definition name_le (a b : string * Node) : Prop := String.leb a.1 b.1 = true.

#[global] Instance name_le_dec a b : Decision (name_le a b).
Proof. unfold name_le. apply _. Defined.

(** The entries of directory [p], sorted by file name as [os.ReadDir] and
    [filepath.Walk] deliver them. *)
Definition entries (m : gmap Path Node) (p : Path) : list (string * Node) :=
  merge_sort name_le (omap (child_of p) (map_to_list m)).

(** ** System calls *)

Record Handle := { h_path : Path }.

Record FileInfo := {
  fi_name : string;
  fi_size : Z;
  fi_isdir : bool;
  fi_mtime : Z
}.

(** [Size] and [ModTime] of a directory are never read by the program. *)
Definition info_of (p : Path) (n : Node) : FileInfo :=
  match n with
  | File d t => {| fi_name := base p; fi_size := Z.of_nat (String.length d);
                   fi_isdir := false; fi_mtime := t |}
  | Dir => {| fi_name := base p; fi_size := 0; fi_isdir := true; fi_mtime := 0 |}
  end.

Record DirEntry := { de_name : string; de_isdir : bool }.

Definition entry_of (e : string * Node) : DirEntry :=
  {| de_name := e.1; de_isdir := match e.2 with Dir => true | File _ _ => false end |}.

(** A system call [op] on [p]: an injected fault or an error of the call
    itself leaves the file system as it was; every attempt is recorded. *)
Definition sys {A} (op : Op) (p : Path)
    (act : World → Errno + (A * World)) (w : World) : result A * World :=
  match fault w op p with
  | Some f => (Err (EOs op p (errno_of_fault f)), emit (Sys op p false) w)
  | None =>
      match act w with
      | inl e => (Err (EOs op p e), emit (Sys op p false) w)
      | inr (a, w') => (Ok a, emit (Sys op p true) w')
      end
  end.

Definition os_Open (p : Path) : World → result Handle * World :=
  sys OpOpen p (λ w,
    match lookup_node w p with
    | None => inl ENOENT
    | Some _ => inr ({| h_path := p |}, w)
    end).

Definition stat_act (p : Path) (w : World) : Errno + (FileInfo * World) :=
  match lookup_node w p with
  | None => inl ENOENT
  | Some n => inr (info_of p n, w)
  end.

(** A missing node is reported as [ENOENT], whatever its ancestors are. *)
Definition os_Stat (p : Path) : World → result FileInfo * World :=
  sys OpStat p (stat_act p).

(** There are no symbolic links in the model: [Lstat] reads the node. *)
Definition os_Lstat (p : Path) : World → result FileInfo * World :=
  sys OpLstat p (stat_act p).

(** [os.Create]: create or truncate. *)
Definition os_Create (p : Path) : World → result Handle * World :=
  sys OpCreate p (λ w,
    match lookup_node w p with
    | Some Dir => inl EISDIR
    | Some (File _ _) => inr ({| h_path := p |}, set_fs (<[p := File "" (now w)]> (fs w)) w)
    | None =>
        match lookup_node w (parent p) with
        | Some Dir => inr ({| h_path := p |}, set_fs (<[p := File "" (now w)]> (fs w)) w)
        | Some (File _ _) => inl ENOTDIR
        | None => inl ENOENT
        end
    end).

Definition os_Remove (p : Path) : World → result unit * World :=
  sys OpRemove p (λ w,
    match p, lookup_node w p with
    | _, None => inl ENOENT
    | _, Some (File _ _) => inr (tt, set_fs (delete p (fs w)) w)
    | [], Some Dir => inl EACCES
    | _, Some Dir =>
        match entries (fs w) p with
        | [] => inr (tt, set_fs (delete p (fs w)) w)
        | _ :: _ => inl ENOTEMPTY
        end
    end).

Definition os_ReadDir (p : Path) : World → result (list DirEntry) * World :=
  sys OpReadDir p (λ w,
    match lookup_node w p with
    | None => inl ENOENT
    | Some (File _ _) => inl ENOTDIR
    | Some Dir => inr (entry_of <$> entries (fs w) p, w)
    end).

Definition f_Close (h : Handle) (w : World) : World := emit (SysClose (h_path h)) w.

(** Bytes appended through an open handle. *)
Definition append_at (p : Path) (chunk : string) (w : World) : World :=
  match fs w !! p with
  | Some (File d _) => set_fs (<[p := File (d +:+ chunk) (now w)]> (fs w)) w
  | _ => w
  end.

(** [io.Copy(dst, src)]: on a fault only the first [partial] bytes arrive. *)
Definition io_Copy (dst src : Handle) (w : World) : result Z * World :=
  let s := h_path src in
  let d := h_path dst in
  match lookup_node w s with
  | None => (Err (EOs OpRead s ENOENT), emit (SysCopy d s false) w)
  | Some Dir => (Err (EOs OpRead s EISDIR), emit (SysCopy d s false) w)
  | Some (File data _) =>
      match fault w OpRead s, fault w OpWrite d with
      | Some f, _ =>
          (Err (EOs OpRead s (errno_of_fault f)),
           emit (SysCopy d s false) (append_at d (substring 0 (partial w s) data) w))
      | None, Some f =>
          (Err (EOs OpWrite d (errno_of_fault f)),
           emit (SysCopy d s false) (append_at d (substring 0 (partial w s) data) w))
      | None, None =>
          (Ok (Z.of_nat (String.length data)), emit (SysCopy d s true) (append_at d data w))
      end
  end.

(** ** [moveFile] (main.go)

    The deferred [Close] calls run when the function returns; on the
    success path both handles were closed explicitly before, so the
    deferred calls find them closed and make no system call. *)
Definition moveFile (sourcePath targetPath : Path) (w : World) : option Error * World :=
  match os_Open sourcePath w with
  | (Err e, w1) => (Some (EWrap CtxOpenSource e), w1)
  | (Ok sourceFile, w1) =>
      match os_Stat targetPath w1 with
      | (Ok _, w2) => (Some (ETargetExists targetPath), f_Close sourceFile w2)
      | (Err e, w2) =>
          if negb (IsNotExist e)
          then (Some (EWrap CtxCheckTarget e), f_Close sourceFile w2)
          else
            match os_Create targetPath w2 with
            | (Err e, w3) => (Some (EWrap CtxCreateTarget e), f_Close sourceFile w3)
            | (Ok targetFile, w3) =>
                match io_Copy targetFile sourceFile w3 with
                | (Err e, w4) =>
                    (Some (EWrap CtxCopy e), f_Close sourceFile (f_Close targetFile w4))
                | (Ok _, w4) =>
                    let w5 := f_Close targetFile (f_Close sourceFile w4) in
                    match os_Remove sourcePath w5 with
                    | (Err e, w6) => (Some (EWrap CtxRemoveSource e), w6)
                    | (Ok _, w6) => (None, w6)
                    end
                end
            end
      end
  end.

(** ** [moveFile] of the legacy version (no existence check) *)
Module Legacy.

Definition moveFile (sourcePath targetPath : Path) (w : World) : option Error * World :=
  match os_Open sourcePath w with
  | (Err e, w1) => (Some (EWrap CtxOpenSource e), w1)
  | (Ok sourceFile, w1) =>
      match os_Create targetPath w1 with
      | (Err e, w2) => (Some (EWrap CtxCreateTarget e), f_Close sourceFile w2)
      | (Ok targetFile, w2) =>
          match io_Copy targetFile sourceFile w2 with
          | (Err e, w3) =>
              (Some (EWrap CtxCopy e), f_Close sourceFile (f_Close targetFile w3))
          | (Ok _, w3) =>
              let w4 := f_Close targetFile (f_Close sourceFile w3) in
              match os_Remove sourcePath w4 with
              | (Err e, w5) => (Some (EWrap CtxRemoveSourceOld e), w5)
              | (Ok _, w5) => (None, w5)
              end
          end
      end
  end.

End Legacy.

(** ** [filepath.Walk]

    The callback receives either the entry's [FileInfo] or the error that
    kept the walk from reading the entry.  The sentinel errors [SkipDir]
    and [SkipAll] are never produced by the callbacks of this program, so
    [Error] has no such values. *)
Inductive Visit :=
| Entry (info : FileInfo)
| Failure (e : Error).

Definition WalkFunc := Path → Visit → World → option Error * World.

Definition readDirNames (p : Path) (w : World) : result (list string) * World :=
  match os_ReadDir p w with
  | (Ok es, w1) => (Ok (de_name <$> es), w1)
  | (Err e, w1) => (Err e, w1)
  end.

(** The loop over the names of one directory; [rec] is the recursive call
    of [walk].  [None] means the recursion depth ran out. *)
Fixpoint walk_names (rec : Path → FileInfo → World → option (option Error * World))
    (walkFn : WalkFunc) (path : Path) (names : list string) (w : World)
    : option (option Error * World) :=
  match names with
  | [] => Some (None, w)
  | name :: rest =>
      let filename := path ++ [name] in
      match os_Lstat filename w with
      | (Err e, w1) =>
          match walkFn filename (Failure e) w1 with
          | (Some e', w2) => Some (Some e', w2)
          | (None, w2) => walk_names rec walkFn path rest w2
          end
      | (Ok fileInfo, w1) =>
          match rec filename fileInfo w1 with
          | None => None
          | Some (Some e', w2) => Some (Some e', w2)
          | Some (None, w2) => walk_names rec walkFn path rest w2
          end
      end
  end.

Fixpoint walk (fuel : nat) (walkFn : WalkFunc) (path : Path) (info : FileInfo) (w : World)
    : option (option Error * World) :=
  match fuel with
  | 0 => None
  | S k =>
      if negb (fi_isdir info) then Some (walkFn path (Entry info) w)
      else
        match readDirNames path w with
        | (Err e, w1) => Some (walkFn path (Failure e) w1)
        | (Ok names, w1) =>
            match walkFn path (Entry info) w1 with
            | (Some e1, w2) => Some (Some e1, w2)
            | (None, w2) => walk_names (walk k walkFn) walkFn path names w2
            end
        end
  end.

Definition Walk (fuel : nat) (root : Path) (walkFn : WalkFunc) (w : World)
    : option (option Error * World) :=
  match os_Lstat root w with
  | (Err e, w1) => Some (walkFn root (Failure e) w1)
  | (Ok info, w1) => walk fuel walkFn root info w1
  end.

(** ** [processDirectory] *)

(** The closure passed to [filepath.Walk]. *)
Definition visit (targetDir : Path) (minFileSize : Z) : WalkFunc :=
  λ path v w,
    match v with
    | Failure err => (Some err, w)
    | Entry info =>
        if negb (fi_isdir info) && (minFileSize <=? fi_size info)%Z then
          let targetPath := targetDir ++ [fi_name info] in
          match moveFile path targetPath w with
          | (Some err, w1) => (Some err, log (MMoveError path targetPath err) w1)
          | (None, w1) => (None, log (MMoved path targetPath) w1)
          end
        else (None, w)
    end.

Definition processDirectory (fuel : nat) (sourceDir targetDir : Path) (minFileSize : Z)
    (w : World) : option (option Error * World) :=
  Walk fuel sourceDir (visit targetDir minFileSize) w.

(** ** Log retention *)

Definition logDir : Path := ["logs"].
Definition logRetentionDays : Z := 5.

(** [t.AddDate(0, 0, days)] on the UTC clock. *)
Definition AddDate_days (t days : Z) : Z := (t + days * 86400)%Z.

(** The loop of [cleanOldLogs] over the directory entries. *)
Fixpoint sweep (cutoff : Z) (files : list DirEntry) (w : World) : World :=
  match files with
  | [] => w
  | file :: rest =>
      if de_isdir file then sweep cutoff rest w
      else
        let filePath := logDir ++ [de_name file] in
        match os_Stat filePath w with
        | (Err e, w1) => sweep cutoff rest (log (MStatLogError (de_name file) e) w1)
        | (Ok info, w1) =>
            if (fi_mtime info <? cutoff)%Z then
              match os_Remove filePath w1 with
              | (Err e, w2) => sweep cutoff rest (log (MRemoveLogError (de_name file) e) w2)
              | (Ok _, w2) => sweep cutoff rest (log (MRemovedLog (de_name file)) w2)
              end
            else sweep cutoff rest w1
        end
  end.

Definition cleanOldLogs (w : World) : World :=
  match os_ReadDir logDir w with
  | (Err e, w1) => log (MReadLogDirError e) w1
  | (Ok files, w1) => sweep (AddDate_days (now w1) (- logRetentionDays)) files w1
  end.

(** ** Configuration *)

Record Config := {
  SourceDirs : list string;    (* json:"source_dirs" *)
  TargetDirs : list string;    (* json:"target_dirs" *)
  MinFileSize : Z              (* json:"min_file_size" *)
}.

(** ** [encoding/json], as far as [Config] uses it

    [Decode] reads the first JSON value of the input, as [json.Decoder]
    does, and stores it into a zero [Config]; [MarshalIndent] prints a
    [Config] with the two-space indentation of the source. *)
Module Json.

#[local] Unset Elimination Schemes.
Inductive Value :=
| Null
| Bool (b : bool)
| Number (lit : string)
| Str (s : string)
| Array (l : list Value)
| Object (l : list (string * Value)).
#[local] Set Elimination Schemes.

Definition code (c : ascii) : N := N_of_ascii c.
Definition chr (n : N) : ascii := ascii_of_N n.
Definition str1 (n : N) : string := String (chr n) EmptyString.

Definition between (lo hi : N) (c : ascii) : bool :=
  ((lo <=? code c) && (code c <=? hi))%N.

Definition is_space (c : ascii) : bool :=
  let n := code c in ((n =? 32) || (n =? 9) || (n =? 10) || (n =? 13))%N.

Definition is_digit (c : ascii) : bool := between 48 57 c.

Definition is_hex (c : ascii) : bool :=
  is_digit c || between 97 102 c || between 65 70 c.

Definition hex_val (c : ascii) : N :=
  if is_digit c then (code c - 48)%N
  else if between 97 102 c then (code c - 87)%N
  else (code c - 55)%N.

Fixpoint skip_ws (s : string) : string :=
  match s with
  | String c r => if is_space c then skip_ws r else s
  | EmptyString => s
  end.

(** *** Scanner: string literals, numbers, keywords *)

(** The characters allowed after a backslash, other than [u]. *)
Definition is_simple_escape (c : ascii) : bool :=
  let n := code c in
  ((n =? 34) || (n =? 92) || (n =? 47) || (n =? 98) || (n =? 102)
   || (n =? 110) || (n =? 114) || (n =? 116))%N.

(** After the opening quote: the still escaped body of the literal and the
    input after the closing quote. *)
Fixpoint lex_string (s : string) : option (string * string) :=
  match s with
  | EmptyString => None
  | String c r =>
      if (code c =? 34)%N then Some (EmptyString, r)
      else if (code c <? 32)%N then None
      else if (code c =? 92)%N then
        match r with
        | EmptyString => None
        | String e r1 =>
            if (code e =? 117)%N then
              match r1 with
              | String h1 (String h2 (String h3 (String h4 r2))) =>
                  if is_hex h1 && is_hex h2 && is_hex h3 && is_hex h4 then
                    match lex_string r2 with
                    | Some (b, rest) =>
                        Some (String c (String e (String h1 (String h2
                                (String h3 (String h4 b))))), rest)
                    | None => None
                    end
                  else None
              | _ => None
              end
            else if is_simple_escape e then
              match lex_string r1 with
              | Some (b, rest) => Some (String c (String e b), rest)
              | None => None
              end
            else None
        end
      else
        match lex_string r with
        | Some (b, rest) => Some (String c b, rest)
        | None => None
        end
  end.

Fixpoint span_digits (s : string) : string * string :=
  match s with
  | String c r =>
      if is_digit c then let '(d, rest) := span_digits r in (String c d, rest)
      else (EmptyString, s)
  | EmptyString => (EmptyString, s)
  end.

(** At least one digit. *)
Definition lex_digits1 (s : string) : option (string * string) :=
  match span_digits s with
  | (EmptyString, _) => None
  | (d, rest) => Some (d, rest)
  end.

(** The integer part: [0] alone or a digit [1]..[9] followed by digits. *)
Definition lex_int (s : string) : option (string * string) :=
  match s with
  | String c r =>
      if (code c =? 48)%N then Some (String c EmptyString, r)
      else if is_digit c then let '(d, rest) := span_digits r in Some (String c d, rest)
      else None
  | EmptyString => None
  end.

Definition lex_frac (s : string) : option (string * string) :=
  match s with
  | String c r =>
      if (code c =? 46)%N then
        match lex_digits1 r with
        | Some (d, rest) => Some (String c d, rest)
        | None => None
        end
      else Some (EmptyString, s)
  | EmptyString => Some (EmptyString, s)
  end.

Definition lex_exp (s : string) : option (string * string) :=
  match s with
  | String c r =>
      if ((code c =? 101) || (code c =? 69))%N then
        match r with
        | String sg r1 =>
            if ((code sg =? 43) || (code sg =? 45))%N then
              match lex_digits1 r1 with
              | Some (d, rest) => Some (String c (String sg d), rest)
              | None => None
              end
            else
              match lex_digits1 r with
              | Some (d, rest) => Some (String c d, rest)
              | None => None
              end
        | EmptyString => None
        end
      else Some (EmptyString, s)
  | EmptyString => Some (EmptyString, s)
  end.

Definition lex_unsigned (s : string) : option (string * string) :=
  match lex_int s with
  | None => None
  | Some (i, r1) =>
      match lex_frac r1 with
      | None => None
      | Some (f, r2) =>
          match lex_exp r2 with
          | None => None
          | Some (e, r3) => Some (i +:+ f +:+ e, r3)
          end
      end
  end.

Definition lex_number (s : string) : option (string * string) :=
  match s with
  | String c r =>
      if (code c =? 45)%N then
        match lex_unsigned r with
        | Some (l, rest) => Some (String c l, rest)
        | None => None
        end
      else lex_unsigned s
  | EmptyString => None
  end.

(** [eat kw s]: the input after the keyword [kw]. *)
Fixpoint eat (kw s : string) : option string :=
  match kw, s with
  | EmptyString, _ => Some s
  | String a kw', String b s' => if Ascii.eqb a b then eat kw' s' else None
  | String _ _, EmptyString => None
  end.

(** *** Unquoting ([unquoteBytes]) *)

(** [utf8.EncodeRune]. *)
Definition encode_rune (r : N) : string :=
  (if r <? 0x80 then str1 r
   else if r <? 0x800 then
     str1 (N.lor 0xC0 (N.shiftr r 6)) +:+ str1 (N.lor 0x80 (N.land r 0x3F))
   else if ((0xD800 <=? r) && (r <? 0xE000)) || (0x10FFFF <? r) then
     str1 0xEF +:+ str1 0xBF +:+ str1 0xBD
   else if r <? 0x10000 then
     str1 (N.lor 0xE0 (N.shiftr r 12))
     +:+ str1 (N.lor 0x80 (N.land (N.shiftr r 6) 0x3F))
     +:+ str1 (N.lor 0x80 (N.land r 0x3F))
   else
     str1 (N.lor 0xF0 (N.shiftr r 18))
     +:+ str1 (N.lor 0x80 (N.land (N.shiftr r 12) 0x3F))
     +:+ str1 (N.lor 0x80 (N.land (N.shiftr r 6) 0x3F))
     +:+ str1 (N.lor 0x80 (N.land r 0x3F)))%N.

Definition replacement : string := encode_rune 0xFFFD.

(** The length of the well-formed UTF-8 sequence at the head of [s], or
    [0] when [utf8.DecodeRune] reports [RuneError] with width 1. *)
Definition utf8_len (s : string) : nat :=
  match s with
  | EmptyString => 0
  | String b0 r =>
      let n0 := code b0 in
      (if n0 <? 0x80 then 1%nat
       else if (0xC2 <=? n0) && (n0 <=? 0xDF) then
         match r with
         | String b1 _ => if between 0x80 0xBF b1 then 2%nat else 0%nat
         | _ => 0%nat
         end
       else if (0xE0 <=? n0) && (n0 <=? 0xEF) then
         match r with
         | String b1 (String b2 _) =>
             let lo := if n0 =? 0xE0 then 0xA0 else 0x80 in
             let hi := if n0 =? 0xED then 0x9F else 0xBF in
             if between lo hi b1 && between 0x80 0xBF b2 then 3%nat else 0%nat
         | _ => 0%nat
         end
       else if (0xF0 <=? n0) && (n0 <=? 0xF4) then
         match r with
         | String b1 (String b2 (String b3 _)) =>
             let lo := if n0 =? 0xF0 then 0x90 else 0x80 in
             let hi := if n0 =? 0xF4 then 0x8F else 0xBF in
             if between lo hi b1 && between 0x80 0xBF b2 && between 0x80 0xBF b3
             then 4%nat else 0%nat
         | _ => 0%nat
         end
       else 0%nat)%N
  end.

(** [getu4]: the code unit of a leading [\uXXXX]. *)
Definition getu4 (s : string) : option (N * string) :=
  match s with
  | String b (String u (String h1 (String h2 (String h3 (String h4 r))))) =>
      if (code b =? 92)%N && (code u =? 117)%N
         && is_hex h1 && is_hex h2 && is_hex h3 && is_hex h4
      then Some ((((hex_val h1 * 16 + hex_val h2) * 16 + hex_val h3) * 16 + hex_val h4)%N, r)
      else None
  | _ => None
  end.

Definition is_surrogate (r : N) : bool := ((0xD800 <=? r) && (r <? 0xE000))%N.

(** [utf16.DecodeRune]. *)
Definition decode_pair (r1 r2 : N) : option N :=
  (if (0xD800 <=? r1) && (r1 <? 0xDC00) && (0xDC00 <=? r2) && (r2 <? 0xE000)
   then Some (N.lor (N.shiftl (r1 - 0xD800) 10) (r2 - 0xDC00) + 0x10000)
   else None)%N.

Definition unescape (e : ascii) : ascii :=
  let n := code e in
  (if n =? 98 then chr 8
   else if n =? 102 then chr 12
   else if n =? 110 then chr 10
   else if n =? 114 then chr 13
   else if n =? 116 then chr 9
   else e)%N.

Definition drop_str (n : nat) (s : string) : string :=
  substring n (String.length s - n) s.

(** The body of a literal the scanner accepted, decoded: escapes are
    replaced, lone surrogates and ill-formed UTF-8 become U+FFFD.  Every
    step consumes input, so [String.length s] steps are enough. *)
Fixpoint unquote_fuel (fuel : nat) (s : string) : string :=
  match fuel with
  | 0 => EmptyString
  | S f =>
      match s with
      | EmptyString => EmptyString
      | String c r =>
          if (code c =? 92)%N then
            match r with
            | EmptyString => EmptyString
            | String e r1 =>
                if (code e =? 117)%N then
                  match getu4 s with
                  | None => EmptyString
                  | Some (rr, r2) =>
                      if is_surrogate rr then
                        match getu4 r2 with
                        | Some (rr1, r3) =>
                            match decode_pair rr rr1 with
                            | Some dec => encode_rune dec +:+ unquote_fuel f r3
                            | None => replacement +:+ unquote_fuel f r2
                            end
                        | None => replacement +:+ unquote_fuel f r2
                        end
                      else encode_rune rr +:+ unquote_fuel f r2
                  end
                else String (unescape e) (unquote_fuel f r1)
            end
          else if (code c <? 0x80)%N then String c (unquote_fuel f r)
          else
            match utf8_len s with
            | 0 => replacement +:+ unquote_fuel f r
            | S _ as n => substring 0 n s +:+ unquote_fuel f (drop_str n s)
            end
      end
  end.

Definition unquote (s : string) : string := unquote_fuel (String.length s) s.

(** *** Parser

    Every recursive call follows at least one consumed character or is the
    first call for a container, so twice the length of the input bounds the
    depth. *)
Fixpoint parse_value (fuel : nat) (s : string) : option (Value * string) :=
  match fuel with
  | 0 => None
  | S f =>
      match skip_ws s with
      | EmptyString => None
      | String c r =>
          let n := code c in
          if (n =? 123)%N then
            match skip_ws r with
            | String c1 r1 =>
                if (code c1 =? 125)%N then Some (Object [], r1)
                else
                  match parse_members f r with
                  | Some (ms, rest) => Some (Object ms, rest)
                  | None => None
                  end
            | EmptyString => None
            end
          else if (n =? 91)%N then
            match skip_ws r with
            | String c1 r1 =>
                if (code c1 =? 93)%N then Some (Array [], r1)
                else
                  match parse_elements f r with
                  | Some (vs, rest) => Some (Array vs, rest)
                  | None => None
                  end
            | EmptyString => None
            end
          else if (n =? 34)%N then
            match lex_string r with
            | Some (raw, rest) => Some (Str (unquote raw), rest)
            | None => None
            end
          else if (n =? 45)%N || is_digit c then
            match lex_number (String c r) with
            | Some (lit, rest) => Some (Number lit, rest)
            | None => None
            end
          else if (n =? 116)%N then
            match eat "true" (String c r) with
            | Some rest => Some (Bool true, rest)
            | None => None
            end
          else if (n =? 102)%N then
            match eat "false" (String c r) with
            | Some rest => Some (Bool false, rest)
            | None => None
            end
          else if (n =? 110)%N then
            match eat "null" (String c r) with
            | Some rest => Some (Null, rest)
            | None => None
            end
          else None
      end
  end
with parse_elements (fuel : nat) (s : string) : option (list Value * string) :=
  match fuel with
  | 0 => None
  | S f =>
      match parse_value f s with
      | None => None
      | Some (v, r1) =>
          match skip_ws r1 with
          | String c r2 =>
              if (code c =? 44)%N then
                match parse_elements f r2 with
                | Some (vs, rest) => Some (v :: vs, rest)
                | None => None
                end
              else if (code c =? 93)%N then Some ([v], r2)
              else None
          | EmptyString => None
          end
      end
  end
with parse_members (fuel : nat) (s : string) : option (list (string * Value) * string) :=
  match fuel with
  | 0 => None
  | S f =>
      match skip_ws s with
      | String q r =>
          if (code q =? 34)%N then
            match lex_string r with
            | None => None
            | Some (raw, r1) =>
                match skip_ws r1 with
                | String c r2 =>
                    if (code c =? 58)%N then
                      match parse_value f r2 with
                      | None => None
                      | Some (v, r3) =>
                          match skip_ws r3 with
                          | String d r4 =>
                              if (code d =? 44)%N then
                                match parse_members f r4 with
                                | Some (ms, rest) => Some ((unquote raw, v) :: ms, rest)
                                | None => None
                                end
                              else if (code d =? 125)%N then Some ([(unquote raw, v)], r4)
                              else None
                          | EmptyString => None
                          end
                      end
                    else None
                | EmptyString => None
                end
            end
          else None
      | EmptyString => None
      end
  end.

Definition parse (s : string) : option (Value * string) :=
  parse_value (2 * String.length s + 2) s.

(** [json.Valid]: the whole input is one value between white space. *)
Definition Valid (s : string) : bool :=
  match parse s with
  | Some (_, rest) => match skip_ws rest with EmptyString => true | _ => false end
  | None => false
  end.

(** *** Storing a value into a [Config] *)

Inductive Field := FSource | FTarget | FMin.

Definition field_name (f : Field) : string :=
  match f with
  | FSource => "source_dirs"
  | FTarget => "target_dirs"
  | FMin => "min_file_size"
  end.

(** [foldName]: ASCII letters in upper case; of the runes outside ASCII
    only U+017F (long s) and U+212A (Kelvin sign) fold to ASCII letters,
    the others stay outside ASCII and are left as they are. *)
Fixpoint fold_name (s : string) : string :=
  match s with
  | EmptyString => EmptyString
  | String c r =>
      let n := code c in
      if between 97 122 c then String (chr (n - 32)) (fold_name r)
      else if (n =? 0xC5)%N then
        match r with
        | String c1 r1 =>
            if (code c1 =? 0xBF)%N then String (chr 83) (fold_name r1)
            else String c (fold_name r)
        | EmptyString => String c EmptyString
        end
      else if (n =? 0xE2)%N then
        match r with
        | String c1 (String c2 r2) =>
            if (code c1 =? 0x84)%N && (code c2 =? 0xAA)%N
            then String (chr 75) (fold_name r2)
            else String c (fold_name r)
        | _ => String c (fold_name r)
        end
      else String c (fold_name r)
  end.

(** The field a key names: an exact match, else a match up to case. *)
Definition find_field (key : string) : option Field :=
  let exact f := String.eqb key (field_name f) in
  let folded f := String.eqb (fold_name key) (fold_name (field_name f)) in
  if exact FSource then Some FSource
  else if exact FTarget then Some FTarget
  else if exact FMin then Some FMin
  else if folded FSource then Some FSource
  else if folded FTarget then Some FTarget
  else if folded FMin then Some FMin
  else None.

(** The decoder keeps the first type error and goes on. *)
Definition first_error (a b : option JsonError) : option JsonError :=
  match a with Some _ => a | None => b end.

(** An array into a [[]string]: a string is stored, [null] leaves the
    element (the one of the previous slice, else the empty string), any
    other value is a type error. *)
Fixpoint decode_strings (field : string) (old : list string) (l : list Value)
    : list string * option JsonError :=
  match l with
  | [] => ([], None)
  | v :: rest =>
      let cur := hd EmptyString old in
      let '(x, e) :=
        match v with
        | Str x => (x, None)
        | Null => (cur, None)
        | _ => (cur, Some (JType field))
        end in
      let '(xs, es) := decode_strings field (tl old) rest in
      (x :: xs, first_error e es)
  end.

(** [strconv.ParseInt(lit, 10, 64)] on a number literal. *)
Definition parse_int64 (lit : string) : option Z :=
  match NilZero.int_of_string lit with
  | Some i =>
      let z := Z.of_int i in
      if ((- 2 ^ 63 <=? z) && (z <? 2 ^ 63))%Z then Some z else None
  | None => None
  end.

Definition set_field (f : Field) (v : Value) (c : Config) : Config * option JsonError :=
  match f with
  | FSource =>
      match v with
      | Null => ({| SourceDirs := []; TargetDirs := TargetDirs c;
                    MinFileSize := MinFileSize c |}, None)
      | Array l =>
          let '(xs, e) := decode_strings (field_name f) (SourceDirs c) l in
          ({| SourceDirs := xs; TargetDirs := TargetDirs c;
              MinFileSize := MinFileSize c |}, e)
      | _ => (c, Some (JType (field_name f)))
      end
  | FTarget =>
      match v with
      | Null => ({| SourceDirs := SourceDirs c; TargetDirs := [];
                    MinFileSize := MinFileSize c |}, None)
      | Array l =>
          let '(xs, e) := decode_strings (field_name f) (TargetDirs c) l in
          ({| SourceDirs := SourceDirs c; TargetDirs := xs;
              MinFileSize := MinFileSize c |}, e)
      | _ => (c, Some (JType (field_name f)))
      end
  | FMin =>
      match v with
      | Null => (c, None)
      | Number lit =>
          match parse_int64 lit with
          | Some z => ({| SourceDirs := SourceDirs c; TargetDirs := TargetDirs c;
                          MinFileSize := z |}, None)
          | None => (c, Some (JType (field_name f)))
          end
      | _ => (c, Some (JType (field_name f)))
      end
  end.

(** The members of an object, in order; unknown keys are skipped. *)
Fixpoint set_members (ms : list (string * Value)) (c : Config)
    : Config * option JsonError :=
  match ms with
  | [] => (c, None)
  | (key, v) :: rest =>
      match find_field key with
      | None => set_members rest c
      | Some f =>
          let '(c1, e) := set_field f v c in
          let '(c2, es) := set_members rest c1 in
          (c2, first_error e es)
      end
  end.

Definition zero : Config := {| SourceDirs := []; TargetDirs := []; MinFileSize := 0 |}.

Definition unmarshal (v : Value) : Config * option JsonError :=
  match v with
  | Object ms => set_members ms zero
  | Null => (zero, None)
  | _ => (zero, Some (JType EmptyString))
  end.

(** [json.NewDecoder(r).Decode(&config)] on the bytes of the file: what
    follows the first value is not read. *)
Definition Decode (input : string) : result Config :=
  match skip_ws input with
  | EmptyString => Err (EJson JEOF)
  | _ =>
      match parse input with
      | None => Err (EJson JSyntax)
      | Some (v, _) =>
          match unmarshal v with
          | (c, None) => Ok c
          | (_, Some e) => Err (EJson e)
          end
      end
  end.

(** *** Printing *)

Definition dq : string := str1 34.
Definition nl : string := str1 10.

Definition hex_digit (n : N) : ascii :=
  if (n <? 10)%N then chr (48 + n) else chr (87 + n).

(** The escapes of a byte below 0x80 (with [escapeHTML]); bytes from 0x80
    on are copied.  The only value the program prints is the default
    configuration, whose strings are printable ASCII. *)
Definition escape_byte (c : ascii) : string :=
  let n := code c in
  (if (n =? 34) || (n =? 92) then String (chr 92) (String c EmptyString)
   else if n =? 10 then String (chr 92) (str1 110)
   else if n =? 13 then String (chr 92) (str1 114)
   else if n =? 9 then String (chr 92) (str1 116)
   else if (n <? 32) || (n =? 60) || (n =? 62) || (n =? 38) then
     String (chr 92) (String (chr 117) (String (chr 48) (String (chr 48)
       (String (hex_digit (n / 16)) (String (hex_digit (n mod 16)) EmptyString)))))
   else String c EmptyString)%N.

Fixpoint escape (s : string) : string :=
  match s with
  | EmptyString => EmptyString
  | String c r => escape_byte c +:+ escape r
  end.

Definition encode_string (s : string) : string := dq +:+ escape s +:+ dq.

Fixpoint join_lines (sep : string) (l : list string) : string :=
  match l with
  | [] => EmptyString
  | [x] => x
  | x :: rest => x +:+ sep +:+ join_lines sep rest
  end.

(** A [[]string] field at depth one. *)
Definition encode_strings (l : list string) : string :=
  match l with
  | [] => "[]"
  | _ =>
      "[" +:+ nl
      +:+ join_lines ("," +:+ nl) ((λ x, "    " +:+ encode_string x) <$> l)
      +:+ nl +:+ "  ]"
  end.

Definition encode_int (z : Z) : string := NilZero.string_of_int (Z.to_int z).

(** [json.MarshalIndent(c, "", "  ")]. *)
Definition MarshalIndent (c : Config) : string :=
  "{" +:+ nl
  +:+ "  " +:+ encode_string (field_name FSource) +:+ ": " +:+ encode_strings (SourceDirs c)
  +:+ "," +:+ nl
  +:+ "  " +:+ encode_string (field_name FTarget) +:+ ": " +:+ encode_strings (TargetDirs c)
  +:+ "," +:+ nl
  +:+ "  " +:+ encode_string (field_name FMin) +:+ ": " +:+ encode_int (MinFileSize c)
  +:+ nl +:+ "}".

End Json.

Definition defaultConfig : Config :=
  {| SourceDirs := ["e:/FilesNota/572149/1"; "e:/FilesNota/572149/2"];
     TargetDirs := ["//192.168.2.15/5/test/1"; "//192.168.2.15/5/test/2"];
     MinFileSize := 26463150 |}.

(** ** From path strings to paths

    [filepath.Clean] on slash-separated strings: empty and [.] components
    vanish and [..] removes the component before it; the working directory
    is the root. *)
Fixpoint split_slash (cur : string) (s : string) : list string :=
  match s with
  | EmptyString => [cur]
  | String c r =>
      if (Json.code c =? 47)%N then cur :: split_slash EmptyString r
      else split_slash (cur +:+ String c EmptyString) r
  end.

Definition clean_step (acc : Path) (c : string) : Path :=
  if String.eqb c "" || String.eqb c "." then acc
  else if String.eqb c ".." then removelast acc
  else acc ++ [c].

Definition path_of (s : string) : Path :=
  fold_left clean_step (split_slash EmptyString s) [].

(** ** Dates: [time.Format("02-01-2006.log")] on the UTC clock *)

Definition civil_of_days (days : Z) : Z * Z * Z :=
  (let z := days + 719468 in
   let era := z / 146097 in
   let doe := z - era * 146097 in
   let yoe := (doe - doe / 1460 + doe / 36524 - doe / 146096) / 365 in
   let doy := doe - (365 * yoe + yoe / 4 - yoe / 100) in
   let mp := (5 * doy + 2) / 153 in
   let d := doy - (153 * mp + 2) / 5 + 1 in
   let m := if mp <? 10 then mp + 3 else mp - 9 in
   let y := yoe + era * 400 + (if m <=? 2 then 1 else 0) in
   (y, m, d))%Z.

Definition pad (width : nat) (z : Z) : string :=
  let s := Json.encode_int z in
  String.concat "" (replicate (width - String.length s) "0") +:+ s.

Definition logFileName (t : Z) : string :=
  let '(y, m, d) := civil_of_days (t / 86400) in
  pad 2 d +:+ "-" +:+ pad 2 m +:+ "-" +:+ pad 4 y +:+ ".log".

(** ** Files of the program itself *)

Definition defaultConfigFile : Path := ["config.json"].

(** Reading the whole file through an open handle. *)
Definition f_Read (h : Handle) : World → result string * World :=
  sys OpRead (h_path h) (λ w,
    match lookup_node w (h_path h) with
    | Some (File d _) => inr (d, w)
    | Some Dir => inl EISDIR
    | None => inl ENOENT
    end).

Definition f_Write (h : Handle) (data : string) : World → result unit * World :=
  sys OpWrite (h_path h) (λ w,
    match lookup_node w (h_path h) with
    | Some (File _ _) => inr (tt, append_at (h_path h) data w)
    | Some Dir => inl EISDIR
    | None => inl ENOENT
    end).

(** [loadOrCreateConfig].  [json.MarshalIndent] cannot fail on a [Config],
    so that error branch of the source has no counterpart here. *)
Definition loadOrCreateConfig (path : Path) (w : World) : result Config * World :=
  match os_Open path w with
  | (Err err, w1) =>
      if IsNotExist err then
        match os_Create path w1 with
        | (Err err, w2) => (Err (EWrap CtxCreateConfig err), w2)
        | (Ok file, w2) =>
            let prettyJSON := Json.MarshalIndent defaultConfig in
            match f_Write file prettyJSON w2 with
            | (Err err, w3) => (Err (EWrap CtxWriteConfig err), f_Close file w3)
            | (Ok _, w3) => (Ok defaultConfig, f_Close file w3)
            end
        end
      else (Err (EWrap CtxOpenConfig err), w1)
  | (Ok file, w1) =>
      match f_Read file w1 with
      | (Err err, w2) => (Err (EWrap CtxReadConfig err), f_Close file w2)
      | (Ok bytes, w2) =>
          match Json.Decode bytes with
          | Err err => (Err (EWrap CtxReadConfig err), f_Close file w2)
          | Ok config => (Ok config, f_Close file w2)
          end
      end
  end.

(** [os.MkdirAll]: every missing directory on the way is created. *)
Fixpoint mkdir_all (done todo : Path) (m : gmap Path Node) : Errno + gmap Path Node :=
  match todo with
  | [] => inr m
  | c :: rest =>
      let p := done ++ [c] in
      match m !! p with
      | Some Dir => mkdir_all p rest m
      | Some (File _ _) => inl ENOTDIR
      | None => mkdir_all p rest (<[p := Dir]> m)
      end
  end.

Definition os_MkdirAll (p : Path) : World → result unit * World :=
  sys OpMkdir p (λ w,
    match mkdir_all [] p (fs w) with
    | inl e => inl e
    | inr m => inr (tt, set_fs m w)
    end).

(** [os.OpenFile(p, O_APPEND|O_CREATE|O_WRONLY, 0644)]. *)
Definition os_OpenFile (p : Path) : World → result Handle * World :=
  sys OpOpenFile p (λ w,
    match lookup_node w p with
    | Some Dir => inl EISDIR
    | Some (File _ _) => inr ({| h_path := p |}, w)
    | None =>
        match lookup_node w (parent p) with
        | Some Dir => inr ({| h_path := p |}, set_fs (<[p := File "" (now w)]> (fs w)) w)
        | Some (File _ _) => inl ENOTDIR
        | None => inl ENOENT
        end
    end).

Definition setupLogFile (w : World) : result Handle * World :=
  match os_MkdirAll logDir w with
  | (Err err, w1) => (Err (EWrap CtxMkLogDir err), w1)
  | (Ok _, w1) => os_OpenFile (logDir ++ [logFileName (now w1)]) w1
  end.

(** ** [main] *)

(** How [main] ends: it returns, or the run-time panic "index out of range
    [index] with length [len]" unwinds it. *)
Inductive Exit :=
| Returned
| Panicked (index len : nat).

(** The loop [for i, sourceDir := range config.SourceDirs]. *)
Fixpoint pairs (fuel : nat) (config : Config) (i : nat) (sourceDirs : list string)
    (w : World) : option (Exit * World) :=
  match sourceDirs with
  | [] => Some (Returned, w)
  | sourceDir :: rest =>
      match TargetDirs config !! i with
      | None => Some (Panicked i (List.length (TargetDirs config)), w)
      | Some targetDir =>
          let w1 := log (MProcessing sourceDir) w in
          match processDirectory fuel (path_of sourceDir) (path_of targetDir)
                  (MinFileSize config) w1 with
          | None => None
          | Some (None, w2) => pairs fuel config (S i) rest w2
          | Some (Some err, w2) =>
              pairs fuel config (S i) rest (log (MDirError sourceDir err) w2)
          end
      end
  end.

(** The deferred [logFile.Close()] runs on return and while panicking. *)
Definition main (fuel : nat) (w : World) : option (Exit * World) :=
  match loadOrCreateConfig defaultConfigFile w with
  | (Err err, w1) => Some (Returned, Printf (PConfigError err) w1)
  | (Ok config, w1) =>
      match setupLogFile w1 with
      | (Err err, w2) => Some (Returned, Printf (PLogFileError err) w2)
      | (Ok logFile, w2) =>
          let w3 := cleanOldLogs (log MStarted w2) in
          match pairs fuel config 0 (SourceDirs config) w3 with
          | None => None
          | Some (Panicked i n, w4) => Some (Panicked i n, f_Close logFile w4)
          | Some (Returned, w4) => Some (Returned, f_Close logFile (log MFinished w4))
          end
      end
  end.

(** ** Vocabulary of the statements *)

(** [w] with file system [m] after the system calls [evs] (newest first). *)
Definition upd (m : gmap Path Node) (evs : list Event) (w : World) : World :=
  {| fs := m; fault := fault w; partial := partial w; now := now w;
     trace := evs ++ trace w; out := out w; printed := printed w |}.

Definition can_open (w : World) (p : Path) : Prop :=
  fault w OpOpen p = None ∧ is_Some (lookup_node w p).

Definition can_create (w : World) (p : Path) : Prop :=
  fault w OpCreate p = None ∧ lookup_node w p = None
  ∧ lookup_node w (parent p) = Some Dir.

(** The ways [io.Copy] fails, with the error and the bytes that arrived. *)
Inductive copy_failure (w : World) (src dst : Path) : Error → string → Prop :=
| cf_dir :
    lookup_node w src = Some Dir →
    copy_failure w src dst (EOs OpRead src EISDIR) ""
| cf_read data t f :
    lookup_node w src = Some (File data t) →
    fault w OpRead src = Some f →
    copy_failure w src dst (EOs OpRead src (errno_of_fault f))
      (substring 0 (partial w src) data)
| cf_write data t f :
    lookup_node w src = Some (File data t) →
    fault w OpRead src = None →
    fault w OpWrite dst = Some f →
    copy_failure w src dst (EOs OpWrite dst (errno_of_fault f))
      (substring 0 (partial w src) data).

(** The seven ways through [moveFile]: what it returns and the world it
    leaves, in terms of the world it was called in. *)
Inductive move_outcome (src dst : Path) (w : World) : option Error → World → Prop :=
| mo_open e :
    (os_Open src w).1 = Err e →
    move_outcome src dst w (Some (EWrap CtxOpenSource e))
      (upd (fs w) [Sys OpOpen src false] w)
| mo_exists n :
    can_open w src →
    fault w OpStat dst = None →
    lookup_node w dst = Some n →
    move_outcome src dst w (Some (ETargetExists dst))
      (upd (fs w) [SysClose src; Sys OpStat dst true; Sys OpOpen src true] w)
| mo_check f :
    can_open w src →
    fault w OpStat dst = Some f →
    move_outcome src dst w
      (Some (EWrap CtxCheckTarget (EOs OpStat dst (errno_of_fault f))))
      (upd (fs w) [SysClose src; Sys OpStat dst false; Sys OpOpen src true] w)
| mo_create e :
    can_open w src →
    fault w OpStat dst = None →
    lookup_node w dst = None →
    (os_Create dst w).1 = Err e →
    move_outcome src dst w (Some (EWrap CtxCreateTarget e))
      (upd (fs w)
         [SysClose src; Sys OpCreate dst false; Sys OpStat dst false;
          Sys OpOpen src true] w)
| mo_copy e chunk :
    can_open w src →
    fault w OpStat dst = None →
    can_create w dst →
    copy_failure w src dst e chunk →
    move_outcome src dst w (Some (EWrap CtxCopy e))
      (upd (<[dst := File chunk (now w)]> (fs w))
         [SysClose src; SysClose dst; SysCopy dst src false; Sys OpCreate dst true;
          Sys OpStat dst false; Sys OpOpen src true] w)
| mo_remove data t f :
    fault w OpOpen src = None →
    fault w OpStat dst = None →
    can_create w dst →
    lookup_node w src = Some (File data t) →
    fault w OpRead src = None →
    fault w OpWrite dst = None →
    fault w OpRemove src = Some f →
    move_outcome src dst w
      (Some (EWrap CtxRemoveSource (EOs OpRemove src (errno_of_fault f))))
      (upd (<[dst := File data (now w)]> (fs w))
         [Sys OpRemove src false; SysClose dst; SysClose src; SysCopy dst src true;
          Sys OpCreate dst true; Sys OpStat dst false; Sys OpOpen src true] w)
| mo_moved data t :
    fault w OpOpen src = None →
    fault w OpStat dst = None →
    can_create w dst →
    lookup_node w src = Some (File data t) →
    fault w OpRead src = None →
    fault w OpWrite dst = None →
    fault w OpRemove src = None →
    move_outcome src dst w None
      (upd (delete src (<[dst := File data (now w)]> (fs w)))
         [Sys OpRemove src true; SysClose dst; SysClose src; SysCopy dst src true;
          Sys OpCreate dst true; Sys OpStat dst false; Sys OpOpen src true] w).

(** ** Example worlds *)

Definition no_fault : Op → Path → option Fault := λ _ _, None.

(** A quiet world over the given tree at time [t]. *)
Definition world_of (tree : list (Path * Node)) (flt : Op → Path → option Fault)
    (t : Z) : World :=
  {| fs := list_to_map tree; fault := flt; partial := λ _, 0%nat; now := t;
     trace := []; out := []; printed := [] |}.

(** A source tree with one large nested file and one small file, and an
    empty target directory; the threshold used with it is 3 bytes. *)
Definition ex_tree : list (Path * Node) :=
  [ (["src"], Dir); (["src"; "sub"], Dir); (["dst"], Dir);
    (["src"; "sub"; "a.bin"], File "abcd" 5);
    (["src"; "b.bin"], File "ab" 5) ].

Definition ex_world : World := world_of ex_tree no_fault 1000.

(** The large file of [ex_world] and where a transfer into [dst] puts it. *)
Definition ex_src : Path := ["src"; "sub"; "a.bin"].
Definition ex_dst : Path := ["dst"; "a.bin"].

(** [ex_world] after [moveFile ex_src ex_dst]. *)
Definition ex_moved_world : World := (moveFile ex_src ex_dst ex_world).2.

(** [ex_world] with a file of the same name already in the target. *)
Definition ex_conflict_world : World :=
  world_of ((["dst"; "a.bin"], File "old" 1) :: ex_tree) no_fault 1000.

(** [ex_world] after one run of [processDirectory] from [src] to [dst]. *)
Definition ex_after_first : World :=
  match processDirectory 3 ["src"] ["dst"] 3 ex_world with
  | Some (_, w) => w
  | None => ex_world
  end.

(** [ex_conflict_world] after [moveFile ex_src ex_dst]. *)
Definition ex_conflict_after : World := (moveFile ex_src ex_dst ex_conflict_world).2.

(** [ex_conflict_world] in which the source file cannot be opened. *)
Definition ex_locked_world : World :=
  world_of ((["dst"; "a.bin"], File "old" 1) :: ex_tree)
    (λ op p, match op with
             | OpOpen => if decide (p = ex_src) then Some FAccess else None
             | _ => None
             end)
    1000.

(** A target that holds [a.bin] while the source tree has no such file. *)
Definition ex_no_source_world : World :=
  world_of [ (["src"], Dir); (["dst"], Dir); (["dst"; "a.bin"], File "old" 1) ]
    no_fault 1000.

(** Two pairs; in the first the target already holds [a.bin] and a second
    large file [z.bin] follows it in the walk. *)
Definition ex_fail_world : World :=
  world_of
    [ (["src"], Dir); (["src"; "sub"], Dir); (["dst"], Dir);
      (["src"; "sub"; "a.bin"], File "abcd" 5); (["src"; "z.bin"], File "wxyz" 5);
      (["dst"; "a.bin"], File "old" 1);
      (["src2"], Dir); (["dst2"], Dir); (["src2"; "c.bin"], File "cccc" 5) ]
    no_fault 1000.

Definition ex_config : Config :=
  {| SourceDirs := ["src"; "src2"]; TargetDirs := ["dst"; "dst2"]; MinFileSize := 3 |}.

(** ** Vocabulary for whole runs *)

(** [info] is what [Lstat] reports for [p] in [w]. *)
Definition fresh_info (w : World) (p : Path) (info : FileInfo) : Prop :=
  ∃ n, lookup_node w p = Some n ∧ info = info_of p n.

(** Every directory lies less than [n] components deep. *)
Definition depth_below (n : nat) (w : World) : Prop :=
  ∀ p, lookup_node w p = Some Dir → List.length p < n.

(** A line about one transfer into [targetDir]: its destination is
    [targetDir] joined with the base name of its source, and its source is
    not a file of [w] below the threshold. *)
Definition transfer_line (targetDir : Path) (minFileSize : Z) (w : World)
    (l : Line) : Prop :=
  ∃ src,
    (text l = MMoved src (targetDir ++ [base src])
     ∨ ∃ e, text l = MMoveError src (targetDir ++ [base src]) e)
    ∧ ∀ d t, fs w !! src = Some (File d t) →
             (minFileSize ≤ Z.of_nat (String.length d))%Z.

(** What a walk with the callback of [processDirectory] can change. *)
Record run_rel (targetDir : Path) (minFileSize : Z) (w w' : World) : Prop := {
  rr_fault : fault w' = fault w;
  rr_now : now w' = now w;
  rr_printed : printed w' = printed w;
  rr_dirs : ∀ p, lookup_node w' p = Some Dir ↔ lookup_node w p = Some Dir;
  rr_small : ∀ p d t,
    fs w !! p = Some (File d t) →
    (Z.of_nat (String.length d) < minFileSize)%Z →
    fs w' !! p = Some (File d t);
  rr_new : ∀ p,
    fs w !! p = None → is_Some (fs w' !! p) → ∃ name, p = targetDir ++ [name];
  rr_out : ∃ new,
    out w' = new ++ out w ∧ Forall (transfer_line targetDir minFileSize w) new
}.

(** What a finished walk with callback [walkFn] guarantees for a relation
    [R] that every successful step respects: after a walk without error the
    final world relates to the first; an error is the result of the very
    last call of the callback, made in a world that relates to the first. *)
Definition walk_post (walkFn : WalkFunc) (R : World → World → Prop)
    (w : World) (res : option Error * World) : Prop :=
  (res.1 = None → R w res.2) ∧
  ∀ e, res.1 = Some e →
    ∃ p v w0, R w w0 ∧ walkFn p v w0 = (Some e, res.2)
              ∧ ∀ info, v = Entry info → fresh_info w0 p info.

(** A run in which every attempted transfer succeeded. *)
Definition clean_rel (targetDir : Path) (minFileSize : Z) (w w' : World) : Prop :=
  run_rel targetDir minFileSize w w' ∧
  ∃ new, out w' = new ++ out w ∧ Forall (λ l, ∃ src dst, text l = MMoved src dst) new.

(** The test of the callback: a non-directory of at least the minimum size. *)
Definition qualifies (minFileSize : Z) (info : FileInfo) : bool :=
  negb (fi_isdir info) && (minFileSize <=? fi_size info)%Z.

(** The source and destination a log line reports, if it is about a transfer. *)
Definition line_transfer (l : Line) : option (Path * Path) :=
  match text l with
  | MMoved src dst => Some (src, dst)
  | MMoveError src dst _ => Some (src, dst)
  | _ => None
  end.

(** The source directories announced by "Обработка исходной папки". *)
Definition announced (ls : list Line) : list string :=
  omap (λ l, match text l with MProcessing d => Some d | _ => None end) ls.

(** One more than the length of the longest path of the file system: a
    recursion depth that is enough for every walk. *)
Definition depth_bound (w : World) : nat :=
  S (max_list (List.length <$> (map_to_list (fs w)).*1)).

(** ** Vocabulary for the retention sweep *)

(** The path of the log file called [name]. *)
Definition log_path (name : string) : Path := logDir ++ [name].

Definition no_fault_at (w : World) (op : Op) (p : Path) : bool :=
  match fault w op p with None => true | Some _ => false end.

(** [p] is a file last modified strictly before [cutoff]. *)
Definition expired (cutoff : Z) (w : World) (p : Path) : bool :=
  match fs w !! p with
  | Some (File _ t) => (t <? cutoff)%Z
  | _ => false
  end.

(** [p] is expired and neither [Stat] nor [Remove] is faulted on it. *)
Definition doomed (cutoff : Z) (w : World) (p : Path) : bool :=
  expired cutoff w p && no_fault_at w OpStat p && no_fault_at w OpRemove p.

(** The world after the sweep handled the file [name], modified at [t]. *)
Definition after_file (cutoff : Z) (name : string) (t : Z) (w : World) : World :=
  let p := log_path name in
  match fault w OpStat p with
  | Some f =>
      log (MStatLogError name (EOs OpStat p (errno_of_fault f)))
        (upd (fs w) [Sys OpStat p false] w)
  | None =>
      if (t <? cutoff)%Z then
        match fault w OpRemove p with
        | Some f =>
            log (MRemoveLogError name (EOs OpRemove p (errno_of_fault f)))
              (upd (fs w) [Sys OpRemove p false; Sys OpStat p true] w)
        | None =>
            log (MRemovedLog name)
              (upd (delete p (fs w)) [Sys OpRemove p true; Sys OpStat p true] w)
        end
      else upd (fs w) [Sys OpStat p true] w
  end.

(** A log directory with an old file, a recent file, an old file whose
    [Stat] fails and a subdirectory; five days before [now] is 568000. *)
Definition ex_logs_fault : Op → Path → option Fault :=
  λ op p,
    match op with
    | OpStat => if decide (p = ["logs"; "locked.log"]) then Some FAccess else None
    | _ => None
    end.

Definition ex_logs_world : World :=
  world_of
    [ (["logs"], Dir); (["logs"; "old.log"], File "o" 100);
      (["logs"; "new.log"], File "n" 999000); (["logs"; "locked.log"], File "l" 100);
      (["logs"; "archive"], Dir); (["logs"; "archive"; "x.log"], File "x" 100) ]
    ex_logs_fault 1000000.

(** A string between double quotes. *)
Definition quoted (s : string) : string := Json.dq +:+ s +:+ Json.dq.

(** The text [json.MarshalIndent] produces for the default configuration. *)
Definition default_text : string :=
  String.concat Json.nl
    [ "{";
      "  " +:+ quoted "source_dirs" +:+ ": [";
      "    " +:+ quoted "e:/FilesNota/572149/1" +:+ ",";
      "    " +:+ quoted "e:/FilesNota/572149/2";
      "  ],";
      "  " +:+ quoted "target_dirs" +:+ ": [";
      "    " +:+ quoted "//192.168.2.15/5/test/1" +:+ ",";
      "    " +:+ quoted "//192.168.2.15/5/test/2";
      "  ],";
      "  " +:+ quoted "min_file_size" +:+ ": 26463150";
      "}" ].

(** An empty working directory. *)
Definition ex_empty_world : World := world_of [] no_fault 1000.

(** A configuration file with two source directories and one target. *)
Definition mismatch_text : string :=
  "{" +:+ quoted "source_dirs" +:+ ": [" +:+ quoted "src" +:+ ", " +:+ quoted "src2"
  +:+ "], " +:+ quoted "target_dirs" +:+ ": [" +:+ quoted "dst" +:+ "], "
  +:+ quoted "min_file_size" +:+ ": 3}".

Definition ex_mismatch_world : World :=
  world_of ((["config.json"], File mismatch_text 1) :: (["src2"], Dir) :: ex_tree)
    no_fault 1000.

(** A well-formed configuration followed by text that is no JSON. *)
Definition trailing_text : string :=
  "{" +:+ quoted "source_dirs" +:+ ": [" +:+ quoted "src" +:+ "], "
  +:+ quoted "target_dirs" +:+ ": [" +:+ quoted "dst" +:+ "], "
  +:+ quoted "min_file_size" +:+ ": 3} this is not JSON".

Definition ex_trailing_world : World :=
  world_of ((["config.json"], File trailing_text 1) :: ex_tree) no_fault 1000.

(** A configuration file cut off in the middle of the first value. *)
Definition truncated_text : string :=
  "{" +:+ quoted "source_dirs" +:+ ": [" +:+ quoted "src".

Definition ex_truncated_world : World :=
  world_of ((["config.json"], File truncated_text 1) :: ex_tree) no_fault 1000.

(** The system calls [loadOrCreateConfig] makes on an existing file. *)
Definition reads_only (path : Path) (ev : Event) : Prop :=
  (∃ ok, ev = Sys OpOpen path ok) ∨ (∃ ok, ev = Sys OpRead path ok)
  ∨ ev = SysClose path.

(** ** Vocabulary for single transfers *)

(** What a successful [moveFile] needs: a regular file at the source,
    nothing at the destination, a directory to create the destination in,
    and no fault in any of its six system calls. *)
Definition movable (w : World) (src dst : Path) : Prop :=
  (∃ data t, lookup_node w src = Some (File data t)) ∧
  can_create w dst ∧
  fault w OpOpen src = None ∧ fault w OpStat dst = None ∧
  fault w OpRead src = None ∧ fault w OpWrite dst = None ∧
  fault w OpRemove src = None.

(** [ex_world] on a full disk: writing [dst/a.bin] fails after two bytes. *)
Definition ex_full_world : World :=
  {| fs := list_to_map ex_tree;
     fault := λ op p,
       match op with
       | OpWrite => if decide (p = ex_dst) then Some FNoSpace else None
       | _ => None
       end;
     partial := λ _, 2%nat; now := 1000; trace := []; out := []; printed := [] |}.

Definition ex_full_after : World := (moveFile ex_src ex_dst ex_full_world).2.

(** Two large files of the same name in different directories. *)
Definition ex_clash_world : World :=
  world_of
    [ (["src"], Dir); (["src"; "x"], Dir); (["src"; "y"], Dir); (["dst"], Dir);
      (["src"; "x"; "a.bin"], File "first" 5); (["src"; "y"; "a.bin"], File "second" 6) ]
    no_fault 1000.

(** ** Vocabulary for the fate of files in a walk *)

(** No path directly inside the target directory [t] lies at or below the
    source directory [s]: the target is not inside the source tree and is
    not the directory that holds the source. *)
Definition apart (s t : Path) : Prop := ∀ n, ¬ s `prefix_of` (t ++ [n]).

(** A file at or below [s] of at least [m] bytes. *)
Definition candidate (s : Path) (m : Z) (w : World) (src : Path) : Prop :=
  s `prefix_of` src ∧
  ∃ d t0, fs w !! src = Some (File d t0) ∧ (m ≤ Z.of_nat (String.length d))%Z.

(** What one call of the callback of [processDirectory] on a path under [s]
    does to the files, the logger's write to its file apart: a node stays as
    it is, or it was a candidate and is now in [t] under its base name with
    the same bytes; whatever appears is the destination of a candidate;
    every line is about a candidate. *)
Record moved_rel (s t : Path) (m : Z) (w w' : World) : Prop := {
  mr_run : run_rel t m w w';
  mr_kept : ∀ q x, fs w !! q = Some x →
    fs w' !! q = Some x ∨
    (fs w' !! q = None ∧ candidate s m w q ∧
     ∃ d t0, x = File d t0 ∧ fs w' !! (t ++ [base q]) = Some (File d (now w)));
  mr_new : ∀ q, fs w !! q = None → is_Some (fs w' !! q) →
    ∃ src, candidate s m w src ∧ q = t ++ [base src];
  mr_out : ∃ new, out w' = new ++ out w ∧
    Forall (λ l, ∃ src, candidate s m w src ∧
              (text l = MMoved src (t ++ [base src])
               ∨ ∃ e, text l = MMoveError src (t ++ [base src]) e)) new
}.

(** Every directory on the way from [s] down to the parent of [s ++ rel]
    is there, so that a walk of [s] comes to [s ++ rel]. *)
Fixpoint reachable (w : World) (s rel : Path) : Prop :=
  match rel with
  | [] => True
  | c :: rel' => lookup_node w s = Some Dir ∧ reachable w (s ++ [c]) rel'
  end.

(** No file that a walk of [p] comes to has [m] bytes or more. *)
Definition settled (m : Z) (w : World) (p : Path) : Prop :=
  ∀ rel d t0, reachable w p rel → lookup_node w (p ++ rel) = Some (File d t0) →
    (Z.of_nat (String.length d) < m)%Z.

(** A node that is no file of [m] bytes or more. *)
Definition below (m : Z) (x : Node) : bool :=
  match x with
  | File d _ => (Z.of_nat (String.length d) <? m)%Z
  | Dir => true
  end.

(** ** Example worlds for the start of [main] *)

(** A disk that takes the creation of [config.json] but no byte of it. *)
Definition ex_no_write_world : World :=
  world_of []
    (λ op p, match op with
             | OpWrite => if decide (p = defaultConfigFile) then Some FNoSpace else None
             | _ => None
             end)
    1000.

(** [ex_trailing_world] with a regular file where the log directory
    should be. *)
Definition ex_blocked_world : World :=
  world_of ((["logs"], File "x" 1) :: (["config.json"], File trailing_text 1) :: ex_tree)
    no_fault 1000.

(** ** The rest of the legacy version

    [processDirectory] and [main] of the single-file version: the minimum
    size and the two pairs of directories are constants, the log is the one
    file [transferFiles.log] in the working directory, and there is neither
    a configuration file nor a retention sweep.  The directory constants are
    Windows path strings; [path_of_os] stands for the way the operating
    system reads such a string. *)
Module LegacyMain.

Definition minFileSize : Z := 26463150.

Definition sourceDirs : list string :=
  ["e:\FilesNota\572149\1"; "e:\FilesNota\572149\2"].

Definition targetDirs : list string :=
  ["\\192.168.2.15\5otd\test\1"; "\\192.168.2.15\5otd\test\2"].

Definition logFileName : Path := ["transferFiles.log"].

(** The closure passed to [filepath.Walk]. *)
Definition visit (targetDir : Path) : WalkFunc :=
  λ path v w,
    match v with
    | Failure err => (Some err, w)
    | Entry info =>
        if negb (fi_isdir info) && (minFileSize <=? fi_size info)%Z then
          let targetPath := targetDir ++ [fi_name info] in
          match Legacy.moveFile path targetPath w with
          | (Some err, w1) => (Some err, log (MMoveError path targetPath err) w1)
          | (None, w1) => (None, log (MMoved path targetPath) w1)
          end
        else (None, w)
    end.

Definition processDirectory (fuel : nat) (sourceDir targetDir : Path) (w : World)
    : option (option Error * World) :=
  Walk fuel sourceDir (visit targetDir) w.

Section main.
Variable path_of_os : string → Path.

(** The loop [for i, sourceDir := range sourceDirs]. *)
Fixpoint pairs (fuel : nat) (i : nat) (dirs : list string) (w : World)
    : option (Exit * World) :=
  match dirs with
  | [] => Some (Returned, w)
  | sourceDir :: rest =>
      match targetDirs !! i with
      | None => Some (Panicked i (List.length targetDirs), w)
      | Some targetDir =>
          let w1 := log (MProcessing sourceDir) w in
          match processDirectory fuel (path_of_os sourceDir) (path_of_os targetDir) w1 with
          | None => None
          | Some (None, w2) => pairs fuel (S i) rest w2
          | Some (Some err, w2) => pairs fuel (S i) rest (log (MDirError sourceDir err) w2)
          end
      end
  end.

Definition main (fuel : nat) (w : World) : option (Exit * World) :=
  match os_OpenFile logFileName w with
  | (Err err, w1) => Some (Returned, Printf (PLogFileError err) w1)
  | (Ok logFile, w1) =>
      let w2 := log MStarted w1 in
      match pairs fuel 0 sourceDirs w2 with
      | None => None
      | Some (Panicked i n, w3) => Some (Panicked i n, f_Close logFile w3)
      | Some (Returned, w3) => Some (Returned, f_Close logFile (log MFinished w3))
      end
  end.

End main.
End LegacyMain.

(** What a walk with the callback of the legacy [processDirectory] can
    change: no directory; no file below the minimum size, unless it lies
    directly in the target directory [t]; and what appears lies directly in
    [t]. *)
Record legacy_rel (t : Path) (w w' : World) : Prop := {
  lr_fault : fault w' = fault w;
  lr_now : now w' = now w;
  lr_printed : printed w' = printed w;
  lr_dirs : ∀ p, lookup_node w' p = Some Dir ↔ lookup_node w p = Some Dir;
  lr_small : ∀ p d t0,
    fs w !! p = Some (File d t0) →
    (Z.of_nat (String.length d) < LegacyMain.minFileSize)%Z →
    (∀ n, p ≠ t ++ [n]) →
    fs w' !! p = Some (File d t0);
  lr_new : ∀ p,
    fs w !! p = None → is_Some (fs w' !! p) → ∃ name, p = t ++ [name];
  lr_out : ∃ new, out w' = new ++ out w ∧ announced new = []
}.

(** ** The logger and its file

    [main] passes [io.MultiWriter(os.Stdout, logFile)] as the logger to
    [cleanOldLogs], [processDirectory] and [log]: every line goes to the
    standard output and, through the open handle, to the end of the log
    file, which is a file of the same file system that [filepath.Walk]
    reads.  A [Writer] is the file half of a logger: what writing one line
    does to the world besides extending [out]. *)
Definition Writer := Line → World → World.

(** A logger with no file behind it. *)
Definition no_file : Writer := λ _ w, w.

(** The file half of [io.MultiWriter(os.Stdout, logFile)].  [format l] stands
    for the bytes of [fmt.Fprintf(logger, "%s: %s\n", timestamp, message)];
    they are appended to the file of the handle, and the error of the write
    is dropped, as [log] drops the result of [fmt.Fprintf].  A handle is the
    path it was opened at: once the log file has been moved away, the write
    finds no file and changes no path of the file system. *)
Definition file_writer (format : Line → string) (logFile : Handle) : Writer :=
  λ l w, (f_Write logFile (format l) w).2.

(** [processDirectory] and [log] with their [logger] argument. *)
Module Logged.

Definition log (logger : Writer) (message : Msg) (w : World) : World :=
  logger {| stamp := now w; text := message |} (log message w).

(** The closure passed to [filepath.Walk]. *)
Definition visit (logger : Writer) (targetDir : Path) (minFileSize : Z) : WalkFunc :=
  λ path v w,
    match v with
    | Failure err => (Some err, w)
    | Entry info =>
        if negb (fi_isdir info) && (minFileSize <=? fi_size info)%Z then
          let targetPath := targetDir ++ [fi_name info] in
          match moveFile path targetPath w with
          | (Some err, w1) => (Some err, log logger (MMoveError path targetPath err) w1)
          | (None, w1) => (None, log logger (MMoved path targetPath) w1)
          end
        else (None, w)
    end.

Definition processDirectory (fuel : nat) (sourceDir targetDir : Path) (minFileSize : Z)
    (logger : Writer) (w : World) : option (option Error * World) :=
  Walk fuel sourceDir (visit logger targetDir minFileSize) w.

End Logged.

(** The legacy [processDirectory] with its [logger] argument, which [main]
    builds from the open [transferFiles.log]. *)
Module LegacyLogged.

(** The closure passed to [filepath.Walk]. *)
Definition visit (logger : Writer) (targetDir : Path) : WalkFunc :=
  λ path v w,
    match v with
    | Failure err => (Some err, w)
    | Entry info =>
        if negb (fi_isdir info) && (LegacyMain.minFileSize <=? fi_size info)%Z then
          let targetPath := targetDir ++ [fi_name info] in
          match Legacy.moveFile path targetPath w with
          | (Some err, w1) =>
              (Some err, Logged.log logger (MMoveError path targetPath err) w1)
          | (None, w1) => (None, Logged.log logger (MMoved path targetPath) w1)
          end
        else (None, w)
    end.

Definition processDirectory (fuel : nat) (sourceDir targetDir : Path)
    (logger : Writer) (w : World) : option (option Error * World) :=
  Walk fuel sourceDir (visit logger targetDir) w.

End LegacyLogged.

(** ** Vocabulary for runs with the log file in the file system *)

(** A line about one transfer into [targetDir]: its destination is
    [targetDir] joined with the base name of its source, and its source is
    the log file [lf] or is not a file of [w] below the threshold. *)
Definition logged_line (lf targetDir : Path) (minFileSize : Z) (w : World)
    (l : Line) : Prop :=
  ∃ src,
    (text l = MMoved src (targetDir ++ [base src])
     ∨ ∃ e, text l = MMoveError src (targetDir ++ [base src]) e)
    ∧ (src ≠ lf → ∀ d t, fs w !! src = Some (File d t) →
                   (minFileSize ≤ Z.of_nat (String.length d))%Z).

(** What a walk with the callback of [processDirectory] can change when the
    logger writes to the file [lf]: as [run_rel], but for the log file, which
    grows with every line. *)
Record logged_rel (lf targetDir : Path) (minFileSize : Z) (w w' : World) : Prop := {
  lg_fault : fault w' = fault w;
  lg_now : now w' = now w;
  lg_printed : printed w' = printed w;
  lg_dirs : ∀ p, lookup_node w' p = Some Dir ↔ lookup_node w p = Some Dir;
  lg_small : ∀ p d t,
    p ≠ lf →
    fs w !! p = Some (File d t) →
    (Z.of_nat (String.length d) < minFileSize)%Z →
    fs w' !! p = Some (File d t);
  lg_new : ∀ p,
    fs w !! p = None → is_Some (fs w' !! p) → ∃ name, p = targetDir ++ [name];
  lg_out : ∃ new,
    out w' = new ++ out w ∧ Forall (logged_line lf targetDir minFileSize w) new
}.

(** What a walk of [s] does to the files when the logger writes to [lf].  A
    node other than the log file stays as it is, or it was a candidate and is
    now in [t] under its base name with the same bytes; whatever appears is
    the destination of a candidate or of the log file; the log file keeps
    the bytes it had as the beginning of its contents, where it was or, when
    it lay under [s] and was moved, in [t]. *)
Record logged_moved_rel (lf s t : Path) (m : Z) (w w' : World) : Prop := {
  lm_run : logged_rel lf t m w w';
  lm_kept : ∀ q x, q ≠ lf → fs w !! q = Some x →
    fs w' !! q = Some x ∨
    (fs w' !! q = None ∧ candidate s m w q ∧
     ∃ d t0, x = File d t0 ∧
       (t ++ [base q] ≠ lf → fs w' !! (t ++ [base q]) = Some (File d (now w))));
  lm_new : ∀ q, fs w !! q = None → is_Some (fs w' !! q) →
    ∃ src d t0, s `prefix_of` src ∧ fs w !! src = Some (File d t0)
                ∧ (src = lf ∨ (m ≤ Z.of_nat (String.length d))%Z)
                ∧ q = t ++ [base src];
  lm_log : ∀ d t0, fs w !! lf = Some (File d t0) →
    (∃ more t1, fs w' !! lf = Some (File (d +:+ more) t1))
    ∨ (s `prefix_of` lf ∧ fs w' !! lf = None ∧
       ∃ more, fs w' !! (t ++ [base lf]) = Some (File (d +:+ more) (now w)))
}.

(** No file other than [lf] that a walk of [p] comes to has [m] bytes or
    more. *)
Definition settled_but (lf : Path) (m : Z) (w : World) (p : Path) : Prop :=
  ∀ rel d t0, reachable w p rel → p ++ rel ≠ lf →
    lookup_node w (p ++ rel) = Some (File d t0) →
    (Z.of_nat (String.length d) < m)%Z.

(** [legacy_rel] when the logger writes to the file [lf]. *)
Record legacy_logged_rel (lf t : Path) (w w' : World) : Prop := {
  ll_fault : fault w' = fault w;
  ll_now : now w' = now w;
  ll_dirs : ∀ p, lookup_node w' p = Some Dir ↔ lookup_node w p = Some Dir;
  ll_small : ∀ p d t0,
    p ≠ lf →
    fs w !! p = Some (File d t0) →
    (Z.of_nat (String.length d) < LegacyMain.minFileSize)%Z →
    (∀ n, p ≠ t ++ [n]) →
    fs w' !! p = Some (File d t0);
  ll_new : ∀ p,
    fs w !! p = None → is_Some (fs w' !! p) → ∃ name, p = t ++ [name]
}.

(** ** Example worlds with a log file *)

(** The open log file of the examples. *)
Definition ex_log_file : Handle := {| h_path := ["logs"; "01-01-1970.log"] |}.

(** A logger that writes ten bytes for every line. *)
Definition ex_format : Line → string := λ _, "0123456789".

(** [ex_world] with the log directory and the day's log file beside the
    source and the target directory. *)
Definition ex_logged_world : World :=
  world_of ((["logs"], Dir) :: (["logs"; "01-01-1970.log"], File "" 1000) :: ex_tree)
    no_fault 1000.

(** The log directory as the source directory: a file of ten bytes and the
    day's log file of two bytes, below a minimum size of five. *)
Definition ex_log_source_world : World :=
  world_of
    [ (["logs"], Dir); (["dst"], Dir);
      (["logs"; "00.bin"], File "aaaaaaaaaa" 5);
      (["logs"; "01-01-1970.log"], File "ab" 900) ]
    no_fault 1000.

(** [ex_logged_world] after one run of [processDirectory] from [src] to
    [dst] with a minimum size of three. *)
Definition ex_logged_after : World :=
  match Logged.processDirectory 3 ["src"] ["dst"] 3 (file_writer ex_format ex_log_file)
          ex_logged_world with
  | Some (_, w) => w
  | None => ex_logged_world
  end.

(** [ex_conflict_world] with the log file of the legacy version in the
    working directory. *)
Definition ex_legacy_logged_world : World :=
  world_of ((["transferFiles.log"], File "" 1000) :: (["dst"; "a.bin"], File "old" 1)
            :: ex_tree)
    no_fault 1000.

(** * Proofs *)

#[local] Set Warnings "-clear-no-such-hyp".

Lemma lookup_node_upd_same evs w p : lookup_node (upd (fs w) evs w) p = lookup_node w p.
Proof. by destruct p. Qed.

Lemma sys_upd {A} op p (act : World → Errno + (A * World)) m evs w :
  sys op p act (upd m evs w) =
    match fault w op p with
    | Some f => (Err (EOs op p (errno_of_fault f)), upd m (Sys op p false :: evs) w)
    | None =>
        match act (upd m evs w) with
        | inl e => (Err (EOs op p e), upd m (Sys op p false :: evs) w)
        | inr (a, w') => (Ok a, emit (Sys op p true) w')
        end
    end.
Proof. unfold sys. simpl. destruct (fault w op p); [done|]. by destruct (act _) as [|[]]. Qed.

Lemma os_Open_ok p w h w1 :
  os_Open p w = (Ok h, w1) →
  can_open w p ∧ h = {| h_path := p |} ∧ w1 = upd (fs w) [Sys OpOpen p true] w.
Proof.
  unfold os_Open, sys, can_open.
  destruct (fault w OpOpen p); [done|].
  destruct (lookup_node w p) eqn:E; [|done].
  intros; simplify_eq. eauto.
Qed.

Lemma os_Open_err p w e w1 :
  os_Open p w = (Err e, w1) → w1 = upd (fs w) [Sys OpOpen p false] w.
Proof.
  unfold os_Open, sys.
  destruct (fault w OpOpen p); [by intros; simplify_eq|].
  destruct (lookup_node w p); by intros; simplify_eq.
Qed.

Lemma IsNotExist_fault op p f : IsNotExist (EOs op p (errno_of_fault f)) = false.
Proof. by destruct f. Qed.

Lemma lookup_node_emit e w p : lookup_node (emit e w) p = lookup_node w p.
Proof. by destruct p. Qed.

Lemma io_Copy_fresh dst src m evs w :
  src ≠ dst →
  io_Copy {| h_path := dst |} {| h_path := src |}
      (upd (<[dst := File "" (now w)]> m) evs w) =
    match lookup_node (upd m [] w) src with
    | None => (Err (EOs OpRead src ENOENT),
               upd (<[dst := File "" (now w)]> m) (SysCopy dst src false :: evs) w)
    | Some Dir => (Err (EOs OpRead src EISDIR),
                   upd (<[dst := File "" (now w)]> m) (SysCopy dst src false :: evs) w)
    | Some (File data _) =>
        match fault w OpRead src, fault w OpWrite dst with
        | Some f, _ =>
            (Err (EOs OpRead src (errno_of_fault f)),
             upd (<[dst := File (substring 0 (partial w src) data) (now w)]> m)
               (SysCopy dst src false :: evs) w)
        | None, Some f =>
            (Err (EOs OpWrite dst (errno_of_fault f)),
             upd (<[dst := File (substring 0 (partial w src) data) (now w)]> m)
               (SysCopy dst src false :: evs) w)
        | None, None =>
            (Ok (Z.of_nat (String.length data)),
             upd (<[dst := File data (now w)]> m) (SysCopy dst src true :: evs) w)
        end
    end.
Proof.
  intros Hne. unfold io_Copy. cbn [h_path].
  assert (lookup_node (upd (<[dst:=File "" (now w)]> m) evs w) src
          = lookup_node (upd m [] w) src) as ->.
  { destruct src; [done|]. simpl. by rewrite lookup_insert_ne. }
  destruct (lookup_node (upd m [] w) src) as [[data t|]|]; try done.
  unfold append_at. simpl. rewrite !lookup_insert_eq.
  destruct (fault w OpRead src), (fault w OpWrite dst);
    by rewrite insert_insert_eq.
Qed.

Lemma os_Remove_file p m evs w data t :
  lookup_node (upd m [] w) p = Some (File data t) →
  os_Remove p (upd m evs w) =
    match fault w OpRemove p with
    | Some f => (Err (EOs OpRemove p (errno_of_fault f)),
                 upd m (Sys OpRemove p false :: evs) w)
    | None => (Ok tt, upd (delete p m) (Sys OpRemove p true :: evs) w)
    end.
Proof.
  intros Hp. unfold os_Remove. rewrite sys_upd.
  destruct (fault w OpRemove p); [done|].
  destruct p as [|a p]; [done|]. simpl in *. by rewrite Hp.
Qed.

Lemma f_Close_upd h m evs w :
  f_Close h (upd m evs w) = upd m (SysClose (h_path h) :: evs) w.
Proof. reflexivity. Qed.

Lemma moveFile_outcome src dst w r w' :
  moveFile src dst w = (r, w') → move_outcome src dst w r w'.
Proof.
  unfold moveFile. intros H.
  destruct (os_Open src w) as [[h|e] w1] eqn:Hopen.
  2:{ apply os_Open_err in Hopen as Hw. subst w1.
      simplify_eq. apply mo_open. by rewrite Hopen. }
  apply os_Open_ok in Hopen as (Hcan & -> & ->).
  revert H.
  unfold os_Stat. rewrite sys_upd. unfold stat_act. rewrite lookup_node_upd_same.
  destruct (fault w OpStat dst) as [f|] eqn:Hfs.
  { rewrite IsNotExist_fault. cbn [negb]. intros; simplify_eq. by apply mo_check. }
  destruct (lookup_node w dst) as [n|] eqn:Hdst.
  { intros; simplify_eq. by eapply mo_exists. }
  cbn [IsNotExist negb]. unfold os_Create. rewrite sys_upd. rewrite !lookup_node_upd_same, Hdst.
  destruct (fault w OpCreate dst) as [f|] eqn:Hfc.
  { intros; simplify_eq. eapply mo_create; try done.
    unfold os_Create, sys. by rewrite Hfc. }
  destruct (lookup_node w (parent dst)) as [[]|] eqn:Hpar.
  1,3: intros; simplify_eq; eapply mo_create; try done;
       unfold os_Create, sys; by rewrite Hfc, Hdst, Hpar.
  assert (can_create w dst) as Hcc by done.
  assert (src ≠ dst) as Hne.
  { intros ->. destruct Hcan as [_ [? Hs]]. congruence. }
  assert (dst ≠ []) as Hdne by (intros ->; done).
  change (emit (Sys OpCreate dst true) _)
    with (upd (<[dst := File "" (now w)]> (fs w))
            [Sys OpCreate dst true; Sys OpStat dst false; Sys OpOpen src true] w).
  rewrite io_Copy_fresh, lookup_node_upd_same by done.
  destruct (Hcan) as [Hfo [nsrc Hsrc]]. rewrite Hsrc.
  destruct nsrc as [data t|].
  2:{ intros; simplify_eq. rewrite !f_Close_upd. eapply mo_copy; try done. by constructor. }
  destruct (fault w OpRead src) as [f|] eqn:Hfr.
  { intros; simplify_eq. rewrite !f_Close_upd. eapply mo_copy; try done. by econstructor. }
  destruct (fault w OpWrite dst) as [f|] eqn:Hfw.
  { intros; simplify_eq. rewrite !f_Close_upd. eapply mo_copy; try done. by econstructor. }
  rewrite !f_Close_upd. cbn [h_path].
  rewrite os_Remove_file with (data := data) (t := t).
  2:{ destruct src; [done|]. simpl. by rewrite lookup_insert_ne. }
  destruct (fault w OpRemove src) as [f|] eqn:Hfrm; intros; simplify_eq.
  - by eapply mo_remove.
  - by eapply mo_moved.
Qed.

Lemma lookup_node_file w p d t :
  lookup_node w p = Some (File d t) → fs w !! p = Some (File d t) ∧ p ≠ [].
Proof. by destruct p. Qed.

Lemma can_create_ne w src dst :
  is_Some (lookup_node w src) → can_create w dst → src ≠ dst.
Proof. intros [n Hn] (_ & Hd & _) ->. congruence. Qed.

(** C1: [moveFile] removes the source only after the copy succeeded.  With
    [ev] the system calls of one [moveFile]: a failed open, create or copy
    gives an error and no removal; a removal of the source is always the last
    call, directly after the complete copy and the two closes, at a moment
    when the destination holds every byte; whenever an error is returned the
    source is still in place. *)
Theorem moveFile_removes_only_after_copy (src dst : Path) (w w' : World) (r : option Error) :
  moveFile src dst w = (r, w') →
  ∃ ev, trace w' = ev ++ trace w ∧
    ((Sys OpOpen src false ∈ ev ∨ Sys OpCreate dst false ∈ ev
      ∨ SysCopy dst src false ∈ ev) →
       is_Some r ∧ (∀ ok, Sys OpRemove src ok ∉ ev) ∧ fs w' !! src = fs w !! src) ∧
    (∀ ok, Sys OpRemove src ok ∈ ev →
       ∃ data t,
         fs w !! src = Some (File data t) ∧
         fs w' !! dst = Some (File data (now w)) ∧
         ev = [Sys OpRemove src ok; SysClose dst; SysClose src; SysCopy dst src true;
               Sys OpCreate dst true; Sys OpStat dst false; Sys OpOpen src true]) ∧
    (is_Some r → fs w' !! src = fs w !! src) ∧
    (fs w' !! src ≠ fs w !! src → r = None ∧ Sys OpRemove src true ∈ ev).
Proof.
  intros H. apply moveFile_outcome in H.
  inversion H as [ | | | | e chunk Hopen _ Hcreate _
                   | data t f _ _ Hcreate Hsrc | data t _ _ Hcreate Hsrc ];
    subst; clear H; (eexists; split; [reflexivity|]); cbn [fs upd].
  1-4: set_unfold; naive_solver.
  - assert (src ≠ dst) by (eapply can_create_ne; [apply Hopen|done]).
    rewrite lookup_insert_ne by done. set_unfold; naive_solver.
  - assert (src ≠ dst) by (eapply can_create_ne; [|done]; eauto).
    apply lookup_node_file in Hsrc as [Hsrc _].
    rewrite lookup_insert_ne, lookup_insert_eq by done.
    set_unfold; naive_solver.
  - assert (src ≠ dst) by (eapply can_create_ne; [|done]; eauto).
    apply lookup_node_file in Hsrc as [Hsrc _].
    rewrite lookup_delete_eq, lookup_delete_ne, lookup_insert_eq by done.
    set_unfold; naive_solver.
Qed.

Lemma C1_witness :
  moveFile ex_src ex_dst ex_world = (None, ex_moved_world) ∧
  ∃ ev, trace ex_moved_world = ev ++ trace ex_world ∧
    ∀ ok, Sys OpRemove ex_src ok ∈ ev →
      ∃ data t,
        fs ex_world !! ex_src = Some (File data t) ∧
        fs ex_moved_world !! ex_dst = Some (File data (now ex_world)) ∧
        ev = [Sys OpRemove ex_src ok; SysClose ex_dst; SysClose ex_src;
              SysCopy ex_dst ex_src true; Sys OpCreate ex_dst true;
              Sys OpStat ex_dst false; Sys OpOpen ex_src true].
Proof.
  assert (moveFile ex_src ex_dst ex_world = (None, ex_moved_world)) as H
    by (vm_compute; reflexivity).
  split; [exact H|].
  destruct (moveFile_removes_only_after_copy ex_src ex_dst ex_world ex_moved_world
              None H) as (ev & Htrace & _ & Hremove & _).
  exists ev. split; [exact Htrace | exact Hremove].
Defined.

Lemma os_Open_absent p w :
  fault w OpOpen p = None → lookup_node w p = None →
  os_Open p w = (Err (EOs OpOpen p ENOENT), upd (fs w) [Sys OpOpen p false] w).
Proof. intros Hf Hp. unfold os_Open, sys. by rewrite Hf, Hp. Qed.

Lemma os_Open_present p w :
  can_open w p →
  os_Open p w = (Ok {| h_path := p |}, upd (fs w) [Sys OpOpen p true] w).
Proof. intros [Hf [n Hp]]. unfold os_Open, sys. by rewrite Hf, Hp. Qed.

(** After a successful move the source is absent and opening it is not
    faulted. *)
Lemma moved_source_absent src dst w0 w :
  moveFile src dst w0 = (None, w) →
  fault w OpOpen src = None ∧ lookup_node w src = None.
Proof.
  intros H. apply moveFile_outcome in H.
  inversion H as [ | | | | | | data t Hfo _ _ Hsrc ]; subst; clear H.
  split; [done|].
  apply lookup_node_file in Hsrc as [_ Hne].
  destruct src; [done|]. simpl. by rewrite lookup_delete_eq.
Qed.

(** C3, amended: when something already exists at the destination,
    [moveFile] returns an error and neither creates, truncates or writes the
    destination nor deletes the source; the error is the conflict error
    whenever the source can be opened and the existence check is not
    faulted.  A second transfer right after a successful one therefore
    leaves both trees as they were, but with the open error of the now
    absent source; the conflict error is what [processDirectory]'s callback
    logs when a qualifying source of that name is present again. *)
Theorem moveFile_keeps_existing_target (src dst : Path) (n : Node) (w w' : World)
    (r : option Error) :
  lookup_node w dst = Some n →
  moveFile src dst w = (r, w') →
  is_Some r ∧ fs w' = fs w ∧
  (∃ ev, trace w' = ev ++ trace w ∧
     ∀ ok, (Sys OpCreate dst ok ∉ ev) ∧ (SysCopy dst src ok ∉ ev)
           ∧ (Sys OpRemove src ok ∉ ev)) ∧
  (can_open w src → fault w OpStat dst = None → r = Some (ETargetExists dst)) ∧
  (∀ w0, moveFile src dst w0 = (None, w) →
     r = Some (EWrap CtxOpenSource (EOs OpOpen src ENOENT))) ∧
  (∀ targetDir minFileSize info,
     dst = targetDir ++ [fi_name info] →
     fi_isdir info = false → (minFileSize ≤ fi_size info)%Z →
     ∃ e, r = Some e ∧
       visit targetDir minFileSize src (Entry info) w
       = (Some e, log (MMoveError src dst e) w')).
Proof.
  intros Hdst Hmove.
  assert (is_Some r ∧ fs w' = fs w ∧
    (∃ ev, trace w' = ev ++ trace w ∧
       ∀ ok, (Sys OpCreate dst ok ∉ ev) ∧ (SysCopy dst src ok ∉ ev)
             ∧ (Sys OpRemove src ok ∉ ev)) ∧
    (can_open w src → fault w OpStat dst = None → r = Some (ETargetExists dst)))
    as (Hr & Hfs & Hev & Hconf).
  { apply moveFile_outcome in Hmove as H.
    inversion H as [ e Ho | n' Hcan Hf Hd | f Hcan Hf | ? ? ? Hd
                   | ? ? ? ? [_ [Hd _]] | ? ? ? ? ? [_ [Hd _]] | ? ? ? ? [_ [Hd _]] ];
      subst; clear H; try congruence.
    - split; [by eexists|]. split; [done|]. split.
      + exists [Sys OpOpen src false]. split; [done|]. set_unfold; naive_solver.
      + intros Hcan _. rewrite os_Open_present in Ho by done. done.
    - split; [by eexists|]. split; [done|]. split; [|done].
      eexists; split; [reflexivity|]. set_unfold; naive_solver.
    - split; [by eexists|]. split; [done|]. split; [|congruence].
      eexists; split; [reflexivity|]. set_unfold; naive_solver. }
  split; [done|]. split; [done|]. split; [done|]. split; [done|]. split.
  - intros w0 Hfirst. apply moved_source_absent in Hfirst as [Hf Habs].
    unfold moveFile in Hmove. rewrite os_Open_absent in Hmove by done.
    by simplify_eq.
  - intros targetDir minFileSize info -> Hfile Hsize.
    destruct Hr as [e ->]. exists e. split; [done|].
    unfold visit. rewrite Hfile. cbn [negb andb].
    apply Z.leb_le in Hsize. rewrite Hsize. by rewrite Hmove.
Qed.

Lemma C3_witness :
  lookup_node ex_conflict_world ex_dst = Some (File "old" 1) ∧
  moveFile ex_src ex_dst ex_conflict_world
    = (Some (ETargetExists ex_dst), ex_conflict_after) ∧
  fs ex_conflict_after = fs ex_conflict_world ∧
  visit ["dst"] 3 ex_src (Entry (info_of ex_src (File "abcd" 5))) ex_conflict_world
  = (Some (ETargetExists ex_dst),
     log (MMoveError ex_src ex_dst (ETargetExists ex_dst)) ex_conflict_after).
Proof.
  assert (lookup_node ex_conflict_world ex_dst = Some (File "old" 1)) as Hd
    by (vm_compute; reflexivity).
  assert (moveFile ex_src ex_dst ex_conflict_world
          = (Some (ETargetExists ex_dst), ex_conflict_after)) as Hm
    by (vm_compute; reflexivity).
  destruct (moveFile_keeps_existing_target ex_src ex_dst _ ex_conflict_world
              ex_conflict_after _ Hd Hm) as (_ & Hfs & _ & _ & _ & Hvisit).
  split; [exact Hd|]. split; [exact Hm|]. split; [exact Hfs|].
  destruct (Hvisit ["dst"] 3%Z (info_of ex_src (File "abcd" 5)))
    as (e & He & Hv); [reflexivity | reflexivity | vm_compute; discriminate |].
  injection He as <-. exact Hv.
Defined.

(** C3 fails as stated: in [ex_world] the first run moves [a.bin]; then
    the destination exists, yet a second transfer of the same file returns
    the open error of the absent source, not the conflict error, and a
    second run of [processDirectory] logs nothing at all. *)
Lemma second_run_logs_no_conflict :
  processDirectory 3 ["src"] ["dst"] 3 ex_world = Some (None, ex_after_first) ∧
  text <$> out ex_after_first = [MMoved ["src"; "sub"; "a.bin"] ["dst"; "a.bin"]] ∧
  fs ex_after_first !! ["dst"; "a.bin"] = Some (File "abcd" 1000) ∧
  (moveFile ["src"; "sub"; "a.bin"] ["dst"; "a.bin"] ex_after_first).1
    = Some (EWrap CtxOpenSource (EOs OpOpen ["src"; "sub"; "a.bin"] ENOENT)) ∧
  (moveFile ["src"; "sub"; "a.bin"] ["dst"; "a.bin"] ex_after_first).1
    ≠ Some (ETargetExists ["dst"; "a.bin"]) ∧
  ∃ w2, processDirectory 3 ["src"] ["dst"] 3 ex_after_first = Some (None, w2)
        ∧ out w2 = out ex_after_first ∧ fs w2 = fs ex_after_first.
Proof.
  split; [vm_compute; reflexivity|].
  split; [vm_compute; reflexivity|].
  split; [vm_compute; reflexivity|].
  split; [vm_compute; reflexivity|].
  split; [vm_compute; discriminate|].
  eexists. split; [vm_compute; reflexivity|].
  split; vm_compute; reflexivity.
Qed.

Lemma io_Copy_ok dst src m evs w d0 t0 data t :
  m !! dst = Some (File d0 t0) →
  lookup_node (upd m [] w) src = Some (File data t) →
  fault w OpRead src = None → fault w OpWrite dst = None →
  io_Copy {| h_path := dst |} {| h_path := src |} (upd m evs w)
  = (Ok (Z.of_nat (String.length data)),
     upd (<[dst := File (d0 +:+ data) (now w)]> m) (SysCopy dst src true :: evs) w).
Proof.
  intros Hd Hs Hr Hw. unfold io_Copy. cbn [h_path].
  assert (lookup_node (upd m evs w) src = Some (File data t)) as ->
    by (by destruct src).
  cbn [fault upd]. rewrite Hr, Hw. unfold append_at. cbn [fs upd]. by rewrite Hd.
Qed.

(** Without faults the legacy [moveFile] overwrites an existing file. *)
Lemma legacy_overwrites src dst data t data' t' w :
  lookup_node w src = Some (File data t) →
  lookup_node w dst = Some (File data' t') →
  (∀ op p, fault w op p = None) →
  Legacy.moveFile src dst w
  = (None,
     upd (delete src
            (<[dst := File (if decide (src = dst) then "" else data) (now w)]> (fs w)))
       [Sys OpRemove src true; SysClose dst; SysClose src; SysCopy dst src true;
        Sys OpCreate dst true; Sys OpOpen src true] w).
Proof.
  intros Hs Hd Hf. unfold Legacy.moveFile.
  rewrite os_Open_present by (split; eauto).
  unfold os_Create. rewrite sys_upd, Hf, lookup_node_upd_same, Hd.
  change (emit (Sys OpCreate dst true) _)
    with (upd (<[dst := File "" (now w)]> (fs w))
            [Sys OpCreate dst true; Sys OpOpen src true] w).
  apply lookup_node_file in Hs as [Hs Hsne].
  apply lookup_node_file in Hd as [Hd Hdne].
  rewrite (io_Copy_ok dst src _ _ w "" (now w)
             (if decide (src = dst) then "" else data)
             (if decide (src = dst) then now w else t)).
  2: by rewrite lookup_insert_eq.
  2:{ destruct src; [done|]. cbn [lookup_node fs upd].
      case_decide as E; [rewrite E; by rewrite lookup_insert_eq|].
      by rewrite lookup_insert_ne. }
  2,3: by apply Hf.
  rewrite !f_Close_upd. cbn [h_path]. rewrite insert_insert_eq.
  rewrite os_Remove_file
    with (data := if decide (src = dst) then "" else data)
         (t := if decide (src = dst) then now w else t).
  - by rewrite Hf.
  - destruct src; [done|]. cbn [lookup_node fs upd].
    case_decide as E; [rewrite E; by rewrite lookup_insert_eq|].
    by rewrite lookup_insert_ne.
Qed.

(** C10, amended: the two versions of [moveFile] differ whenever the
    destination file exists, the source is a regular file and no I/O fault
    occurs: the one of main.go returns the conflict error and leaves the file
    system as it was, the legacy one makes no existence check, truncates and
    overwrites the destination and then deletes the source. *)
Theorem moveFile_differs_from_legacy (src dst : Path) (data data' : string)
    (t t' : Z) (w : World) :
  lookup_node w src = Some (File data t) →
  lookup_node w dst = Some (File data' t') →
  (∀ op p, fault w op p = None) →
  moveFile src dst w
    = (Some (ETargetExists dst),
       upd (fs w) [SysClose src; Sys OpStat dst true; Sys OpOpen src true] w) ∧
  (∃ w' ev, Legacy.moveFile src dst w = (None, w') ∧
     trace w' = ev ++ trace w ∧
     (∀ ok, Sys OpStat dst ok ∉ ev) ∧
     ev = [Sys OpRemove src true; SysClose dst; SysClose src; SysCopy dst src true;
           Sys OpCreate dst true; Sys OpOpen src true] ∧
     fs w' !! src = None ∧
     (src ≠ dst → fs w' !! dst = Some (File data (now w)))) ∧
  moveFile src dst w ≠ Legacy.moveFile src dst w.
Proof.
  intros Hs Hd Hf.
  assert (moveFile src dst w
    = (Some (ETargetExists dst),
       upd (fs w) [SysClose src; Sys OpStat dst true; Sys OpOpen src true] w)) as Hnew.
  { unfold moveFile. rewrite os_Open_present by (split; eauto).
    unfold os_Stat. rewrite sys_upd, Hf. unfold stat_act.
    by rewrite lookup_node_upd_same, Hd. }
  pose proof (legacy_overwrites src dst data t data' t' w Hs Hd Hf) as Hold.
  split; [exact Hnew|]. split.
  - eexists _, _. split; [exact Hold|]. split; [reflexivity|].
    split; [set_unfold; naive_solver|]. split; [reflexivity|].
    cbn [fs upd]. split; [by rewrite lookup_delete_eq|].
    intros Hne. rewrite lookup_delete_ne, decide_False by done.
    by rewrite lookup_insert_eq.
  - rewrite Hnew, Hold. discriminate.
Qed.

Lemma C10_witness :
  lookup_node ex_conflict_world ex_src = Some (File "abcd" 5) ∧
  lookup_node ex_conflict_world ex_dst = Some (File "old" 1) ∧
  (∀ op p, fault ex_conflict_world op p = None) ∧
  (moveFile ex_src ex_dst ex_conflict_world).1 = Some (ETargetExists ex_dst) ∧
  fs (moveFile ex_src ex_dst ex_conflict_world).2 = fs ex_conflict_world ∧
  (Legacy.moveFile ex_src ex_dst ex_conflict_world).1 = None ∧
  fs (Legacy.moveFile ex_src ex_dst ex_conflict_world).2 !! ex_dst
    = Some (File "abcd" 1000) ∧
  fs (Legacy.moveFile ex_src ex_dst ex_conflict_world).2 !! ex_src = None ∧
  moveFile ex_src ex_dst ex_conflict_world
    ≠ Legacy.moveFile ex_src ex_dst ex_conflict_world.
Proof.
  assert (lookup_node ex_conflict_world ex_src = Some (File "abcd" 5)) as Hs
    by (vm_compute; reflexivity).
  assert (lookup_node ex_conflict_world ex_dst = Some (File "old" 1)) as Hd
    by (vm_compute; reflexivity).
  assert (∀ op p, fault ex_conflict_world op p = None) as Hf by reflexivity.
  destruct (moveFile_differs_from_legacy ex_src ex_dst _ _ _ _ ex_conflict_world
              Hs Hd Hf)
    as (Hnew & (w' & ev & Hold & _ & _ & _ & Hgone & Hover) & Hdiff).
  rewrite Hnew, Hold. cbn [fst snd fs upd].
  split; [exact Hs|]. split; [exact Hd|]. split; [exact Hf|].
  split; [reflexivity|]. split; [reflexivity|]. split; [reflexivity|].
  split; [apply Hover; discriminate|]. split; [exact Hgone|].
  rewrite <- Hnew, <- Hold. exact Hdiff.
Defined.

(** C10 fails as stated: with the destination present and the source
    absent, or present but not openable, both versions return the same open
    error and change nothing, so main.go's [moveFile] does not return the
    conflict error and the legacy one neither overwrites the destination nor
    deletes the source. *)
Lemma legacy_agrees_without_source :
  fs ex_no_source_world !! ["dst"; "a.bin"] = Some (File "old" 1) ∧
  moveFile ["src"; "a.bin"] ["dst"; "a.bin"] ex_no_source_world
    = Legacy.moveFile ["src"; "a.bin"] ["dst"; "a.bin"] ex_no_source_world ∧
  (moveFile ["src"; "a.bin"] ["dst"; "a.bin"] ex_no_source_world).1
    = Some (EWrap CtxOpenSource (EOs OpOpen ["src"; "a.bin"] ENOENT)) ∧
  (moveFile ["src"; "a.bin"] ["dst"; "a.bin"] ex_no_source_world).1
    ≠ Some (ETargetExists ["dst"; "a.bin"]) ∧
  fs (Legacy.moveFile ["src"; "a.bin"] ["dst"; "a.bin"] ex_no_source_world).2
    = fs ex_no_source_world ∧
  fs ex_locked_world !! ex_src = Some (File "abcd" 5) ∧
  fs ex_locked_world !! ex_dst = Some (File "old" 1) ∧
  moveFile ex_src ex_dst ex_locked_world = Legacy.moveFile ex_src ex_dst ex_locked_world ∧
  (moveFile ex_src ex_dst ex_locked_world).1
    = Some (EWrap CtxOpenSource (EOs OpOpen ex_src EACCES)) ∧
  fs (Legacy.moveFile ex_src ex_dst ex_locked_world).2 = fs ex_locked_world.
Proof.
  split; [vm_compute; reflexivity|].
  split; [vm_compute; reflexivity|].
  split; [vm_compute; reflexivity|].
  split; [vm_compute; discriminate|].
  split; [vm_compute; reflexivity|].
  split; [vm_compute; reflexivity|].
  split; [vm_compute; reflexivity|].
  split; [vm_compute; reflexivity|].
  split; vm_compute; reflexivity.
Qed.

(** ** The walk *)

Lemma fresh_info_emit e w p info : fresh_info w p info → fresh_info (emit e w) p info.
Proof. intros (n & Hn & ->). exists n. by rewrite lookup_node_emit. Qed.

Lemma os_Lstat_inv p w r w1 :
  os_Lstat p w = (r, w1) →
  (∃ e, r = Err e ∧ w1 = emit (Sys OpLstat p false) w)
  ∨ (∃ info, r = Ok info ∧ w1 = emit (Sys OpLstat p true) w ∧ fresh_info w p info).
Proof.
  unfold os_Lstat, sys, stat_act.
  destruct (fault w OpLstat p); [intros; simplify_eq; eauto|].
  destruct (lookup_node w p) as [n|] eqn:Hn; intros; simplify_eq; [|eauto].
  right. eexists. split; [done|]. split; [done|]. by exists n.
Qed.

Lemma readDirNames_inv p w r w1 :
  readDirNames p w = (r, w1) → ∃ ok, w1 = emit (Sys OpReadDir p ok) w.
Proof.
  unfold readDirNames, os_ReadDir, sys.
  destruct (fault w OpReadDir p); [intros; simplify_eq; eauto|].
  destruct (lookup_node w p) as [[]|]; intros; simplify_eq; eauto.
Qed.

Section walk_spec.
Context (walkFn : WalkFunc) (R : World → World → Prop) (N : nat).
Context (R_refl : ∀ w, R w w).
Context (R_trans : ∀ w1 w2 w3, R w1 w2 → R w2 w3 → R w1 w3).
Context (R_emit : ∀ e w, R w (emit e w)).
Context (R_depth : ∀ w w', R w w' → depth_below N w → depth_below N w').
Context (R_entry : ∀ p info w w',
           fresh_info w p info → walkFn p (Entry info) w = (None, w') → R w w').
Context (R_failure : ∀ p e w w', walkFn p (Failure e) w = (None, w') → R w w').

Local Abbreviation walk_post := (walk_post walkFn R).

Lemma walk_post_step w w1 res : R w w1 → walk_post w1 res → walk_post w res.
Proof.
  intros Hw [HR Herr]. split; [eauto|].
  intros e He. destruct (Herr e He) as (p & v & w0 & ? & ? & ?).
  exists p, v, w0. eauto.
Qed.

Lemma walk_post_call p v w :
  (∀ info, v = Entry info → fresh_info w p info) → walk_post w (walkFn p v w).
Proof.
  intros Hv. destruct (walkFn p v w) as [r w'] eqn:Hcall. split; cbn [fst snd].
  - intros ->. destruct v; [eapply R_entry; eauto | eapply R_failure; eauto].
  - intros e ->. exists p, v, w. eauto.
Qed.

Lemma walk_post_done w : walk_post w (None, w).
Proof. split; [intros _; apply R_refl | done]. Qed.

Lemma walk_names_spec rec path names w :
  depth_below N w →
  (∀ name fi w1, depth_below N w1 → fresh_info w1 (path ++ [name]) fi →
     ∃ res, rec (path ++ [name]) fi w1 = Some res ∧ walk_post w1 res) →
  ∃ res, walk_names rec walkFn path names w = Some res ∧ walk_post w res.
Proof.
  intros Hd Hrec. revert w Hd.
  induction names as [|name rest IH]; intros w Hd; simpl.
  { eexists. split; [done|]. apply walk_post_done. }
  destruct (os_Lstat (path ++ [name]) w) as [r w1] eqn:Hl.
  apply os_Lstat_inv in Hl as [(e & -> & ->)|(fi & -> & -> & Hfi)].
  - pose proof (walk_post_call (path ++ [name]) (Failure e)
                  (emit (Sys OpLstat (path ++ [name]) false) w)) as Hc.
    destruct (walkFn _ _ _) as [[e'|] w2] eqn:Hcall.
    + eexists. split; [done|]. eapply walk_post_step; [apply R_emit|].
      apply Hc. done.
    + destruct Hc as [HR _]; [done|]. specialize (HR eq_refl). simpl in HR.
      destruct (IH w2) as (res & -> & Hres).
      { eapply R_depth; [|done]. eapply R_trans; [apply R_emit|done]. }
      eexists. split; [done|]. eapply walk_post_step; [|done].
      eapply R_trans; [apply R_emit|done].
  - destruct (Hrec name fi (emit (Sys OpLstat (path ++ [name]) true) w))
      as ([[e'|] w2] & -> & Hres).
    { eapply R_depth; [apply R_emit|done]. }
    { by apply fresh_info_emit. }
    + eexists. split; [done|]. eapply walk_post_step; [apply R_emit|done].
    + destruct (Hres) as [HR _]. specialize (HR eq_refl). simpl in HR.
      destruct (IH w2) as (res & -> & Hres2).
      { eapply R_depth; [|done]. eapply R_trans; [apply R_emit|done]. }
      eexists. split; [done|]. eapply walk_post_step; [|done].
      eapply R_trans; [apply R_emit|done].
Qed.

Lemma walk_spec k path info w :
  0 < k → N < List.length path + k →
  depth_below N w → fresh_info w path info →
  ∃ res, walk k walkFn path info w = Some res ∧ walk_post w res.
Proof.
  revert path info w. induction k as [|k IH]; intros path info w Hk HN Hd Hfi; [lia|].
  simpl. destruct (fi_isdir info) eqn:Hdir; simpl.
  2:{ eexists. split; [done|]. apply walk_post_call. by intros ? [= <-]. }
  destruct (readDirNames path w) as [rd w1] eqn:Hrd.
  apply readDirNames_inv in Hrd as Hw1. destruct Hw1 as [ok ->].
  assert (lookup_node w path = Some Dir) as Hpath.
  { destruct Hfi as (n & Hn & ->). by destruct n. }
  apply Hd in Hpath as Hlen.
  destruct rd as [names|e].
  2:{ eexists. split; [done|]. eapply walk_post_step; [apply R_emit|].
      apply walk_post_call. done. }
  pose proof (walk_post_call path (Entry info) (emit (Sys OpReadDir path ok) w)) as Hc.
  destruct (walkFn path (Entry info) _) as [[e1|] w2] eqn:Hcall.
  { eexists. split; [done|]. eapply walk_post_step; [apply R_emit|].
    apply Hc. intros ? [= <-]. by apply fresh_info_emit. }
  destruct Hc as [HR _]. { intros ? [= <-]. by apply fresh_info_emit. }
  specialize (HR eq_refl). simpl in HR.
  assert (R w w2) as HRw by (eapply R_trans; [apply R_emit|done]).
  destruct (walk_names_spec (walk k walkFn) path names w2) as (res & -> & Hres).
  { by eapply R_depth. }
  { intros name fi w3 Hd3 Hfi3. apply IH; [lia| |done|done].
    rewrite length_app. simpl. lia. }
  eexists. split; [done|]. by eapply walk_post_step.
Qed.

Lemma Walk_spec fuel root w :
  N < fuel → depth_below N w →
  ∃ res, Walk fuel root walkFn w = Some res ∧ walk_post w res.
Proof.
  intros Hfuel Hd. unfold Walk.
  destruct (os_Lstat root w) as [r w1] eqn:Hl.
  apply os_Lstat_inv in Hl as [(e & -> & ->)|(fi & -> & -> & Hfi)].
  - eexists. split; [done|]. eapply walk_post_step; [apply R_emit|].
    apply walk_post_call. done.
  - destruct (walk_spec fuel root fi (emit (Sys OpLstat root true) w))
      as (res & -> & Hres); [lia|lia| | |].
    + eapply R_depth; [apply R_emit|done].
    + by apply fresh_info_emit.
    + eexists. split; [done|]. eapply walk_post_step; [apply R_emit|done].
Qed.
End walk_spec.

(** ** The callback of [processDirectory] *)

Lemma run_rel_refl t m w : run_rel t m w w.
Proof.
  split; [done|done|done|done|done| |].
  - intros p Hn [x Hx]. congruence.
  - exists []. split; [done|]. constructor.
Qed.

Lemma transfer_line_mono t m w w' l :
  (∀ p d t0, fs w !! p = Some (File d t0) →
     (Z.of_nat (String.length d) < m)%Z → fs w' !! p = Some (File d t0)) →
  transfer_line t m w' l → transfer_line t m w l.
Proof.
  intros Hsmall (src & Htext & Hbig). exists src. split; [done|].
  intros d t0 Hsrc.
  destruct (decide (Z.of_nat (String.length d) < m)%Z) as [Hlt|]; [|lia].
  specialize (Hsmall _ _ _ Hsrc Hlt). eauto.
Qed.

Lemma run_rel_trans t m w1 w2 w3 :
  run_rel t m w1 w2 → run_rel t m w2 w3 → run_rel t m w1 w3.
Proof.
  intros [Hf1 Hn1 Hp1 Hd1 Hs1 Hnew1 (new1 & Ho1 & Hl1)]
         [Hf2 Hn2 Hp2 Hd2 Hs2 Hnew2 (new2 & Ho2 & Hl2)].
  split; try congruence.
  - intros p. by rewrite Hd2, Hd1.
  - eauto.
  - intros p Hnone Hsome.
    destruct (fs w2 !! p) eqn:E; [apply Hnew1; eauto | apply Hnew2; eauto].
  - exists (new2 ++ new1). split; [by rewrite Ho2, Ho1, app_assoc|].
    apply Forall_app. split; [|done].
    eapply Forall_impl; [done|]. intros l. by apply transfer_line_mono.
Qed.

Lemma run_rel_emit t m e w : run_rel t m w (emit e w).
Proof.
  split; [done|done|done| | | |].
  - intros p. by rewrite lookup_node_emit.
  - done.
  - intros p Hn [x Hx]. simpl in Hx. congruence.
  - exists []. split; [done|]. constructor.
Qed.

Lemma run_rel_depth t m n w w' : run_rel t m w w' → depth_below n w → depth_below n w'.
Proof. intros [_ _ _ Hd _ _ _] Hdepth p Hp. apply Hdepth. by apply Hd. Qed.

(** A step that writes one transfer line and changes the files as a
    transfer into [t] may. *)
Lemma run_rel_step t m w fs' evs msg :
  (∀ p, fs' !! p = Some Dir ↔ fs w !! p = Some Dir) →
  (∀ p d t0, fs w !! p = Some (File d t0) →
     (Z.of_nat (String.length d) < m)%Z → fs' !! p = Some (File d t0)) →
  (∀ p, fs w !! p = None → is_Some (fs' !! p) → ∃ name, p = t ++ [name]) →
  transfer_line t m w {| stamp := now w; text := msg |} →
  run_rel t m w (log msg (upd fs' evs w)).
Proof.
  intros Hd Hs Hn Hl. split; [done|done|done| |done|done|].
  - intros [|a p]; [done|]. apply Hd.
  - eexists [_]. split; [done|]. by constructor.
Qed.

Lemma visit_failure t m p e w : visit t m p (Failure e) w = (Some e, w).
Proof. done. Qed.

Lemma visit_run_rel t m p info w :
  fresh_info w p info → run_rel t m w (visit t m p (Entry info) w).2.
Proof.
  intros (n & Hn & ->). unfold visit.
  destruct n as [data t0|]; [|apply run_rel_refl]. cbn [info_of fi_isdir fi_size fi_name negb andb].
  destruct (m <=? Z.of_nat (String.length data))%Z eqn:Hsize; [|apply run_rel_refl].
  apply Z.leb_le in Hsize.
  apply lookup_node_file in Hn as Hfs. destruct Hfs as [Hfs Hpne].
  assert (∀ msg, (msg = MMoved p (t ++ [base p])
                  ∨ ∃ e, msg = MMoveError p (t ++ [base p]) e) →
            transfer_line t m w {| stamp := now w; text := msg |}) as Hline.
  { intros msg Hmsg. exists p. split; [done|]. intros d t1 Hd. by simplify_eq. }
  destruct (moveFile p (t ++ [base p]) w) as [r w1] eqn:Hmove.
  apply moveFile_outcome in Hmove.
  inversion Hmove as [ | | | | e chunk Hopen _ Hcreate _
                      | d1 t1 f _ _ Hcreate Hsrc | d1 t1 _ _ Hcreate Hsrc ];
    subst; clear Hmove; cbn [snd].
  1-4: apply run_rel_step;
    [done | eauto | intros q Hq [x Hx]; congruence | apply Hline; eauto].
  - destruct Hcreate as (_ & Hnone & _).
    assert (fs w !! (t ++ [base p]) = None) as Hdst by (by destruct (t ++ [base p])).
    apply run_rel_step; [ | | |apply Hline; eauto].
    + intros q. destruct (decide (q = t ++ [base p])) as [->|].
      * rewrite lookup_insert_eq, Hdst. naive_solver.
      * by rewrite lookup_insert_ne.
    + intros q d t2 Hq Hlt. rewrite lookup_insert_ne; [done|]. congruence.
    + intros q Hq [x Hx]. destruct (decide (q = t ++ [base p])) as [->|]; [eauto|].
      rewrite lookup_insert_ne in Hx by done. congruence.
  - destruct Hcreate as (_ & Hnone & _).
    assert (fs w !! (t ++ [base p]) = None) as Hdst by (by destruct (t ++ [base p])).
    apply run_rel_step; [ | | |apply Hline; eauto].
    + intros q. destruct (decide (q = t ++ [base p])) as [->|].
      * rewrite lookup_insert_eq, Hdst. naive_solver.
      * by rewrite lookup_insert_ne.
    + intros q d t2 Hq Hlt. rewrite lookup_insert_ne; [done|]. congruence.
    + intros q Hq [x Hx]. destruct (decide (q = t ++ [base p])) as [->|]; [eauto|].
      rewrite lookup_insert_ne in Hx by done. congruence.
  - destruct Hcreate as (_ & Hnone & _).
    assert (fs w !! (t ++ [base p]) = None) as Hdst by (by destruct (t ++ [base p])).
    apply run_rel_step; [ | | |apply Hline; eauto].
    + intros q. destruct (decide (q = p)) as [->|].
      * rewrite lookup_delete_eq, Hfs. naive_solver.
      * rewrite lookup_delete_ne by done.
        destruct (decide (q = t ++ [base p])) as [->|].
        -- rewrite lookup_insert_eq, Hdst. naive_solver.
        -- by rewrite lookup_insert_ne.
    + intros q d t2 Hq Hlt.
      assert (q ≠ p) by (intros ->; simplify_eq; lia).
      rewrite lookup_delete_ne, lookup_insert_ne; [done|congruence|done].
    + intros q Hq [x Hx]. destruct (decide (q = t ++ [base p])) as [->|]; [eauto|].
      destruct (decide (q = p)) as [->|]; [by rewrite lookup_delete_eq in Hx|].
      rewrite lookup_delete_ne, lookup_insert_ne in Hx by done. congruence.
Qed.

(** ** Whole runs of [processDirectory] *)

Lemma depth_bound_ok w : depth_below (depth_bound w) w.
Proof.
  unfold depth_bound.
  intros [|a p] Hp; [simpl; lia|]. simpl in Hp.
  apply Nat.lt_succ_r, max_list_elem_of_le.
  apply list_elem_of_fmap. exists (a :: p). split; [done|].
  apply list_elem_of_fmap. exists (a :: p, Dir). split; [done|].
  by apply elem_of_map_to_list.
Qed.

Lemma visit_none_run_rel t m p info w w' :
  fresh_info w p info → visit t m p (Entry info) w = (None, w') → run_rel t m w w'.
Proof.
  intros Hfi Hv. pose proof (visit_run_rel t m p info w Hfi) as H. by rewrite Hv in H.
Qed.

Lemma visit_failure_none t m p e w w' :
  visit t m p (Failure e) w = (None, w') → run_rel t m w w'.
Proof. by rewrite visit_failure. Qed.

Lemma processDirectory_spec s t m N w fuel :
  depth_below N w → N < fuel →
  ∃ r w', processDirectory fuel s t m w = Some (r, w') ∧ run_rel t m w w'.
Proof.
  intros Hd Hfuel. unfold processDirectory.
  destruct (Walk_spec (visit t m) (run_rel t m) N
              (run_rel_refl t m) (run_rel_trans t m) (λ e w, run_rel_emit t m e w)
              (run_rel_depth t m N) (visit_none_run_rel t m) (visit_failure_none t m)
              fuel s w Hfuel Hd)
    as ([r w'] & Hrun & Hnone & Herr).
  exists r, w'. split; [done|]. cbn [fst snd] in *.
  destruct r as [e|]; [|by apply Hnone].
  destruct (Herr e eq_refl) as (p & v & w0 & Hrel & Hv & Hfi).
  eapply run_rel_trans; [done|]. destruct v as [info|e'].
  - pose proof (visit_run_rel t m p info w0 (Hfi _ eq_refl)) as H.
    by rewrite Hv in H.
  - rewrite visit_failure in Hv. simplify_eq. apply run_rel_refl.
Qed.

Lemma transfer_line_inv t m w l src dst :
  transfer_line t m w l → line_transfer l = Some (src, dst) →
  dst = t ++ [base src]
  ∧ ∀ d t0, fs w !! src = Some (File d t0) → (m ≤ Z.of_nat (String.length d))%Z.
Proof.
  intros (src' & [Ht|[e Ht]] & Hbig); unfold line_transfer; rewrite Ht;
    intros; by simplify_eq.
Qed.

(** What one visit of a qualifying entry does: the transfer is attempted
    and exactly one line about it is written. *)
Lemma visit_qualifying t m p info w :
  qualifies m info = true →
  ∃ r w1 msg ev ok,
    moveFile p (t ++ [fi_name info]) w = (r, w1) ∧
    visit t m p (Entry info) w = (r, log msg w1) ∧
    trace w1 = ev ++ [Sys OpOpen p ok] ++ trace w ∧
    match r with
    | None => msg = MMoved p (t ++ [fi_name info])
    | Some e => msg = MMoveError p (t ++ [fi_name info]) e
    end.
Proof.
  intros Hq. unfold visit. fold (qualifies m info). rewrite Hq.
  destruct (moveFile p (t ++ [fi_name info]) w) as [r w1] eqn:Hmove.
  assert (∃ ev ok, trace w1 = ev ++ [Sys OpOpen p ok] ++ trace w) as (ev & ok & Hev).
  { apply moveFile_outcome in Hmove. inversion Hmove; subst; cbn [trace upd].
    1: by exists [], false.
    1,2: by eexists [_; _], true.
    1: by eexists [_; _; _], true.
    1: by eexists [_; _; _; _; _], true.
    1,2: by eexists [_; _; _; _; _; _], true. }
  exists r, w1. destruct r as [e|]; eexists _, ev, ok; done.
Qed.

Lemma base_app (dir rel : Path) : rel ≠ [] → base (dir ++ rel) = base rel.
Proof.
  intros Hrel. unfold base. f_equal.
  destruct rel as [|a rel] using rev_ind; [done|].
  by rewrite app_assoc, !last_snoc.
Qed.

Lemma moveFile_success src dst w w1 :
  moveFile src dst w = (None, w1) →
  ∃ d t, fs w !! src = Some (File d t) ∧ src ≠ dst ∧ fs w !! dst = None
         ∧ fs w1 = delete src (<[dst := File d (now w)]> (fs w)).
Proof.
  intros H. apply moveFile_outcome in H.
  inversion H as [ | | | | | | d t _ _ Hcreate Hsrc ]; subst; clear H.
  exists d, t. apply lookup_node_file in Hsrc as Hfs. destruct Hfs as [Hfs _].
  split; [done|]. split; [eapply can_create_ne; eauto|].
  split; [|done]. destruct Hcreate as (_ & Hd & _). by destruct dst.
Qed.

(** C4: the destination of every transfer is the target directory joined
    with the base name of the file, however deep the file lies under the
    source directory.  Over a whole run every transfer line names such a
    destination, every node that appears lies directly in the target
    directory, and no directory is created or removed anywhere. *)
Theorem destination_is_target_joined_with_base (sourceDir targetDir : Path)
    (minFileSize : Z) (w : World) :
  (∀ rel info w0,
     rel ≠ [] →
     fresh_info w0 (sourceDir ++ rel) info →
     qualifies minFileSize info = true →
     ∃ r w1 msg,
       moveFile (sourceDir ++ rel) (targetDir ++ [base rel]) w0 = (r, w1) ∧
       visit targetDir minFileSize (sourceDir ++ rel) (Entry info) w0
         = (r, log msg w1) ∧
       line_transfer {| stamp := now w0; text := msg |}
         = Some (sourceDir ++ rel, targetDir ++ [base rel]) ∧
       List.length (targetDir ++ [base rel]) = S (List.length targetDir) ∧
       (r = None →
          ∃ d t, fs w0 !! (sourceDir ++ rel) = Some (File d t) ∧
            fs w1 !! (targetDir ++ [base rel]) = Some (File d (now w0)) ∧
            fs w1 !! (sourceDir ++ rel) = None)) ∧
  (∀ fuel, depth_bound w < fuel →
     ∃ r w',
       processDirectory fuel sourceDir targetDir minFileSize w = Some (r, w') ∧
       (∃ new, out w' = new ++ out w ∧
          ∀ l src dst, l ∈ new → line_transfer l = Some (src, dst) →
            dst = targetDir ++ [base src]) ∧
       (∀ p, fs w !! p = None → is_Some (fs w' !! p) →
          ∃ name, p = targetDir ++ [name]) ∧
       (∀ p, lookup_node w' p = Some Dir ↔ lookup_node w p = Some Dir)).
Proof.
  split.
  - intros rel info w0 Hrel Hfresh Hq.
    destruct (visit_qualifying targetDir minFileSize (sourceDir ++ rel) info w0 Hq)
      as (r & w1 & msg & _ & _ & Hmove & Hvisit & _ & Hmsg).
    assert (fi_name info = base rel) as Hname.
    { destruct Hfresh as (n & _ & ->). rewrite <- (base_app sourceDir rel Hrel).
      by destruct n. }
    rewrite Hname in *.
    exists r, w1, msg. split; [done|]. split; [done|]. split; [|split].
    + unfold line_transfer. cbn [text]. by destruct r; subst msg.
    + rewrite length_app. simpl. lia.
    + intros ->. apply moveFile_success in Hmove as (d & t & Hs & Hne & _ & ->).
      exists d, t. split; [done|].
      by rewrite lookup_delete_ne, lookup_insert_eq, lookup_delete_eq.
  - intros fuel Hfuel.
    destruct (processDirectory_spec sourceDir targetDir minFileSize _ w fuel
                (depth_bound_ok w) Hfuel) as (r & w' & Hrun & Hrel).
    exists r, w'. split; [done|].
    destruct Hrel as [_ _ _ Hdirs _ Hnew (new & Hout & Hlines)].
    split; [|done]. exists new. split; [done|].
    intros l src dst Hl Ht. rewrite Forall_forall in Hlines.
    by destruct (transfer_line_inv _ _ _ _ _ _ (Hlines l Hl) Ht) as [-> _].
Qed.

Lemma C4_witness :
  ["sub"; "a.bin"] ≠ [] ∧
  fresh_info ex_world (["src"] ++ ["sub"; "a.bin"]) (info_of ex_src (File "abcd" 5)) ∧
  qualifies 3 (info_of ex_src (File "abcd" 5)) = true ∧
  ∃ r w1 msg,
    moveFile (["src"] ++ ["sub"; "a.bin"]) (["dst"] ++ [base ["sub"; "a.bin"]]) ex_world
      = (r, w1) ∧
    visit ["dst"] 3 (["src"] ++ ["sub"; "a.bin"])
      (Entry (info_of ex_src (File "abcd" 5))) ex_world = (r, log msg w1) ∧
    line_transfer {| stamp := now ex_world; text := msg |}
      = Some (["src"; "sub"; "a.bin"], ["dst"; "a.bin"]).
Proof.
  assert (["sub"; "a.bin"] ≠ ([] : Path)) as Hrel by discriminate.
  assert (fresh_info ex_world (["src"] ++ ["sub"; "a.bin"])
            (info_of ex_src (File "abcd" 5))) as Hfresh.
  { exists (File "abcd" 5). split; [vm_compute; reflexivity | reflexivity]. }
  assert (qualifies 3 (info_of ex_src (File "abcd" 5)) = true) as Hq by reflexivity.
  split; [exact Hrel|]. split; [exact Hfresh|]. split; [exact Hq|].
  destruct (proj1 (destination_is_target_joined_with_base ["src"] ["dst"] 3 ex_world)
              ["sub"; "a.bin"] _ ex_world Hrel Hfresh Hq)
    as (r & w1 & msg & Hmove & Hvisit & Hline & _).
  exists r, w1, msg. split; [exact Hmove|]. split; [exact Hvisit|]. exact Hline.
Defined.

(** ** Runs without a failed transfer, and the loop of [main] *)

Lemma clean_rel_refl t m w : clean_rel t m w w.
Proof. split; [apply run_rel_refl|]. exists []. split; [done|]. constructor. Qed.

Lemma clean_rel_trans t m w1 w2 w3 :
  clean_rel t m w1 w2 → clean_rel t m w2 w3 → clean_rel t m w1 w3.
Proof.
  intros [H1 (n1 & Ho1 & Hl1)] [H2 (n2 & Ho2 & Hl2)].
  split; [by eapply run_rel_trans|].
  exists (n2 ++ n1). split; [by rewrite Ho2, Ho1, app_assoc|].
  by apply Forall_app.
Qed.

Lemma clean_rel_emit t m e w : clean_rel t m w (emit e w).
Proof. split; [apply run_rel_emit|]. exists []. split; [done|]. constructor. Qed.

Lemma clean_rel_depth t m n w w' :
  clean_rel t m w w' → depth_below n w → depth_below n w'.
Proof. intros [H _]. by eapply run_rel_depth. Qed.

(** How the callback comes to return an error or none. *)
Lemma visit_inv t m p info w r w' :
  visit t m p (Entry info) w = (r, w') →
  (qualifies m info = false ∧ r = None ∧ w' = w)
  ∨ (qualifies m info = true ∧
     ∃ w1, moveFile p (t ++ [fi_name info]) w = (r, w1) ∧
       w' = log (match r with
                 | None => MMoved p (t ++ [fi_name info])
                 | Some e => MMoveError p (t ++ [fi_name info]) e
                 end) w1).
Proof.
  unfold visit. fold (qualifies m info).
  destruct (qualifies m info); [|intros; simplify_eq; by left].
  destruct (moveFile p (t ++ [fi_name info]) w) as [[e|] w1];
    intros; simplify_eq; right; eauto.
Qed.

Lemma visit_none_clean t m p info w w' :
  fresh_info w p info → visit t m p (Entry info) w = (None, w') → clean_rel t m w w'.
Proof.
  intros Hfi Hv. split; [by eapply visit_none_run_rel|].
  apply visit_inv in Hv as [(_ & _ & ->)|(_ & w1 & Hmove & ->)].
  - exists []. split; [done|]. constructor.
  - apply moveFile_outcome in Hmove. inversion Hmove; subst.
    eexists [_]. split; [done|]. constructor; [|constructor]. simpl. eauto.
Qed.

Lemma visit_failure_clean t m p e w w' :
  visit t m p (Failure e) w = (None, w') → clean_rel t m w w'.
Proof. by rewrite visit_failure. Qed.

Lemma fresh_info_name w p info : fresh_info w p info → fi_name info = base p.
Proof. intros (n & _ & ->). by destruct n. Qed.

Lemma depth_below_log n msg w : depth_below n w → depth_below n (log msg w).
Proof. intros H p Hp. apply H. by destruct p. Qed.

Lemma announced_app a b : announced (a ++ b) = announced a ++ announced b.
Proof. apply omap_app. Qed.

Lemma announced_transfer_lines t m w new :
  Forall (transfer_line t m w) new → announced new = [].
Proof.
  induction 1 as [|l new (src & [Ht|[e Ht]] & _) _ IH]; [done|..];
    unfold announced in *; simpl; by rewrite Ht.
Qed.

(** The loop of [main] over the configured pairs never stops early. *)
Lemma pairs_spec config N fuel srcs :
  N < fuel →
  ∀ i w, depth_below N w →
    (i + List.length srcs ≤ List.length (TargetDirs config))%nat →
    ∃ w', pairs fuel config i srcs w = Some (Returned, w')
          ∧ depth_below N w'
          ∧ ∃ new, out w' = new ++ out w ∧ announced new = rev srcs.
Proof.
  intros Hfuel. induction srcs as [|s rest IH]; intros i w Hd Hlen; simpl in *.
  { exists w. split; [done|]. split; [done|]. by exists []. }
  destruct (TargetDirs config !! i) as [t|] eqn:Ht.
  2:{ apply lookup_ge_None in Ht. lia. }
  destruct (processDirectory_spec (path_of s) (path_of t) (MinFileSize config) N
              (log (MProcessing s) w) fuel) as (r & w2 & -> & Hrel);
    [by apply depth_below_log | done |].
  pose proof (run_rel_depth _ _ _ _ _ Hrel (depth_below_log _ _ _ Hd)) as Hd2.
  destruct Hrel as [_ _ _ _ _ _ (new2 & Hout2 & Hlines)].
  apply announced_transfer_lines in Hlines.
  destruct r as [e|].
  - destruct (IH (S i) (log (MDirError s e) w2)) as (w' & -> & Hd' & new & Hout & Hann);
      [by apply depth_below_log | lia |].
    exists w'. split; [done|]. split; [done|].
    exists (new ++ [{| stamp := now w2; text := MDirError s e |}] ++ new2
              ++ [{| stamp := now w; text := MProcessing s |}]).
    split; [rewrite Hout; cbn [log out]; rewrite Hout2; cbn [log out];
            by rewrite <- !app_assoc|].
    rewrite !announced_app, Hann, Hlines. done.
  - destruct (IH (S i) w2) as (w' & -> & Hd' & new & Hout & Hann); [done | lia |].
    exists w'. split; [done|]. split; [done|].
    exists (new ++ new2 ++ [{| stamp := now w; text := MProcessing s |}]).
    split; [rewrite Hout, Hout2; cbn [log out]; by rewrite <- !app_assoc|].
    rewrite !announced_app, Hann, Hlines. done.
Qed.

Lemma processDirectory_clean_spec s t m N w fuel :
  depth_below N w → N < fuel →
  ∃ res, processDirectory fuel s t m w = Some res
         ∧ walk_post (visit t m) (clean_rel t m) w res.
Proof.
  intros Hd Hfuel. unfold processDirectory.
  exact (Walk_spec (visit t m) (clean_rel t m) N
           (clean_rel_refl t m) (clean_rel_trans t m) (λ e w, clean_rel_emit t m e w)
           (clean_rel_depth t m N) (visit_none_clean t m) (visit_failure_clean t m)
           fuel s w Hfuel Hd).
Qed.

(** C5: a failed transfer is logged with source path, destination path and
    error and its error goes back to the walk; the walk of that tree ends
    right there: a run that returns an error ends in the world of the failed
    call, every line before it reporting a successful move (the error is
    either that of a transfer, logged last, or one the walk itself met while
    reading an entry), and a run that returns no error logged no failure.
    The loop of [main] goes on: it announces and processes every configured
    source directory, and after a failed directory it logs the error and
    continues with the next pair. *)
Theorem transfer_failure_stops_walk_only (sourceDir targetDir : Path)
    (minFileSize : Z) (config : Config) (w : World) :
  (∀ path info w0 e w1,
     qualifies minFileSize info = true →
     moveFile path (targetDir ++ [fi_name info]) w0 = (Some e, w1) →
     visit targetDir minFileSize path (Entry info) w0
     = (Some e, log (MMoveError path (targetDir ++ [fi_name info]) e) w1)) ∧
  (∀ fuel, depth_bound w < fuel →
     ∃ r w',
       processDirectory fuel sourceDir targetDir minFileSize w = Some (r, w') ∧
       (r = None →
          ∃ new, out w' = new ++ out w
                 ∧ ∀ l, l ∈ new → ∃ src dst, text l = MMoved src dst) ∧
       (∀ e, r = Some e →
          ∃ w0 new, out w0 = new ++ out w
            ∧ (∀ l, l ∈ new → ∃ src dst, text l = MMoved src dst)
            ∧ ((∃ p, visit targetDir minFileSize p (Failure e) w0 = (Some e, w')
                     ∧ w' = w0)
               ∨ (∃ p info w1,
                    fresh_info w0 p info ∧ qualifies minFileSize info = true ∧
                    moveFile p (targetDir ++ [base p]) w0 = (Some e, w1) ∧
                    w' = log (MMoveError p (targetDir ++ [base p]) e) w1)))) ∧
  (∀ fuel i sourceDirs,
     depth_bound w < fuel →
     (i + List.length sourceDirs ≤ List.length (TargetDirs config))%nat →
     ∃ w', pairs fuel config i sourceDirs w = Some (Returned, w')
           ∧ ∃ new, out w' = new ++ out w ∧ announced new = rev sourceDirs) ∧
  (∀ fuel i s rest t e w0 w2,
     TargetDirs config !! i = Some t →
     processDirectory fuel (path_of s) (path_of t) (MinFileSize config)
       (log (MProcessing s) w0) = Some (Some e, w2) →
     pairs fuel config i (s :: rest) w0
     = pairs fuel config (S i) rest (log (MDirError s e) w2)).
Proof.
  split; [|split; [|split]].
  - intros path info w0 e w1 Hq Hmove. unfold visit.
    fold (qualifies minFileSize info). by rewrite Hq, Hmove.
  - intros fuel Hfuel.
    destruct (processDirectory_clean_spec sourceDir targetDir minFileSize _ w fuel
                (depth_bound_ok w) Hfuel) as ([r w'] & Hrun & Hnone & Herr).
    exists r, w'. split; [done|]. cbn [fst snd] in *. split.
    + intros ->. destruct (Hnone eq_refl) as [_ (new & Hout & Hl)].
      exists new. split; [done|]. by apply Forall_forall.
    + intros e ->. destruct (Herr e eq_refl) as (p & v & w0 & Hrel & Hv & Hfi).
      destruct Hrel as [_ (new & Hout & Hl)].
      exists w0, new. split; [done|]. split; [by apply Forall_forall|].
      destruct v as [info|e'].
      * right. specialize (Hfi info eq_refl).
        apply visit_inv in Hv as [(_ & ? & _)|(Hq & w1 & Hmove & ->)]; [done|].
        rewrite (fresh_info_name _ _ _ Hfi) in *. by exists p, info, w1.
      * left. rewrite visit_failure in Hv. simplify_eq. exists p.
        by rewrite visit_failure.
  - intros fuel i sourceDirs Hfuel Hlen.
    destruct (pairs_spec config (depth_bound w) fuel sourceDirs Hfuel i w
                (depth_bound_ok w) Hlen) as (w' & Hp & _ & Hnew).
    by exists w'.
  - intros fuel i s rest t e w0 w2 Ht Hrun. simpl. by rewrite Ht, Hrun.
Qed.

Lemma C5_witness :
  depth_bound ex_fail_world < 5 ∧
  (∃ w', pairs 5 ex_config 0 ["src"; "src2"] ex_fail_world = Some (Returned, w')
         ∧ ∃ new, out w' = new ++ out ex_fail_world
                  ∧ announced new = ["src2"; "src"]) ∧
  ∃ w2,
    processDirectory 5 ["src"] ["dst"] 3 (log (MProcessing "src") ex_fail_world)
      = Some (Some (ETargetExists ["dst"; "a.bin"]), w2) ∧
    fs w2 !! ["src"; "z.bin"] = Some (File "wxyz" 5) ∧
    pairs 5 ex_config 0 ["src"; "src2"] ex_fail_world
    = pairs 5 ex_config 1 ["src2"]
        (log (MDirError "src" (ETargetExists ["dst"; "a.bin"])) w2).
Proof.
  pose proof (transfer_failure_stops_walk_only ["src"] ["dst"] 3 ex_config ex_fail_world)
    as (_ & _ & Hloop & Hnext).
  assert (depth_bound ex_fail_world < 5) as Hfuel by (vm_compute; lia).
  split; [exact Hfuel|]. split.
  - apply (Hloop 5 0 ["src"; "src2"] Hfuel). vm_compute. lia.
  - eexists. split; [vm_compute; reflexivity|].
    split; [vm_compute; reflexivity|].
    apply (Hnext 5 0 "src" ["src2"] "dst"); [reflexivity|].
    vm_compute. reflexivity.
Defined.

(** ** Directory listings *)

Lemma strip_Some p k r : strip p k = Some r ↔ k = p ++ r.
Proof.
  revert k. induction p as [|a p IH]; intros k; simpl.
  { split; intros; by simplify_eq. }
  destruct k as [|b k]; [done|].
  case_decide as E; [subst b; rewrite IH|]; split; intros; by simplify_eq.
Qed.

Lemma child_of_Some p kv n x :
  child_of p kv = Some (n, x) ↔ kv = (p ++ [n], x).
Proof.
  unfold child_of. destruct kv as [k v]. simpl.
  destruct (strip p k) as [r|] eqn:E.
  - apply strip_Some in E as ->.
    destruct r as [|n' [|]]; split; intros; simplify_list_eq; done.
  - split; [done|]. intros [= -> ->].
    assert (strip p (p ++ [n]) = Some [n]) by (by apply strip_Some). congruence.
Qed.

Lemma elem_of_entries m p n x : (n, x) ∈ entries m p ↔ m !! (p ++ [n]) = Some x.
Proof.
  unfold entries. rewrite merge_sort_Permutation, list_elem_of_omap.
  split.
  - intros (kv & Hkv & Hc). apply child_of_Some in Hc as ->.
    by apply elem_of_map_to_list in Hkv.
  - intros Hm. exists (p ++ [n], x). split; [by apply elem_of_map_to_list|].
    by apply child_of_Some.
Qed.

Lemma NoDup_entries m p : NoDup (entries m p).*1.
Proof.
  unfold entries. rewrite merge_sort_Permutation.
  pose proof (NoDup_fst_map_to_list m) as Hnd.
  induction (map_to_list m) as [|[k v] l IH]; simpl; [constructor|].
  apply NoDup_cons in Hnd as [Hk Hnd]. specialize (IH Hnd).
  destruct (child_of p (k, v)) as [[n x]|] eqn:Hc; [|done].
  apply child_of_Some in Hc. simplify_eq. simpl. apply NoDup_cons. split; [|done].
  intros Hin. apply list_elem_of_fmap in Hin as ([n' x'] & -> & Hin).
  apply list_elem_of_omap in Hin as (kv & Hkv & Hc).
  apply child_of_Some in Hc as ->. simpl in *.
  apply Hk. apply list_elem_of_fmap. by exists (p ++ [n'], x').
Qed.

(** ** The retention sweep *)

Lemma sweep_dir cutoff n rest w :
  sweep cutoff (entry_of (n, Dir) :: rest) w = sweep cutoff rest w.
Proof. done. Qed.

Lemma sweep_file cutoff n d t rest w :
  fs w !! log_path n = Some (File d t) →
  sweep cutoff (entry_of (n, File d t) :: rest) w
  = sweep cutoff rest (after_file cutoff n t w).
Proof.
  intros Hp. cbn [sweep entry_of de_isdir de_name fst snd]. fold (log_path n).
  unfold after_file, os_Stat, sys, stat_act.
  destruct (fault w OpStat (log_path n)) as [f|] eqn:Hfs; [done|].
  assert (lookup_node w (log_path n) = Some (File d t)) as Hn by done.
  rewrite Hn. cbn [info_of fi_mtime].
  destruct (t <? cutoff)%Z; [|done].
  change (emit (Sys OpStat (log_path n) true) w)
    with (upd (fs w) [Sys OpStat (log_path n) true] w).
  rewrite (os_Remove_file _ _ _ _ d t) by done.
  by destruct (fault w OpRemove (log_path n)).
Qed.

Lemma log_path_inj n n' : log_path n = log_path n' → n = n'.
Proof. unfold log_path. intros H. by simplify_list_eq. Qed.

Lemma after_file_fs cutoff n d t w :
  fs w !! log_path n = Some (File d t) →
  fs (after_file cutoff n t w)
  = if doomed cutoff w (log_path n) then delete (log_path n) (fs w) else fs w.
Proof.
  intros Hp. unfold after_file, doomed, expired, no_fault_at. rewrite Hp.
  destruct (fault w OpStat (log_path n)); [by rewrite andb_false_r|].
  destruct (t <? cutoff)%Z; [|done].
  by destruct (fault w OpRemove (log_path n)).
Qed.

Lemma after_file_same cutoff n t w :
  fault (after_file cutoff n t w) = fault w
  ∧ now (after_file cutoff n t w) = now w
  ∧ printed (after_file cutoff n t w) = printed w.
Proof.
  unfold after_file.
  destruct (fault w OpStat (log_path n)); [done|].
  destruct (t <? cutoff)%Z; [|done].
  by destruct (fault w OpRemove (log_path n)).
Qed.

(** The calls and lines of one step of the sweep. *)
Lemma after_file_history cutoff n d t w :
  fs w !! log_path n = Some (File d t) →
  ∃ evs lines,
    trace (after_file cutoff n t w) = evs ++ trace w ∧
    out (after_file cutoff n t w) = lines ++ out w ∧
    (∀ q ok, Sys OpRemove q ok ∈ evs ↔
       q = log_path n ∧ expired cutoff w q = true ∧ no_fault_at w OpStat q = true
       ∧ ok = no_fault_at w OpRemove q) ∧
    (∀ f, fault w OpStat (log_path n) = Some f →
       {| stamp := now w;
          text := MStatLogError n (EOs OpStat (log_path n) (errno_of_fault f)) |}
       ∈ lines) ∧
    (doomed cutoff w (log_path n) = true →
       {| stamp := now w; text := MRemovedLog n |} ∈ lines) ∧
    (∀ l, l ∈ lines → stamp l = now w ∧
       ((∃ e, text l = MStatLogError n e) ∨ (∃ e, text l = MRemoveLogError n e)
        ∨ text l = MRemovedLog n)).
Proof.
  intros Hp. unfold after_file, doomed, expired, no_fault_at.
  destruct (fault w OpStat (log_path n)) as [f|] eqn:Hfs.
  { eexists [_], [_]. split; [done|]. split; [done|].
    split; [|split; [|split]].
    - intros q ok. set_unfold. split; [naive_solver|].
      intros (-> & _ & H & _). by rewrite Hfs in H.
    - intros f' [= <-]. set_unfold. by left.
    - rewrite Hp. by rewrite andb_false_r.
    - intros l Hl. apply list_elem_of_singleton in Hl as ->. simpl. eauto. }
  destruct (t <? cutoff)%Z eqn:Ht.
  2:{ eexists [_], []. split; [done|]. split; [done|].
      split; [|split; [|split]].
      - intros q ok. set_unfold. split; [naive_solver|].
        intros (-> & H & _). rewrite Hp in H. congruence.
      - done.
      - by rewrite Hp, Ht.
      - intros l. by set_unfold. }
  destruct (fault w OpRemove (log_path n)) as [f|] eqn:Hfr.
  - eexists [_; _], [_]. split; [done|]. split; [done|].
    split; [|split; [|split]].
    + intros q ok. set_unfold. split.
      * intros H. assert (q = log_path n ∧ ok = false) as [-> ->] by naive_solver.
        by rewrite Hp, Hfs, Hfr, Ht.
      * intros (-> & _ & _ & ->). rewrite Hfr. by left.
    + done.
    + rewrite Hp, Ht. done.
    + intros l Hl. apply list_elem_of_singleton in Hl as ->. simpl. eauto.
  - eexists [_; _], [_]. split; [done|]. split; [done|].
    split; [|split; [|split]].
    + intros q ok. set_unfold. split.
      * intros H. assert (q = log_path n ∧ ok = true) as [-> ->] by naive_solver.
        by rewrite Hp, Hfs, Hfr, Ht.
      * intros (-> & _ & _ & ->). rewrite Hfr. by left.
    + done.
    + intros _. set_unfold. by left.
    + intros l Hl. apply list_elem_of_singleton in Hl as ->. simpl. eauto.
Qed.

Lemma after_file_lookup_ne cutoff n d t w q :
  fs w !! log_path n = Some (File d t) → q ≠ log_path n →
  fs (after_file cutoff n t w) !! q = fs w !! q.
Proof.
  intros Hp Hq. rewrite (after_file_fs _ _ d) by done.
  destruct (doomed cutoff w (log_path n)); [|done]. by rewrite lookup_delete_ne.
Qed.

Lemma after_file_lookup_eq cutoff n d t w :
  fs w !! log_path n = Some (File d t) →
  fs (after_file cutoff n t w) !! log_path n
  = if doomed cutoff w (log_path n) then None else Some (File d t).
Proof.
  intros Hp. rewrite (after_file_fs _ _ d) by done.
  destruct (doomed cutoff w (log_path n)); [|done]. by rewrite lookup_delete_eq.
Qed.

Lemma after_file_flags cutoff n d t w q :
  fs w !! log_path n = Some (File d t) → q ≠ log_path n →
  expired cutoff (after_file cutoff n t w) q = expired cutoff w q
  ∧ (∀ op, no_fault_at (after_file cutoff n t w) op q = no_fault_at w op q)
  ∧ doomed cutoff (after_file cutoff n t w) q = doomed cutoff w q.
Proof.
  intros Hp Hq.
  destruct (after_file_same cutoff n t w) as (Hf & _ & _).
  assert (expired cutoff (after_file cutoff n t w) q = expired cutoff w q) as He.
  { unfold expired. by rewrite (after_file_lookup_ne _ _ d). }
  assert (∀ op, no_fault_at (after_file cutoff n t w) op q = no_fault_at w op q) as Hn.
  { intros op. unfold no_fault_at. by rewrite Hf. }
  split; [done|]. split; [done|]. unfold doomed. by rewrite He, !Hn.
Qed.

Lemma sweep_spec cutoff es :
  NoDup es.*1 →
  ∀ w, (∀ n x, (n, x) ∈ es → fs w !! log_path n = Some x) →
  ∃ evs lines,
    fault (sweep cutoff (entry_of <$> es) w) = fault w ∧
    now (sweep cutoff (entry_of <$> es) w) = now w ∧
    printed (sweep cutoff (entry_of <$> es) w) = printed w ∧
    trace (sweep cutoff (entry_of <$> es) w) = evs ++ trace w ∧
    out (sweep cutoff (entry_of <$> es) w) = lines ++ out w ∧
    (∀ q, fs (sweep cutoff (entry_of <$> es) w) !! q
          = if bool_decide (q ∈ log_path <$> es.*1) && doomed cutoff w q
            then None else fs w !! q) ∧
    (∀ q ok, Sys OpRemove q ok ∈ evs ↔
       q ∈ log_path <$> es.*1 ∧ expired cutoff w q = true
       ∧ no_fault_at w OpStat q = true ∧ ok = no_fault_at w OpRemove q) ∧
    (∀ n d t f, (n, File d t) ∈ es → fault w OpStat (log_path n) = Some f →
       {| stamp := now w;
          text := MStatLogError n (EOs OpStat (log_path n) (errno_of_fault f)) |}
       ∈ lines) ∧
    (∀ n d t, (n, File d t) ∈ es → doomed cutoff w (log_path n) = true →
       {| stamp := now w; text := MRemovedLog n |} ∈ lines).
Proof.
  induction es as [|[n0 x0] rest IH]; intros Hnd w Hes.
  { exists [], []. repeat split; try done; set_unfold; naive_solver. }
  cbn [fmap list_fmap fst] in Hnd. apply NoDup_cons in Hnd as [Hn0 Hnd].
  assert (∀ n x, (n, x) ∈ rest → log_path n ≠ log_path n0) as Hne.
  { intros n x Hin Heq. apply log_path_inj in Heq as ->.
    apply Hn0. apply list_elem_of_fmap. by exists (n0, x). }
  assert (log_path n0 ∉ log_path <$> rest.*1) as Hp0.
  { intros Hin. apply list_elem_of_fmap in Hin as (n & Heq & Hin).
    apply list_elem_of_fmap in Hin as ([n' x] & -> & Hin). by eapply Hne. }
  assert (fs w !! log_path n0 = Some x0) as Hx0 by (apply Hes; by left).
  destruct x0 as [d0 t0|].
  - (* a file *)
    change (entry_of <$> (n0, File d0 t0) :: rest)
      with (entry_of (n0, File d0 t0) :: (entry_of <$> rest)).
    rewrite sweep_file by done.
    destruct (after_file_same cutoff n0 t0 w) as (Hf1 & Hn1 & Hpr1).
    destruct (after_file_history cutoff n0 d0 t0 w Hx0)
      as (evs1 & lines1 & Htr1 & Hout1 & Hrm1 & Hstat1 & Hdel1 & _).
    destruct (IH Hnd (after_file cutoff n0 t0 w))
      as (evs & lines & Hf & Hn & Hpr & Htr & Hout & Hfs & Hrm & Hstat & Hdel).
    { intros n x Hin. rewrite (after_file_lookup_ne _ _ d0); [|done|by eapply Hne].
      apply Hes. by right. }
    exists (evs ++ evs1), (lines ++ lines1).
    split; [congruence|]. split; [congruence|]. split; [congruence|].
    split; [by rewrite Htr, Htr1, app_assoc|].
    split; [by rewrite Hout, Hout1, app_assoc|].
    split; [|split; [|split]].
    + intros q. rewrite Hfs. cbn [fmap list_fmap fst].
      destruct (decide (q = log_path n0)) as [->|Hq].
      * rewrite (bool_decide_eq_false_2 _ Hp0). cbn [andb].
        rewrite (after_file_lookup_eq _ _ d0) by done.
        rewrite bool_decide_eq_true_2 by (by left). cbn [andb].
        destruct (doomed cutoff w (log_path n0)); [done|]. done.
      * destruct (after_file_flags cutoff n0 d0 t0 w q Hx0 Hq) as (_ & _ & ->).
        rewrite (after_file_lookup_ne _ _ d0) by done.
        rewrite (bool_decide_ext (q ∈ log_path <$> rest.*1)
                                 (q ∈ log_path n0 :: (log_path <$> rest.*1))); [done|].
        set_unfold. naive_solver.
    + intros q ok. rewrite elem_of_app, Hrm, Hrm1. cbn [fmap list_fmap fst].
      rewrite elem_of_cons. split.
      * intros [(Hin & He & Hs & Hr)|(-> & He & Hs & Hr)]; [|by eauto].
        assert (q ≠ log_path n0) as Hq by (intros ->; done).
        destruct (after_file_flags cutoff n0 d0 t0 w q Hx0 Hq) as (He' & Hn' & _).
        rewrite He', !Hn' in *. eauto.
      * intros ([->|Hin] & He & Hs & Hr); [by right|]. left.
        assert (q ≠ log_path n0) as Hq by (intros ->; done).
        destruct (after_file_flags cutoff n0 d0 t0 w q Hx0 Hq) as (He' & Hn' & _).
        by rewrite He', !Hn'.
    + intros n d t f Hin Hfault. apply elem_of_app.
      apply elem_of_cons in Hin as [[= -> -> ->]|Hin]; [right; by apply Hstat1|].
      left. rewrite <- Hn1. eapply Hstat; [done|]. by rewrite Hf1.
    + intros n d t Hin Hdoom. apply elem_of_app.
      apply elem_of_cons in Hin as [[= -> -> ->]|Hin]; [right; by apply Hdel1|].
      left. rewrite <- Hn1. eapply Hdel; [done|].
      destruct (after_file_flags cutoff n0 d0 t0 w (log_path n) Hx0) as (_ & _ & ->);
        [by eapply Hne|done].
  - (* a directory: skipped *)
    change (entry_of <$> (n0, Dir) :: rest)
      with (entry_of (n0, Dir) :: (entry_of <$> rest)).
    rewrite sweep_dir.
    destruct (IH Hnd w)
      as (evs & lines & Hf & Hn & Hpr & Htr & Hout & Hfs & Hrm & Hstat & Hdel).
    { intros n x Hin. apply Hes. by right. }
    assert (expired cutoff w (log_path n0) = false) as Hexp
      by (unfold expired; by rewrite Hx0).
    exists evs, lines.
    split; [done|]. split; [done|]. split; [done|]. split; [done|]. split; [done|].
    split; [|split; [|split]].
    + intros q. rewrite Hfs. cbn [fmap list_fmap fst].
      destruct (decide (q = log_path n0)) as [->|Hq].
      * rewrite (bool_decide_eq_false_2 _ Hp0). unfold doomed. rewrite Hexp.
        cbn [andb]. by rewrite andb_false_r.
      * rewrite (bool_decide_ext (q ∈ log_path <$> rest.*1)
                                 (q ∈ log_path n0 :: (log_path <$> rest.*1))); [done|].
        set_unfold. naive_solver.
    + intros q ok. rewrite Hrm. cbn [fmap list_fmap fst]. rewrite elem_of_cons.
      split; [naive_solver|]. intros ([->|Hin] & He & Hs & Hr); [congruence|done].
    + intros n d t f Hin. apply elem_of_cons in Hin as [[=]|Hin]. by eapply Hstat.
    + intros n d t Hin. apply elem_of_cons in Hin as [[=]|Hin]. by eapply Hdel.
Qed.

Lemma cleanOldLogs_listed w :
  fault w OpReadDir logDir = None →
  fs w !! logDir = Some Dir →
  cleanOldLogs w
  = sweep (now w - 5 * 86400)%Z (entry_of <$> entries (fs w) logDir)
      (upd (fs w) [Sys OpReadDir logDir true] w).
Proof.
  intros Hf Hd. unfold cleanOldLogs, os_ReadDir, sys. rewrite Hf.
  assert (lookup_node w logDir = Some Dir) as -> by done.
  unfold AddDate_days, logRetentionDays. cbn [now emit].
  by replace (now w + -5 * 86400)%Z with (now w - 5 * 86400)%Z by lia.
Qed.



(** The sweep on [ex_logs_world]: the old file goes, the recent one, the one
    whose [Stat] fails and the subdirectory with its content stay. *)
Example cleanOldLogs_example :
  fs (cleanOldLogs ex_logs_world)
  = list_to_map
      [ (["logs"], Dir); (["logs"; "new.log"], File "n" 999000);
        (["logs"; "locked.log"], File "l" 100); (["logs"; "archive"], Dir);
        (["logs"; "archive"; "x.log"], File "x" 100) ]
  ∧ text <$> out (cleanOldLogs ex_logs_world)
    = [ MRemovedLog "old.log";
        MStatLogError "locked.log"
          (EOs OpStat ["logs"; "locked.log"] EACCES) ].
Proof. split; vm_compute; reflexivity. Qed.

(** ** Configuration *)

Lemma default_text_ok : Json.MarshalIndent defaultConfig = default_text.
Proof. vm_compute. reflexivity. Qed.

Lemma decode_default_text : Json.Decode default_text = Ok defaultConfig.
Proof. vm_compute. reflexivity. Qed.

(** C7: round trip of the default configuration.  When there is no
    configuration file (and its directory exists and no I/O fault hits the
    file), [loadOrCreateConfig] writes the default configuration as indented
    JSON and returns it, and loading the written file again yields exactly the
    default [source_dirs], [target_dirs] and [min_file_size]. *)
Theorem default_config_round_trip (path : Path) (w : World) :
  lookup_node w path = None →
  lookup_node w (parent path) = Some Dir →
  (∀ op, fault w op path = None) →
  ∃ w1 w2 config,
    loadOrCreateConfig path w = (Ok defaultConfig, w1) ∧
    fs w1 = <[path := File default_text (now w)]> (fs w) ∧
    Json.MarshalIndent defaultConfig = default_text ∧
    loadOrCreateConfig path w1 = (Ok config, w2) ∧
    SourceDirs config = SourceDirs defaultConfig ∧
    TargetDirs config = TargetDirs defaultConfig ∧
    MinFileSize config = MinFileSize defaultConfig ∧
    fs w2 = fs w1.
Proof.
  intros Hnone Hpar Hf.
  assert (path ≠ []) as Hne by (intros ->; done).
  set (m1 := <[path := File default_text (now w)]> (fs w)).
  set (w1 := upd m1 [SysClose path; Sys OpWrite path true; Sys OpCreate path true;
                     Sys OpOpen path false] w).
  assert (loadOrCreateConfig path w = (Ok defaultConfig, w1)) as Hfirst.
  { unfold loadOrCreateConfig. rewrite os_Open_absent by done. cbn [IsNotExist].
    unfold os_Create. rewrite sys_upd, Hf, !lookup_node_upd_same, Hnone, Hpar.
    change (emit (Sys OpCreate path true) _)
      with (upd (<[path := File "" (now w)]> (fs w))
              [Sys OpCreate path true; Sys OpOpen path false] w).
    unfold f_Write. cbn [h_path]. rewrite sys_upd, Hf.
    assert (lookup_node (upd (<[path:=File "" (now w)]> (fs w))
              [Sys OpCreate path true; Sys OpOpen path false] w) path
            = Some (File "" (now w))) as ->.
    { destruct path; [done|]. cbn [lookup_node fs upd]. by rewrite lookup_insert_eq. }
    unfold append_at. cbn [fs upd now]. rewrite lookup_insert_eq, insert_insert_eq.
    by rewrite default_text_ok. }
  assert (∀ evs, lookup_node (upd m1 evs w1) path = Some (File default_text (now w)))
    as Hread.
  { intros evs. destruct path; [done|]. cbn [lookup_node fs upd]. unfold m1.
    by rewrite lookup_insert_eq. }
  assert (loadOrCreateConfig path w1
          = (Ok defaultConfig,
             upd m1 [SysClose path; Sys OpRead path true; Sys OpOpen path true] w1))
    as Hsecond.
  { unfold loadOrCreateConfig. rewrite os_Open_present.
    2:{ split; [apply Hf|]. exists (File default_text (now w)).
        destruct path; [done|]. cbn [lookup_node fs upd w1]. unfold m1.
        by rewrite lookup_insert_eq. }
    unfold f_Read. cbn [h_path]. change (fs w1) with m1.
    rewrite sys_upd. change (fault w1) with (fault w). rewrite Hf, Hread.
    by rewrite decode_default_text. }
  eexists w1, _, defaultConfig.
  split; [exact Hfirst|]. split; [done|]. split; [apply default_text_ok|].
  split; [exact Hsecond|]. done.
Qed.

Lemma C7_witness :
  lookup_node ex_empty_world defaultConfigFile = None ∧
  lookup_node ex_empty_world (parent defaultConfigFile) = Some Dir ∧
  (∀ op, fault ex_empty_world op defaultConfigFile = None) ∧
  ∃ w1 w2,
    loadOrCreateConfig defaultConfigFile ex_empty_world = (Ok defaultConfig, w1) ∧
    fs w1 !! defaultConfigFile = Some (File default_text 1000) ∧
    (loadOrCreateConfig defaultConfigFile w1).1 = Ok defaultConfig ∧
    (loadOrCreateConfig defaultConfigFile w1).2 = w2.
Proof.
  assert (lookup_node ex_empty_world defaultConfigFile = None) as H1
    by (vm_compute; reflexivity).
  assert (lookup_node ex_empty_world (parent defaultConfigFile) = Some Dir) as H2
    by reflexivity.
  assert (∀ op, fault ex_empty_world op defaultConfigFile = None) as H3 by reflexivity.
  split; [exact H1|]. split; [exact H2|]. split; [exact H3|].
  destruct (default_config_round_trip defaultConfigFile ex_empty_world H1 H2 H3)
    as (w1 & w2 & config & Hfirst & Hfs & _ & Hsecond & Hs & Ht & Hm & _).
  exists w1, w2. split; [exact Hfirst|].
  split; [rewrite Hfs; apply lookup_insert_eq|].
  rewrite Hsecond. split; [|reflexivity]. cbn [fst]. f_equal.
  destruct config as [s t m]. cbn in Hs, Ht, Hm. by subst.
Defined.

(** The loop of [main] panics at the first index without a target. *)
Lemma pairs_panics config N fuel srcs :
  N < fuel →
  ∀ i w, depth_below N w →
    (i ≤ List.length (TargetDirs config))%nat →
    (List.length (TargetDirs config) < i + List.length srcs)%nat →
    ∃ w', pairs fuel config i srcs w
          = Some (Panicked (List.length (TargetDirs config))
                    (List.length (TargetDirs config)), w').
Proof.
  intros Hfuel. induction srcs as [|s rest IH]; intros i w Hd Hi Hlen; simpl in *.
  { lia. }
  destruct (TargetDirs config !! i) as [t|] eqn:Ht.
  2:{ apply lookup_ge_None in Ht. assert (i = List.length (TargetDirs config)) as -> by lia.
      by exists w. }
  apply lookup_lt_Some in Ht.
  destruct (processDirectory_spec (path_of s) (path_of t) (MinFileSize config) N
              (log (MProcessing s) w) fuel) as (r & w2 & -> & Hrel);
    [by apply depth_below_log | done |].
  pose proof (run_rel_depth _ _ _ _ _ Hrel (depth_below_log _ _ _ Hd)) as Hd2.
  destruct r as [e|].
  - apply IH; [by apply depth_below_log | lia | lia].
  - apply IH; [done | lia | lia].
Qed.

(** An existing file whose bytes the decoder accepts is loaded as it is. *)
Lemma loadOrCreateConfig_existing path w text t :
  fs w !! path = Some (File text t) → path ≠ [] →
  (∀ op, fault w op path = None) →
  loadOrCreateConfig path w
  = (match Json.Decode text with
     | Ok config => Ok config
     | Err err => Err (EWrap CtxReadConfig err)
     end,
     upd (fs w) [SysClose path; Sys OpRead path true; Sys OpOpen path true] w).
Proof.
  intros Hfile Hne Hf.
  assert (lookup_node w path = Some (File text t)) as Hn by (by destruct path).
  unfold loadOrCreateConfig. rewrite os_Open_present by (split; eauto).
  unfold f_Read. cbn [h_path]. rewrite sys_upd, Hf, lookup_node_upd_same, Hn.
  by destruct (Json.Decode text).
Qed.

(** C8: nothing validates the configuration when it is loaded.  Whatever
    the decoder accepts is returned as it is; when [source_dirs] is longer
    than [target_dirs] the loop of [main] runs into the index out of range at
    the first source directory without a target; and there is such a
    configuration file: in [ex_mismatch_world] the file is loaded, the first
    pair is processed and [main] then panics at index 1 of 1. *)
Theorem config_mismatch_faults_at_use :
  (∀ w text t config,
     fs w !! defaultConfigFile = Some (File text t) →
     (∀ op, fault w op defaultConfigFile = None) →
     Json.Decode text = Ok config →
     (loadOrCreateConfig defaultConfigFile w).1 = Ok config) ∧
  (∀ config fuel w,
     depth_bound w < fuel →
     (List.length (TargetDirs config) < List.length (SourceDirs config))%nat →
     ∃ w', pairs fuel config 0 (SourceDirs config) w
           = Some (Panicked (List.length (TargetDirs config))
                     (List.length (TargetDirs config)), w')) ∧
  ∃ config w',
    (loadOrCreateConfig defaultConfigFile ex_mismatch_world).1 = Ok config ∧
    SourceDirs config = ["src"; "src2"] ∧ TargetDirs config = ["dst"] ∧
    main 5 ex_mismatch_world = Some (Panicked 1 1, w') ∧
    announced (out w') = ["src"] ∧
    fs w' !! ["dst"; "a.bin"] = Some (File "abcd" 1000).
Proof.
  split; [|split].
  - intros w text t config Hfile Hf Hdec.
    rewrite (loadOrCreateConfig_existing _ _ text t) by done. by rewrite Hdec.
  - intros config fuel w Hfuel Hlen.
    apply (pairs_panics config (depth_bound w)); [done|apply depth_bound_ok|lia|lia].
  - eexists _, _. split; [vm_compute; reflexivity|].
    split; [reflexivity|]. split; [reflexivity|].
    split; [vm_compute; reflexivity|]. split; vm_compute; reflexivity.
Qed.

(** A syntax error in the first value is an error of the decoder. *)
Lemma decode_rejects_syntax_error text :
  Json.parse text = None → ∃ e, Json.Decode text = Err e.
Proof.
  intros Hp. unfold Json.Decode. rewrite Hp.
  destruct (Json.skip_ws text); eauto.
Qed.

(** C9, amended: when the configuration file exists and the decoder rejects
    its contents (no JSON value at the start, a syntax error inside the first
    value, or a value that does not fit the configuration),
    [loadOrCreateConfig] returns an error and [main] returns after printing
    it: the file system is as before, nothing was written to the logger, and
    the only system calls made are the open, read and close of the
    configuration file. *)
Theorem rejected_config_aborts_main (w : World) (text : string) (t : Z)
    (je : Error) (fuel : nat) :
  fs w !! defaultConfigFile = Some (File text t) →
  Json.Decode text = Err je →
  ∃ e evs,
    (loadOrCreateConfig defaultConfigFile w).1 = Err e ∧
    main fuel w = Some (Returned, Printf (PConfigError e) (upd (fs w) evs w)) ∧
    Forall (reads_only defaultConfigFile) evs.
Proof.
  intros Hfile Hdec.
  assert (lookup_node w defaultConfigFile = Some (File text t)) as Hn by done.
  assert (∃ e evs,
            loadOrCreateConfig defaultConfigFile w = (Err e, upd (fs w) evs w)
            ∧ Forall (reads_only defaultConfigFile) evs) as (e & evs & Hload & Hevs).
  { unfold loadOrCreateConfig, os_Open, sys.
    destruct (fault w OpOpen defaultConfigFile) as [f|] eqn:Hfo.
    { rewrite IsNotExist_fault. eexists _, [_]. split; [done|].
      apply Forall_forall. intros ev Hev. unfold reads_only. set_unfold. naive_solver. }
    rewrite Hn.
    change (emit (Sys OpOpen defaultConfigFile true) w)
      with (upd (fs w) [Sys OpOpen defaultConfigFile true] w).
    unfold f_Read. cbn [h_path]. rewrite sys_upd, lookup_node_upd_same, Hn.
    destruct (fault w OpRead defaultConfigFile) as [f|] eqn:Hfr.
    { eexists _, [_; _; _]. split; [done|].
      apply Forall_forall. intros ev Hev. unfold reads_only. set_unfold. naive_solver. }
    rewrite Hdec. eexists _, [_; _; _]. split; [done|].
    apply Forall_forall. intros ev Hev. unfold reads_only. set_unfold. naive_solver. }
  exists e, evs. split; [by rewrite Hload|]. split; [|done].
  unfold main. by rewrite Hload.
Qed.

Lemma C9_witness :
  fs ex_truncated_world !! defaultConfigFile = Some (File truncated_text 1) ∧
  Json.Decode truncated_text = Err (EJson JSyntax) ∧
  ∃ e evs,
    main 5 ex_truncated_world
    = Some (Returned,
            Printf (PConfigError e) (upd (fs ex_truncated_world) evs ex_truncated_world))
    ∧ Forall (reads_only defaultConfigFile) evs.
Proof.
  assert (fs ex_truncated_world !! defaultConfigFile = Some (File truncated_text 1))
    as H1 by (vm_compute; reflexivity).
  assert (Json.Decode truncated_text = Err (EJson JSyntax)) as H2
    by (vm_compute; reflexivity).
  split; [exact H1|]. split; [exact H2|].
  destruct (rejected_config_aborts_main ex_truncated_world truncated_text 1
              (EJson JSyntax) 5 H1 H2) as (e & evs & _ & Hmain & Hevs).
  exists e, evs. split; [exact Hmain | exact Hevs].
Defined.

(** C9 fails as stated: [trailing_text] is not well-formed JSON (a valid
    object followed by other text), yet [loadOrCreateConfig] returns the
    configuration of the object and [main] goes on: it creates the log
    directory and moves [a.bin]. *)
Lemma trailing_text_is_accepted :
  Json.Valid trailing_text = false ∧
  fs ex_trailing_world !! defaultConfigFile = Some (File trailing_text 1) ∧
  (loadOrCreateConfig defaultConfigFile ex_trailing_world).1
    = Ok {| SourceDirs := ["src"]; TargetDirs := ["dst"]; MinFileSize := 3 |} ∧
  fs ex_trailing_world !! ["logs"] = None ∧
  ∃ w', main 5 ex_trailing_world = Some (Returned, w') ∧
        fs w' !! ["logs"] = Some Dir ∧
        fs w' !! ["dst"; "a.bin"] = Some (File "abcd" 1000) ∧
        fs w' !! ["src"; "sub"; "a.bin"] = None.
Proof.
  split; [vm_compute; reflexivity|].
  split; [vm_compute; reflexivity|].
  split; [vm_compute; reflexivity|].
  split; [vm_compute; reflexivity|].
  eexists. split; [vm_compute; reflexivity|].
  split; [vm_compute; reflexivity|].
  split; vm_compute; reflexivity.
Qed.

(** * Further properties of the code *)

(** ** Single transfers *)

Lemma os_Create_fresh p w :
  can_create w p →
  os_Create p w
  = (Ok {| h_path := p |},
     upd (<[p := File "" (now w)]> (fs w)) [Sys OpCreate p true] w).
Proof.
  intros (Hf & Hn & Hpar). unfold os_Create, sys. by rewrite Hf, Hn, Hpar.
Qed.

(** Under [movable] the transfer goes through. *)
Lemma moveFile_movable src dst w :
  movable w src dst →
  ∃ data t,
    lookup_node w src = Some (File data t) ∧
    moveFile src dst w
    = (None,
       upd (delete src (<[dst := File data (now w)]> (fs w)))
         [Sys OpRemove src true; SysClose dst; SysClose src; SysCopy dst src true;
          Sys OpCreate dst true; Sys OpStat dst false; Sys OpOpen src true] w).
Proof.
  intros ((data & t & Hsrc) & Hcc & Hfo & Hfs & Hfr & Hfw & Hfrm).
  assert (can_open w src) as Hcan by (split; eauto).
  exists data, t. split; [done|].
  destruct (moveFile src dst w) as [r w'] eqn:E.
  apply moveFile_outcome in E.
  inversion E as [ e Ho | n _ _ Hd | f _ Hf | e _ _ _ Hc
                 | e chunk _ _ _ Hcopy | d1 t1 f | d1 t1 ? ? ? Hs1 ];
    subst; try done.
  - by rewrite os_Open_present in Ho.
  - destruct Hcc as (_ & ? & _). congruence.
  - congruence.
  - by rewrite os_Create_fresh in Hc.
  - inversion Hcopy; congruence.
  - congruence.
  - by simplify_eq.
Qed.

(** X1: [moveFile] succeeds exactly when the source is a regular file, nothing
    exists at the destination, the directory of the destination exists and
    none of its system calls is hit by a fault; the file system it leaves
    then is the old one with the source's bytes at the destination (stamped
    with the time of the move) and the source gone. *)
Theorem moveFile_succeeds_iff (src dst : Path) (w : World) :
  ((moveFile src dst w).1 = None ↔ movable w src dst) ∧
  ((moveFile src dst w).1 = None →
     ∃ data t, fs w !! src = Some (File data t) ∧
       fs (moveFile src dst w).2 = delete src (<[dst := File data (now w)]> (fs w))).
Proof.
  destruct (moveFile src dst w) as [r w'] eqn:E. cbn [fst snd].
  pose proof (moveFile_outcome _ _ _ _ _ E) as H. split; [split|].
  - intros ->. inversion H; subst. unfold movable. eauto 10.
  - intros Hmov. apply moveFile_movable in Hmov as (data & t & _ & Hmov). congruence.
  - intros ->. apply moveFile_success in E as (d & t & Hs & _ & _ & ->). eauto.
Qed.

Lemma substring_prefix n s : ∃ rest, s = substring 0 n s +:+ rest.
Proof.
  revert n. induction s as [|a s IH]; intros [|n]; simpl; eauto.
  destruct (IH n) as [rest Hrest]. exists rest.
  change (String a s = String a (substring 0 n s +:+ rest)). congruence.
Qed.

Lemma append_empty_r s : s +:+ "" = s.
Proof.
  induction s as [|a s IH]; [done|].
  change (String a (s +:+ "") = String a s). congruence.
Qed.

(** A transfer into a world where the destination is a file and neither
    the open nor the check is faulted ends with the conflict error. *)
Lemma moveFile_conflict src dst w n :
  can_open w src → fault w OpStat dst = None → lookup_node w dst = Some n →
  moveFile src dst w
  = (Some (ETargetExists dst),
     upd (fs w) [SysClose src; Sys OpStat dst true; Sys OpOpen src true] w).
Proof.
  intros Hcan Hf Hd. unfold moveFile. rewrite os_Open_present by done.
  unfold os_Stat. rewrite sys_upd, Hf. unfold stat_act.
  by rewrite lookup_node_upd_same, Hd.
Qed.

(** X2: a transfer that fails while copying or while removing the source
    leaves the destination it created behind (with the first bytes of the
    source, or all of them) and the source in place; repeating the transfer
    then fails with the conflict error and changes nothing. *)
Theorem failed_transfer_blocks_retry (src dst : Path) (w w1 : World) (c : Ctx)
    (e : Error) :
  moveFile src dst w = (Some (EWrap c e), w1) →
  c = CtxCopy ∨ c = CtxRemoveSource →
  fs w !! dst = None ∧
  fs w1 !! src = fs w !! src ∧
  (∃ chunk, fs w1 !! dst = Some (File chunk (now w)) ∧
     (∀ data t, fs w !! src = Some (File data t) → ∃ rest, data = chunk +:+ rest) ∧
     (c = CtxRemoveSource → ∃ t, fs w !! src = Some (File chunk t))) ∧
  moveFile src dst w1
  = (Some (ETargetExists dst),
     upd (fs w1) [SysClose src; Sys OpStat dst true; Sys OpOpen src true] w1).
Proof.
  intros Hmove Hc. apply moveFile_outcome in Hmove.
  inversion Hmove as [ | | | | e' chunk Hopen Hfs Hcreate Hcopy
                      | data t f Hfo Hfs Hcreate Hsrc | ];
    subst; try (destruct Hc; discriminate).
  - assert (src ≠ dst) as Hne by (eapply can_create_ne; [apply Hopen|done]).
    assert (fs w !! dst = None ∧ dst ≠ []) as [Hdst Hdne].
    { destruct Hcreate as (_ & Hd & _). by destruct dst. }
    split; [done|]. cbn [fs upd]. split; [by rewrite lookup_insert_ne|].
    split.
    + exists chunk. split; [by rewrite lookup_insert_eq|]. split; [|done].
      intros data t Hdata. inversion Hcopy as [Hdir|d0 t0 f Hs|d0 t0 f Hs]; subst.
      * by exists data.
      * apply lookup_node_file in Hs as [Hs _]. simplify_eq. apply substring_prefix.
      * apply lookup_node_file in Hs as [Hs _]. simplify_eq. apply substring_prefix.
    + apply moveFile_conflict with (n := File chunk (now w)).
      * destruct Hopen as [Hf [n Hn]]. split; [done|]. exists n.
        destruct src; [done|]. cbn [lookup_node fs upd]. by rewrite lookup_insert_ne.
      * done.
      * destruct dst; [done|]. cbn [lookup_node fs upd]. by rewrite lookup_insert_eq.
  - assert (src ≠ dst) as Hne by (eapply can_create_ne; [|done]; eauto).
    assert (fs w !! dst = None ∧ dst ≠ []) as [Hdst Hdne].
    { destruct Hcreate as (_ & Hd & _). by destruct dst. }
    apply lookup_node_file in Hsrc as Hfile. destruct Hfile as [Hfile Hsne].
    split; [done|]. cbn [fs upd]. split; [by rewrite lookup_insert_ne|].
    split.
    + exists data. split; [by rewrite lookup_insert_eq|]. split; [|eauto].
      intros d0 t0 Hd0. simplify_eq. exists "". by rewrite append_empty_r.
    + apply moveFile_conflict with (n := File data (now w)).
      * split; [done|]. exists (File data t).
        destruct src; [done|]. cbn [lookup_node fs upd]. by rewrite lookup_insert_ne.
      * done.
      * destruct dst; [done|]. cbn [lookup_node fs upd]. by rewrite lookup_insert_eq.
Qed.

Lemma X2_witness :
  moveFile ex_src ex_dst ex_full_world
    = (Some (EWrap CtxCopy (EOs OpWrite ex_dst ENOSPC)), ex_full_after) ∧
  fs ex_full_after !! ex_dst = Some (File "ab" 1000) ∧
  fs ex_full_after !! ex_src = Some (File "abcd" 5) ∧
  (moveFile ex_src ex_dst ex_full_after).1 = Some (ETargetExists ex_dst).
Proof.
  assert (moveFile ex_src ex_dst ex_full_world
          = (Some (EWrap CtxCopy (EOs OpWrite ex_dst ENOSPC)), ex_full_after)) as H
    by (vm_compute; reflexivity).
  destruct (failed_transfer_blocks_retry ex_src ex_dst ex_full_world ex_full_after
              CtxCopy _ H (or_introl eq_refl)) as (_ & _ & _ & Hretry).
  split; [exact H|]. split; [vm_compute; reflexivity|].
  split; [vm_compute; reflexivity|]. rewrite Hretry. reflexivity.
Defined.

(** X3: [moveFile] touches nothing but its two paths: every other node stays
    as it is, no directory appears or disappears, and it writes neither to
    the logger nor to the standard output. *)
Theorem moveFile_touches_only_its_paths (src dst : Path) (w : World) :
  (∀ q, q ≠ src → q ≠ dst → fs (moveFile src dst w).2 !! q = fs w !! q) ∧
  (∀ q, fs (moveFile src dst w).2 !! q = Some Dir ↔ fs w !! q = Some Dir) ∧
  out (moveFile src dst w).2 = out w ∧
  printed (moveFile src dst w).2 = printed w ∧
  fault (moveFile src dst w).2 = fault w ∧
  now (moveFile src dst w).2 = now w.
Proof.
  destruct (moveFile src dst w) as [r w'] eqn:E. cbn [fst snd].
  apply moveFile_outcome in E.
  inversion E as [ | | | | e chunk Hopen _ Hcreate _
                  | data t f _ _ Hcreate Hsrc | data t _ _ Hcreate Hsrc ];
    subst; clear E; cbn [fs upd]; try done.
  - assert (fs w !! dst = None) as Hdst.
    { destruct Hcreate as (_ & Hd & _). by destruct dst. }
    split; [intros q _ Hq; by rewrite lookup_insert_ne|]. split; [|done].
    intros q. destruct (decide (q = dst)) as [->|].
    + rewrite lookup_insert_eq, Hdst. naive_solver.
    + by rewrite lookup_insert_ne.
  - assert (fs w !! dst = None) as Hdst.
    { destruct Hcreate as (_ & Hd & _). by destruct dst. }
    split; [intros q _ Hq; by rewrite lookup_insert_ne|]. split; [|done].
    intros q. destruct (decide (q = dst)) as [->|].
    + rewrite lookup_insert_eq, Hdst. naive_solver.
    + by rewrite lookup_insert_ne.
  - assert (fs w !! dst = None) as Hdst.
    { destruct Hcreate as (_ & Hd & _). by destruct dst. }
    apply lookup_node_file in Hsrc as [Hsrc _].
    split; [intros q Hq1 Hq2; by rewrite lookup_delete_ne, lookup_insert_ne|].
    split; [|done].
    intros q. destruct (decide (q = src)) as [->|].
    + rewrite lookup_delete_eq, Hsrc. naive_solver.
    + rewrite lookup_delete_ne by done. destruct (decide (q = dst)) as [->|].
      * rewrite lookup_insert_eq, Hdst. naive_solver.
      * by rewrite lookup_insert_ne.
Qed.

(** X4: [moveFile] closes what it opens.  Among the system calls of one
    [moveFile] no call is made twice; the source is closed when and only
    when it was opened, the destination when and only when it was created,
    and nothing else is ever closed. *)
Theorem moveFile_closes_what_it_opens (src dst : Path) (w w' : World)
    (r : option Error) :
  moveFile src dst w = (r, w') →
  ∃ ev, trace w' = ev ++ trace w ∧ NoDup ev ∧
    (Sys OpOpen src true ∈ ev → SysClose src ∈ ev) ∧
    (Sys OpCreate dst true ∈ ev → SysClose dst ∈ ev) ∧
    (∀ p, SysClose p ∈ ev →
       (p = src ∧ Sys OpOpen src true ∈ ev) ∨ (p = dst ∧ Sys OpCreate dst true ∈ ev)).
Proof.
  intros H. apply moveFile_outcome in H.
  inversion H as [ | | | | e chunk Hopen _ Hcreate _
                   | data t f _ _ Hcreate Hsrc | data t _ _ Hcreate Hsrc ];
    subst; clear H; (eexists; split; [reflexivity|]).
  1-4: split; [repeat (apply NoDup_cons; split; [set_unfold; naive_solver|]);
               apply NoDup_nil_2|]; set_unfold; naive_solver.
  - assert (src ≠ dst) by (eapply can_create_ne; [apply Hopen|done]).
    split; [repeat (apply NoDup_cons; split; [set_unfold; naive_solver|]);
            apply NoDup_nil_2|]; set_unfold; naive_solver.
  - assert (src ≠ dst) by (eapply can_create_ne; [|done]; eauto).
    split; [repeat (apply NoDup_cons; split; [set_unfold; naive_solver|]);
            apply NoDup_nil_2|]; set_unfold; naive_solver.
  - assert (src ≠ dst) by (eapply can_create_ne; [|done]; eauto).
    split; [repeat (apply NoDup_cons; split; [set_unfold; naive_solver|]);
            apply NoDup_nil_2|]; set_unfold; naive_solver.
Qed.

Lemma X4_witness :
  moveFile ex_src ex_dst ex_world = (None, ex_moved_world) ∧
  ∃ ev, trace ex_moved_world = ev ++ trace ex_world ∧
        SysClose ex_src ∈ ev ∧ SysClose ex_dst ∈ ev.
Proof.
  assert (moveFile ex_src ex_dst ex_world = (None, ex_moved_world)) as H
    by (vm_compute; reflexivity).
  split; [exact H|].
  destruct (moveFile_closes_what_it_opens ex_src ex_dst ex_world ex_moved_world None H)
    as (ev & Htrace & _ & Ho & Hc & _).
  exists ev. split; [exact Htrace|].
  assert (ev = [Sys OpRemove ex_src true; SysClose ex_dst; SysClose ex_src;
                SysCopy ex_dst ex_src true; Sys OpCreate ex_dst true;
                Sys OpStat ex_dst false; Sys OpOpen ex_src true]) as Hev.
  { apply (app_inv_tail (trace ex_world)). rewrite <- Htrace. vm_compute. reflexivity. }
  split; [apply Ho | apply Hc]; rewrite Hev; repeat constructor.
Defined.

(** ** The legacy [moveFile] *)

(** Without faults the legacy [moveFile] moves a file to a free place. *)
Lemma legacy_creates src dst data t w :
  lookup_node w src = Some (File data t) →
  lookup_node w dst = None →
  lookup_node w (parent dst) = Some Dir →
  (∀ op p, fault w op p = None) →
  Legacy.moveFile src dst w
  = (None,
     upd (delete src (<[dst := File data (now w)]> (fs w)))
       [Sys OpRemove src true; SysClose dst; SysClose src; SysCopy dst src true;
        Sys OpCreate dst true; Sys OpOpen src true] w).
Proof.
  intros Hs Hd Hpar Hf. unfold Legacy.moveFile.
  assert (src ≠ dst) as Hne by (intros ->; congruence).
  rewrite os_Open_present by (split; eauto).
  unfold os_Create. rewrite sys_upd, Hf, !lookup_node_upd_same, Hd, Hpar.
  change (emit (Sys OpCreate dst true) _)
    with (upd (<[dst := File "" (now w)]> (fs w))
            [Sys OpCreate dst true; Sys OpOpen src true] w).
  rewrite io_Copy_fresh, lookup_node_upd_same, Hs, !Hf by done.
  rewrite !f_Close_upd. cbn [h_path].
  rewrite os_Remove_file with (data := data) (t := t).
  - by rewrite Hf.
  - destruct src; [done|]. cbn [lookup_node fs upd]. by rewrite lookup_insert_ne.
Qed.

(** X5: asked to move a file onto itself (the callback does so for a file
    that lies directly in the target directory), the legacy [moveFile]
    truncates the file, copies nothing, deletes it and reports success: the
    file is lost.  The [moveFile] of main.go returns the conflict error and
    leaves the file as it is. *)
Theorem legacy_move_onto_itself_destroys (p : Path) (data : string) (t : Z)
    (w : World) :
  lookup_node w p = Some (File data t) →
  (∀ op q, fault w op q = None) →
  (Legacy.moveFile p p w).1 = None ∧
  fs (Legacy.moveFile p p w).2 = delete p (fs w) ∧
  (moveFile p p w).1 = Some (ETargetExists p) ∧
  fs (moveFile p p w).2 = fs w.
Proof.
  intros Hp Hf.
  rewrite (legacy_overwrites p p data t data t w Hp Hp Hf).
  rewrite (moveFile_conflict p p w (File data t)) by (try split; eauto).
  cbn [fst snd fs upd]. by rewrite delete_insert_eq.
Qed.

Lemma X5_witness :
  lookup_node ex_world ex_src = Some (File "abcd" 5) ∧
  (Legacy.moveFile ex_src ex_src ex_world).1 = None ∧
  fs (Legacy.moveFile ex_src ex_src ex_world).2 !! ex_src = None ∧
  fs (moveFile ex_src ex_src ex_world).2 !! ex_src = Some (File "abcd" 5).
Proof.
  assert (lookup_node ex_world ex_src = Some (File "abcd" 5)) as Hs
    by (vm_compute; reflexivity).
  assert (∀ op q, fault ex_world op q = None) as Hf by reflexivity.
  destruct (legacy_move_onto_itself_destroys ex_src "abcd" 5 ex_world Hs Hf)
    as (Hnone & Hfs & _ & Hkeep).
  split; [exact Hs|]. split; [exact Hnone|].
  rewrite Hfs, Hkeep. split; [apply lookup_delete_eq | vm_compute; reflexivity].
Defined.

(** X6: two files with the same base name, moved one after the other to the
    same destination.  The legacy [moveFile] reports success twice and the
    second file replaces the first, whose bytes are lost; the [moveFile] of
    main.go moves the first, refuses the second with the conflict error and
    keeps it where it was. *)
Theorem legacy_name_clash_loses_first (s1 s2 dst : Path) (d1 d2 : string)
    (t1 t2 : Z) (w : World) :
  s1 ≠ s2 →
  lookup_node w s1 = Some (File d1 t1) →
  lookup_node w s2 = Some (File d2 t2) →
  lookup_node w dst = None →
  lookup_node w (parent dst) = Some Dir →
  (∀ op p, fault w op p = None) →
  (∃ w1 w2,
     Legacy.moveFile s1 dst w = (None, w1) ∧ Legacy.moveFile s2 dst w1 = (None, w2) ∧
     fs w2 = delete s2 (delete s1 (<[dst := File d2 (now w)]> (fs w)))) ∧
  (∃ w1 w2,
     moveFile s1 dst w = (None, w1) ∧
     moveFile s2 dst w1 = (Some (ETargetExists dst), w2) ∧
     fs w2 = delete s1 (<[dst := File d1 (now w)]> (fs w))).
Proof.
  intros Hne Hs1 Hs2 Hd Hpar Hf.
  assert (s1 ≠ dst) as Hne1 by (intros ->; congruence).
  assert (s2 ≠ dst) as Hne2 by (intros ->; congruence).
  apply lookup_node_file in Hs2 as Hfile2. destruct Hfile2 as [Hfile2 Hs2ne].
  assert (dst ≠ []) as Hdne by (intros ->; done).
  set (m1 := delete s1 (<[dst := File d1 (now w)]> (fs w))).
  assert (∀ evs, lookup_node (upd m1 evs w) s2 = Some (File d2 t2)) as Hs2'.
  { intros evs. destruct s2; [done|]. cbn [lookup_node fs upd]. unfold m1.
    by rewrite lookup_delete_ne, lookup_insert_ne. }
  assert (∀ evs, lookup_node (upd m1 evs w) dst = Some (File d1 (now w))) as Hd'.
  { intros evs. destruct dst; [done|]. cbn [lookup_node fs upd]. unfold m1.
    by rewrite lookup_delete_ne, lookup_insert_eq. }
  split.
  - eexists _, _. split; [exact (legacy_creates s1 dst d1 t1 w Hs1 Hd Hpar Hf)|]. split.
    + exact (legacy_overwrites s2 dst d2 t2 d1 (now w) _ (Hs2' _) (Hd' _) Hf).
    + cbn [fs upd now]. rewrite decide_False by done. fold m1. unfold m1.
      rewrite <- delete_insert_ne by done. by rewrite insert_insert_eq.
  - assert (movable w s1 dst) as Hmov by (unfold movable, can_create; eauto 12).
    apply moveFile_movable in Hmov as (d0 & t0 & Hsrc0 & Hmov). simplify_eq.
    eexists _, _. split; [exact Hmov|]. split.
    + eapply moveFile_conflict; [|apply Hf|apply Hd'].
      split; [apply Hf|]. eexists. apply Hs2'.
    + done.
Qed.

Lemma X6_witness :
  (Legacy.moveFile ["src"; "x"; "a.bin"] ["dst"; "a.bin"] ex_clash_world).1 = None ∧
  ∃ w1 w2,
    Legacy.moveFile ["src"; "x"; "a.bin"] ["dst"; "a.bin"] ex_clash_world = (None, w1) ∧
    Legacy.moveFile ["src"; "y"; "a.bin"] ["dst"; "a.bin"] w1 = (None, w2) ∧
    fs w2 = delete ["src"; "y"; "a.bin"]
              (delete ["src"; "x"; "a.bin"]
                 (<[["dst"; "a.bin"] := File "second" 1000]> (fs ex_clash_world))).
Proof.
  destruct (legacy_name_clash_loses_first ["src"; "x"; "a.bin"] ["src"; "y"; "a.bin"]
              ["dst"; "a.bin"] "first" "second" 5 6 ex_clash_world)
    as ((w1 & w2 & H1 & H2 & Hfs) & _);
    [discriminate | vm_compute; reflexivity | vm_compute; reflexivity
    | vm_compute; reflexivity | vm_compute; reflexivity | reflexivity |].
  split; [by rewrite H1|]. exists w1, w2. split; [exact H1|]. split; [exact H2|exact Hfs].
Defined.

(** ** Walks: what holds of every finished walk

    [R] relates the worlds before and after every call of the callback on
    a path with [P], whatever the call returns; it then relates the worlds
    before and after every walk that returns. *)
Section walk_rel.
Context (walkFn : WalkFunc) (R : World → World → Prop) (P : Path → Prop).
Context (R_refl : ∀ w, R w w).
Context (R_trans : ∀ w1 w2 w3, R w1 w2 → R w2 w3 → R w1 w3).
Context (R_emit : ∀ e w, R w (emit e w)).
Context (P_child : ∀ p n, P p → P (p ++ [n])).
Context (R_entry : ∀ p info w r w',
           P p → fresh_info w p info → walkFn p (Entry info) w = (r, w') → R w w').
Context (R_failure : ∀ p e w r w', walkFn p (Failure e) w = (r, w') → R w w').

Lemma walk_names_rel rec path names :
  (∀ name fi w r w', fresh_info w (path ++ [name]) fi →
     rec (path ++ [name]) fi w = Some (r, w') → R w w') →
  ∀ w r w', walk_names rec walkFn path names w = Some (r, w') → R w w'.
Proof.
  intros Hrec. induction names as [|name rest IH]; intros w r w' Hw; simpl in Hw.
  { simplify_eq. apply R_refl. }
  destruct (os_Lstat (path ++ [name]) w) as [rl w1] eqn:Hl.
  apply os_Lstat_inv in Hl as [(e & -> & ->)|(fi & -> & -> & Hfi)].
  - destruct (walkFn _ (Failure e) _) as [[e'|] w2] eqn:Hcall.
    + simplify_eq. eapply R_trans; [apply R_emit|]. eapply R_failure; eassumption.
    + eapply R_trans; [apply R_emit|].
      eapply R_trans; [eapply R_failure; eassumption|]. eapply IH; eassumption.
  - destruct (rec _ fi _) as [[[e'|] w2]|] eqn:Hcall; [| |done].
    + simplify_eq. eapply R_trans; [apply R_emit|].
      eapply Hrec; [|done]. by apply fresh_info_emit.
    + eapply R_trans; [apply R_emit|].
      eapply R_trans; [eapply Hrec; [|done]; by apply fresh_info_emit|]. eapply IH; eassumption.
Qed.

Lemma walk_rel k :
  ∀ path info w r w',
    P path → fresh_info w path info →
    walk k walkFn path info w = Some (r, w') → R w w'.
Proof.
  induction k as [|k IH]; intros path info w r w' HP Hfi Hw; [done|].
  simpl in Hw. destruct (fi_isdir info) eqn:Hdir; simpl in Hw.
  2:{ injection Hw as Hw. eapply R_entry; eassumption. }
  destruct (readDirNames path w) as [rd w1] eqn:Hrd.
  apply readDirNames_inv in Hrd as Hw1. destruct Hw1 as [ok ->].
  destruct rd as [names|e].
  2:{ injection Hw as Hw. eapply R_trans; [apply R_emit|]. eapply R_failure; eassumption. }
  destruct (walkFn path (Entry info) _) as [[e1|] w2] eqn:Hcall.
  { simplify_eq. eapply R_trans; [apply R_emit|].
    eapply R_entry; [done| |done]. by apply fresh_info_emit. }
  eapply R_trans; [apply R_emit|].
  eapply R_trans; [eapply R_entry; [done| |done]; by apply fresh_info_emit|].
  eapply walk_names_rel; [|done].
  intros name fi w3 r3 w3' Hfi3 Hrec. eapply IH; [|done|done]. by apply P_child.
Qed.

Lemma Walk_rel fuel root w r w' :
  P root → Walk fuel root walkFn w = Some (r, w') → R w w'.
Proof.
  intros HP. unfold Walk.
  destruct (os_Lstat root w) as [rl w1] eqn:Hl.
  apply os_Lstat_inv in Hl as [(e & -> & ->)|(fi & -> & -> & Hfi)].
  - intros [= Hw]. eapply R_trans; [apply R_emit|]. eapply R_failure; eassumption.
  - intros Hw. eapply R_trans; [apply R_emit|].
    eapply walk_rel; [done| |done]. by apply fresh_info_emit.
Qed.
End walk_rel.

(** ** The source directory is missing or is a file *)



Lemma prefix_snoc (s p : Path) n : s `prefix_of` p → s `prefix_of` p ++ [n].
Proof. apply prefix_app_r. Qed.

(** ** One transfer, seen from the walk *)

(** The three things [moveFile] can do to the file system. *)
Lemma moveFile_effect src dst w r w' :
  moveFile src dst w = (r, w') →
  out w' = out w ∧
  (fs w' = fs w
   ∨ (fs w !! dst = None ∧ ∃ chunk, fs w' = <[dst := File chunk (now w)]> (fs w))
   ∨ (r = None ∧ fs w !! dst = None ∧ src ≠ dst ∧
      ∃ d t, fs w !! src = Some (File d t)
             ∧ fs w' = delete src (<[dst := File d (now w)]> (fs w)))).
Proof.
  intros H. apply moveFile_outcome in H.
  inversion H as [ | | | | e chunk Hopen _ Hcreate _
                  | data t f _ _ Hcreate Hsrc | data t _ _ Hcreate Hsrc ];
    subst; clear H; (split; [done|]); cbn [fs upd]; eauto.
  - right; left. split; [|eauto]. destruct Hcreate as (_ & Hd & _). by destruct dst.
  - right; left. split; [|eauto]. destruct Hcreate as (_ & Hd & _). by destruct dst.
  - right; right. split; [done|].
    split; [destruct Hcreate as (_ & Hd & _); by destruct dst|].
    split; [eapply can_create_ne; eauto|].
    apply lookup_node_file in Hsrc as [Hsrc _]. eauto.
Qed.

Lemma moved_rel_refl s t m w : moved_rel s t m w w.
Proof.
  split; [apply run_rel_refl|eauto| |].
  - intros q Hn [x Hx]. congruence.
  - exists []. split; [done|]. constructor.
Qed.

Lemma visit_moved_rel s t m p info w r w' :
  s `prefix_of` p → fresh_info w p info →
  visit t m p (Entry info) w = (r, w') → moved_rel s t m w w'.
Proof.
  intros Hp Hfi Hv.
  assert (run_rel t m w w') as Hrun.
  { pose proof (visit_run_rel t m p info w Hfi) as H. by rewrite Hv in H. }
  apply visit_inv in Hv as [(_ & _ & ->)|(Hq & w1 & Hmove & ->)].
  { apply moved_rel_refl. }
  destruct Hfi as (n & Hn & ->).
  destruct n as [data t0|]; [|done].
  apply lookup_node_file in Hn as [Hfile Hpne].
  assert (candidate s m w p) as Hcand.
  { split; [done|]. exists data, t0. split; [done|].
    unfold qualifies in Hq. simpl in Hq. by apply Z.leb_le. }
  cbn [info_of fi_name] in *.
  apply moveFile_effect in Hmove as (Hout & Hfs).
  split; [done| | |].
  - intros q x Hqx. cbn [log fs].
    destruct Hfs as [->|[(Hd & chunk & ->)|(-> & Hd & Hne & d & t1 & Hs & ->)]].
    + by left.
    + left. rewrite lookup_insert_ne; [done|congruence].
    + destruct (decide (q = p)) as [->|Hqp].
      * right. rewrite lookup_delete_eq. split; [done|]. split; [done|].
        exists d, t1. split; [congruence|].
        by rewrite lookup_delete_ne, lookup_insert_eq.
      * left. rewrite lookup_delete_ne, lookup_insert_ne; [done|congruence|done].
  - intros q Hnone [x Hx]. cbn [log fs] in Hx. exists p. split; [done|].
    destruct Hfs as [Hfs|[(Hd & chunk & Hfs)|(_ & Hd & Hne & d & t1 & Hs & Hfs)]];
      rewrite Hfs in Hx.
    + congruence.
    + destruct (decide (q = t ++ [base p])); [done|].
      rewrite lookup_insert_ne in Hx by done. congruence.
    + destruct (decide (q = t ++ [base p])); [done|].
      destruct (decide (q = p)) as [->|]; [by rewrite lookup_delete_eq in Hx|].
      rewrite lookup_delete_ne, lookup_insert_ne in Hx by done. congruence.
  - eexists [_]. split; [cbn [log out]; by rewrite Hout|].
    constructor; [|constructor]. exists p. split; [done|]. cbn [text].
    destruct r; eauto.
Qed.

(** ** The logger's file

    Every line that [log] writes also goes to the log file, so between two
    calls of the callback the log file may have grown.  The lemmas of this
    section are about [Logged.processDirectory] with the logger
    [file_writer format logFile] that [main] builds, for any rendering
    [format] of a line. *)

Lemma append_assoc (a b c : string) : (a +:+ b) +:+ c = a +:+ (b +:+ c).
Proof.
  induction a as [|x a IH]; [done|].
  change (String x ((a +:+ b) +:+ c) = String x (a +:+ (b +:+ c))). by rewrite IH.
Qed.

(** What one write of the logger does: nothing but to append the bytes of
    the line to the log file, if that still is a file. *)
Lemma file_writer_effect format logFile l w :
  fault (file_writer format logFile l w) = fault w ∧
  now (file_writer format logFile l w) = now w ∧
  printed (file_writer format logFile l w) = printed w ∧
  out (file_writer format logFile l w) = out w ∧
  (fs (file_writer format logFile l w) = fs w
   ∨ ∃ d t, fs w !! h_path logFile = Some (File d t)
            ∧ fs (file_writer format logFile l w)
              = <[h_path logFile := File (d +:+ format l) (now w)]> (fs w)).
Proof.
  unfold file_writer, f_Write, sys.
  destruct (fault w OpWrite (h_path logFile)); [cbn; eauto 10|].
  destruct (lookup_node w (h_path logFile)) as [[d t|]|] eqn:Hn; [|cbn; eauto 10..].
  apply lookup_node_file in Hn as [Hf _].
  unfold append_at. rewrite Hf. cbn. split_and!; [done..|]. right. eauto.
Qed.

Lemma file_writer_lookup format logFile l w q :
  q ≠ h_path logFile → fs (file_writer format logFile l w) !! q = fs w !! q.
Proof.
  intros Hq.
  destruct (file_writer_effect format logFile l w)
    as (_ & _ & _ & _ & [->|(d & t & _ & ->)]); [done|].
  by rewrite lookup_insert_ne.
Qed.

Lemma file_writer_none format logFile l w q :
  fs w !! q = None → fs (file_writer format logFile l w) !! q = None.
Proof.
  intros Hq.
  destruct (file_writer_effect format logFile l w)
    as (_ & _ & _ & _ & [->|(d & t & Hlf & ->)]); [done|].
  rewrite lookup_insert_ne; [done|congruence].
Qed.

Lemma file_writer_dirs format logFile l w p :
  lookup_node (file_writer format logFile l w) p = Some Dir ↔ lookup_node w p = Some Dir.
Proof.
  destruct p as [|a p]; [done|]. cbn [lookup_node].
  destruct (file_writer_effect format logFile l w)
    as (_ & _ & _ & _ & [->|(d & t & Hlf & ->)]); [done|].
  destruct (decide (a :: p = h_path logFile)) as [Heq|Hne].
  - rewrite Heq, lookup_insert_eq, Hlf. naive_solver.
  - by rewrite lookup_insert_ne.
Qed.

Lemma logged_rel_refl lf t m w : logged_rel lf t m w w.
Proof.
  split; [done|done|done|done|done| |].
  - intros p Hn [x Hx]. congruence.
  - exists []. split; [done|]. constructor.
Qed.

Lemma logged_rel_trans lf t m w1 w2 w3 :
  logged_rel lf t m w1 w2 → logged_rel lf t m w2 w3 → logged_rel lf t m w1 w3.
Proof.
  intros [Hf1 Hn1 Hp1 Hd1 Hs1 Hnew1 (new1 & Ho1 & Hl1)]
         [Hf2 Hn2 Hp2 Hd2 Hs2 Hnew2 (new2 & Ho2 & Hl2)].
  split; try congruence.
  - intros p. by rewrite Hd2, Hd1.
  - eauto.
  - intros p Hnone Hsome.
    destruct (fs w2 !! p) eqn:E; [apply Hnew1; eauto | apply Hnew2; eauto].
  - exists (new2 ++ new1). split; [by rewrite Ho2, Ho1, app_assoc|].
    apply Forall_app. split; [|done].
    eapply Forall_impl; [done|]. intros l (src & Ht & Hbig).
    exists src. split; [done|]. intros Hne d t0 Hsrc.
    destruct (decide (m ≤ Z.of_nat (String.length d))%Z) as [|Hlt]; [done|].
    apply (Hbig Hne d t0). apply Hs1; [done|done|lia].
Qed.

Lemma logged_rel_emit lf t m e w : logged_rel lf t m w (emit e w).
Proof.
  split; [done|done|done| | | |].
  - intros p. by rewrite lookup_node_emit.
  - done.
  - intros p Hn [x Hx]. simpl in Hx. congruence.
  - exists []. split; [done|]. constructor.
Qed.

Lemma logged_rel_depth lf t m n w w' :
  logged_rel lf t m w w' → depth_below n w → depth_below n w'.
Proof. intros [_ _ _ Hd _ _ _] Hdepth p Hp. apply Hdepth. by apply Hd. Qed.

(** A step of a logger without file is a step of any logger with one. *)
Lemma run_rel_logged lf t m w w' : run_rel t m w w' → logged_rel lf t m w w'.
Proof.
  intros [Hf Hn Hp Hd Hs Hnew (new & Ho & Hl)].
  split; [done|done|done|done|eauto|done|].
  exists new. split; [done|]. eapply Forall_impl; [done|].
  intros l (src & Ht & Hbig). exists src. eauto.
Qed.

Lemma file_writer_logged_rel format logFile t m l w :
  logged_rel (h_path logFile) t m w (file_writer format logFile l w).
Proof.
  destruct (file_writer_effect format logFile l w) as (Hf & Hn & Hp & Ho & _).
  split; [done|done|done| | | |].
  - apply file_writer_dirs.
  - intros p d t0 Hne Hq _. by rewrite file_writer_lookup.
  - intros p Hq [x Hx]. by rewrite file_writer_none in Hx.
  - exists []. split; [done|]. constructor.
Qed.

Lemma Logged_visit_failure logger t m p e w :
  Logged.visit logger t m p (Failure e) w = (Some e, w).
Proof. done. Qed.

Lemma Logged_visit_skip logger t m p info w :
  qualifies m info = false → Logged.visit logger t m p (Entry info) w = (None, w).
Proof. intros Hq. unfold Logged.visit. fold (qualifies m info). by rewrite Hq. Qed.

Lemma visit_skip t m p info w :
  qualifies m info = false → visit t m p (Entry info) w = (None, w).
Proof. intros Hq. unfold visit. fold (qualifies m info). by rewrite Hq. Qed.

(** A call that attempts a transfer is the call of the callback without
    log file, followed by one write of the logger. *)
Lemma Logged_visit_entry logger t m p info w :
  qualifies m info = true →
  ∃ l, Logged.visit logger t m p (Entry info) w
       = ((visit t m p (Entry info) w).1, logger l (visit t m p (Entry info) w).2).
Proof.
  intros Hq. unfold Logged.visit, visit. fold (qualifies m info). rewrite Hq.
  destruct (moveFile p (t ++ [fi_name info]) w) as [[e|] w1]; eexists; reflexivity.
Qed.

(** Every call of the callback, whatever it returns. *)
Lemma Logged_visit_rel format logFile t m p info w :
  fresh_info w p info →
  logged_rel (h_path logFile) t m w
    (Logged.visit (file_writer format logFile) t m p (Entry info) w).2.
Proof.
  intros Hfi. destruct (qualifies m info) eqn:Hq.
  - destruct (Logged_visit_entry (file_writer format logFile) t m p info w Hq) as [l ->].
    cbn [snd]. eapply logged_rel_trans; [|apply file_writer_logged_rel].
    by apply run_rel_logged, visit_run_rel.
  - rewrite Logged_visit_skip by done. apply logged_rel_refl.
Qed.

Lemma Logged_visit_none format logFile t m p info w w' :
  fresh_info w p info →
  Logged.visit (file_writer format logFile) t m p (Entry info) w = (None, w') →
  logged_rel (h_path logFile) t m w w'.
Proof.
  intros Hfi Hv.
  pose proof (Logged_visit_rel format logFile t m p info w Hfi) as H. by rewrite Hv in H.
Qed.

Lemma Logged_visit_failure_none format logFile t m p e w w' :
  Logged.visit (file_writer format logFile) t m p (Failure e) w = (None, w') →
  logged_rel (h_path logFile) t m w w'.
Proof. by rewrite Logged_visit_failure. Qed.

Lemma Logged_processDirectory_spec format logFile s t m N w fuel :
  depth_below N w → N < fuel →
  ∃ r w',
    Logged.processDirectory fuel s t m (file_writer format logFile) w = Some (r, w')
    ∧ logged_rel (h_path logFile) t m w w'.
Proof.
  intros Hd Hfuel. unfold Logged.processDirectory.
  set (lf := h_path logFile).
  destruct (Walk_spec (Logged.visit (file_writer format logFile) t m)
              (logged_rel lf t m) N
              (logged_rel_refl lf t m) (logged_rel_trans lf t m)
              (λ e w, logged_rel_emit lf t m e w) (logged_rel_depth lf t m N)
              (Logged_visit_none format logFile t m)
              (Logged_visit_failure_none format logFile t m)
              fuel s w Hfuel Hd)
    as ([r w'] & Hrun & Hnone & Herr).
  exists r, w'. split; [done|]. cbn [fst snd] in *.
  destruct r as [e|]; [|by apply Hnone].
  destruct (Herr e eq_refl) as (p & v & w0 & Hrel & Hv & Hfi).
  eapply logged_rel_trans; [done|]. destruct v as [info|e'].
  - pose proof (Logged_visit_rel format logFile t m p info w0 (Hfi _ eq_refl)) as H.
    by rewrite Hv in H.
  - rewrite Logged_visit_failure in Hv. simplify_eq. apply logged_rel_refl.
Qed.

(** What one visit of a qualifying entry does: the transfer is attempted
    and exactly one line about it is written, to the stream and to the log
    file. *)
Lemma Logged_visit_qualifying logger t m p info w :
  qualifies m info = true →
  ∃ r w1 msg ev ok,
    moveFile p (t ++ [fi_name info]) w = (r, w1) ∧
    Logged.visit logger t m p (Entry info) w = (r, Logged.log logger msg w1) ∧
    trace w1 = ev ++ [Sys OpOpen p ok] ++ trace w ∧
    out w1 = out w ∧
    match r with
    | None => msg = MMoved p (t ++ [fi_name info])
    | Some e => msg = MMoveError p (t ++ [fi_name info]) e
    end.
Proof.
  intros Hq.
  destruct (visit_qualifying t m p info w Hq) as (r & w1 & msg & ev & ok & Hmove & _ & Hev & Hmsg).
  exists r, w1, msg, ev, ok. split; [done|].
  split; [|split; [done|split; [by apply moveFile_effect in Hmove as [? _]|done]]].
  unfold Logged.visit. fold (qualifies m info). rewrite Hq, Hmove.
  by destruct r; subst msg.
Qed.

(** C2: the callback of [processDirectory] skips directories and transfers
    a file exactly when the size that [Lstat] reports for it at the visit is
    at least the minimum: visiting a directory or a smaller file changes
    nothing at all (no move, no log line), visiting any other file attempts
    the transfer and writes one line about it to the standard output and to
    the log file.  Over a whole run, with the logger of [main] writing to
    its log file in the same file system, every file below the threshold
    other than the log file stays where and as it was, and no line of the
    run has such a file as its source.  The log file grows with every line
    and is judged, like every entry, by its size when the walk comes to
    it. *)
Theorem processDirectory_filters_by_size (sourceDir targetDir : Path)
    (minFileSize : Z) (format : Line → string) (logFile : Handle) (w : World) :
  (∀ path info w0,
     (fi_isdir info = true →
        Logged.visit (file_writer format logFile) targetDir minFileSize path
          (Entry info) w0 = (None, w0)) ∧
     (fi_isdir info = false → (fi_size info < minFileSize)%Z →
        Logged.visit (file_writer format logFile) targetDir minFileSize path
          (Entry info) w0 = (None, w0)) ∧
     (fi_isdir info = false → (minFileSize ≤ fi_size info)%Z →
        ∃ r w1 msg ev ok,
          moveFile path (targetDir ++ [fi_name info]) w0 = (r, w1) ∧
          Logged.visit (file_writer format logFile) targetDir minFileSize path
            (Entry info) w0
          = (r, Logged.log (file_writer format logFile) msg w1) ∧
          trace w1 = ev ++ [Sys OpOpen path ok] ++ trace w0 ∧
          out (Logged.log (file_writer format logFile) msg w1)
          = {| stamp := now w0; text := msg |} :: out w0 ∧
          match r with
          | None => msg = MMoved path (targetDir ++ [fi_name info])
          | Some e => msg = MMoveError path (targetDir ++ [fi_name info]) e
          end) ∧
     (fi_isdir info = false →
        (minFileSize ≤ fi_size info)%Z
        ↔ (Logged.visit (file_writer format logFile) targetDir minFileSize path
             (Entry info) w0).2 ≠ w0)) ∧
  (∀ fuel, depth_bound w < fuel →
     ∃ r w',
       Logged.processDirectory fuel sourceDir targetDir minFileSize
         (file_writer format logFile) w = Some (r, w') ∧
       (∀ p d t, p ≠ h_path logFile → fs w !! p = Some (File d t) →
          (Z.of_nat (String.length d) < minFileSize)%Z →
          fs w' !! p = Some (File d t)) ∧
       ∃ new, out w' = new ++ out w ∧
         ∀ l src dst d t, l ∈ new → line_transfer l = Some (src, dst) →
           src ≠ h_path logFile →
           fs w !! src = Some (File d t) →
           (minFileSize ≤ Z.of_nat (String.length d))%Z).
Proof.
  set (logger := file_writer format logFile).
  split.
  - intros path info w0.
    assert (fi_isdir info = false → (minFileSize ≤ fi_size info)%Z →
            qualifies minFileSize info = true) as Hq.
    { intros Hf Hs. unfold qualifies. rewrite Hf. by apply Z.leb_le in Hs as ->. }
    assert (fi_isdir info = false → (minFileSize ≤ fi_size info)%Z →
            ∃ r w1 msg ev ok,
              moveFile path (targetDir ++ [fi_name info]) w0 = (r, w1) ∧
              Logged.visit logger targetDir minFileSize path (Entry info) w0
              = (r, Logged.log logger msg w1) ∧
              trace w1 = ev ++ [Sys OpOpen path ok] ++ trace w0 ∧
              out (Logged.log logger msg w1)
              = {| stamp := now w0; text := msg |} :: out w0 ∧
              match r with
              | None => msg = MMoved path (targetDir ++ [fi_name info])
              | Some e => msg = MMoveError path (targetDir ++ [fi_name info]) e
              end) as Hbig.
    { intros Hf Hs.
      destruct (Logged_visit_qualifying logger targetDir minFileSize path info w0)
        as (r & w1 & msg & ev & ok & Hmove & Hv & Hev & Hout & Hmsg); [by apply Hq|].
      exists r, w1, msg, ev, ok. split_and!; [done|done|done| |done].
      unfold Logged.log, logger.
      destruct (file_writer_effect format logFile {| stamp := now w1; text := msg |}
                  (log msg w1)) as (_ & _ & _ & -> & _).
      cbn [log out]. rewrite Hout. do 2 f_equal.
      apply moveFile_outcome in Hmove. by inversion Hmove; subst. }
    split; [|split; [|split]].
    + intros Hd. apply Logged_visit_skip. unfold qualifies. by rewrite Hd.
    + intros Hf Hs. apply Logged_visit_skip. unfold qualifies. rewrite Hf.
      by apply Z.leb_gt in Hs as ->.
    + exact Hbig.
    + intros Hf. split.
      * intros Hs.
        destruct (Hbig Hf Hs) as (r & w1 & msg & ev & ok & _ & -> & _ & Hout & _).
        cbn [snd]. intros Heq. rewrite Heq in Hout.
        apply (f_equal List.length) in Hout. simpl in Hout. lia.
      * intros Hne. destruct (decide (minFileSize ≤ fi_size info)%Z) as [|Hlt]; [done|].
        rewrite Logged_visit_skip in Hne; [done|]. unfold qualifies. rewrite Hf.
        apply Z.leb_gt. lia.
  - intros fuel Hfuel.
    destruct (Logged_processDirectory_spec format logFile sourceDir targetDir minFileSize
                _ w fuel (depth_bound_ok w) Hfuel) as (r & w' & Hrun & Hrel).
    exists r, w'. split; [done|].
    destruct Hrel as [_ _ _ _ Hsmall _ (new & Hout & Hlines)].
    split; [done|]. exists new. split; [done|].
    intros l src dst d t Hl Ht Hne Hsrc.
    rewrite Forall_forall in Hlines.
    destruct (Hlines l Hl) as (src' & Htext & Hbig).
    assert (src' = src) as ->.
    { unfold line_transfer in Ht. destruct Htext as [Htext|[e Htext]];
        rewrite Htext in Ht; by simplify_eq. }
    eauto.
Qed.

Lemma C2_witness :
  depth_bound ex_logged_world < 5 ∧
  ∃ r w',
    Logged.processDirectory 5 ["src"] ["dst"] 3 (file_writer ex_format ex_log_file)
      ex_logged_world = Some (r, w')
    ∧ fs w' !! ["src"; "b.bin"] = Some (File "ab" 5).
Proof.
  assert (depth_bound ex_logged_world < 5) as Hfuel by (vm_compute; lia).
  split; [exact Hfuel|].
  destruct (proj2 (processDirectory_filters_by_size ["src"] ["dst"] 3 ex_format
                     ex_log_file ex_logged_world) 5 Hfuel)
    as (r & w' & Hrun & Hsmall & _).
  exists r, w'. split; [exact Hrun|].
  apply Hsmall; [discriminate | vm_compute; reflexivity | vm_compute; reflexivity].
Defined.

(** ** The fate of every file in a run *)

Lemma logged_moved_refl lf s t m w : logged_moved_rel lf s t m w w.
Proof.
  split; [apply logged_rel_refl|eauto| |].
  - intros q Hn [x Hx]. congruence.
  - intros d t0 Hlf. left. exists "", t0. by rewrite append_empty_r.
Qed.

Lemma logged_moved_emit lf s t m e w : logged_moved_rel lf s t m w (emit e w).
Proof.
  split; [apply logged_rel_emit|eauto| |].
  - intros q Hn [x Hx]. simpl in Hx. congruence.
  - intros d t0 Hlf. left. exists "", t0. by rewrite append_empty_r.
Qed.

(** A step of the callback without log file. *)
Lemma moved_rel_logged lf s t m w w' :
  moved_rel s t m w w' → logged_moved_rel lf s t m w w'.
Proof.
  intros [Hrun Hkept Hnew _]. split.
  - by apply run_rel_logged.
  - intros q x _ Hq.
    destruct (Hkept q x Hq) as [H|(Hgone & Hc & d & t0 & -> & Hdst)]; [by left|].
    right. split; [done|]. split; [done|]. by exists d, t0.
  - intros q Hq Hsome.
    destruct (Hnew q Hq Hsome) as (src & [Hp (d & t0 & Hs & Hsize)] & ->).
    exists src, d, t0. eauto.
  - intros d t0 Hlf.
    destruct (Hkept lf _ Hlf) as [H|(Hgone & [Hp _] & d' & t1 & Heq & Hdst)].
    + left. exists "", t0. by rewrite append_empty_r.
    + right. split; [done|]. split; [done|]. exists "". rewrite append_empty_r. congruence.
Qed.

(** A write of the logger. *)
Lemma file_writer_logged_moved format logFile s t m l w :
  logged_moved_rel (h_path logFile) s t m w (file_writer format logFile l w).
Proof.
  split.
  - apply file_writer_logged_rel.
  - intros q x Hne Hq. left. by rewrite file_writer_lookup.
  - intros q Hq [x Hx]. by rewrite file_writer_none in Hx.
  - intros d t0 Hlf. left.
    destruct (file_writer_effect format logFile l w)
      as (_ & _ & _ & _ & [->|(d' & t1 & Hlf' & ->)]).
    + exists "", t0. by rewrite append_empty_r.
    + exists (format l), (now w). rewrite lookup_insert_eq. congruence.
Qed.

Lemma logged_moved_trans lf s t m w1 w2 w3 :
  apart s t →
  logged_moved_rel lf s t m w1 w2 → logged_moved_rel lf s t m w2 w3 →
  logged_moved_rel lf s t m w1 w3.
Proof.
  intros Hap [Hr1 Hk1 Hn1 Hl1] [Hr2 Hk2 Hn2 Hl2].
  assert (now w2 = now w1) as Hnow by (by destruct Hr1).
  assert (∀ q, q ≠ lf → candidate s m w2 q → candidate s m w1 q) as Hback.
  { intros q Hq [Hp (d & t0 & Hf & Hsize)]. split; [done|]. exists d, t0. split; [|done].
    destruct (fs w1 !! q) as [x|] eqn:E.
    - destruct (Hk1 q x Hq E) as [H|[H _]]; congruence.
    - destruct (Hn1 q E) as (src & ? & ? & _ & _ & _ & ->); [by eexists|].
      by apply Hap in Hp. }
  assert (∀ q, s `prefix_of` q → fs w2 !! q = None → fs w3 !! q = None) as Hgone.
  { intros q Hp Hq. destruct (fs w3 !! q) eqn:E; [|done].
    destruct (Hn2 q Hq) as (src & ? & ? & _ & _ & _ & ->); [by eexists|].
    by apply Hap in Hp. }
  assert (∀ n y, t ++ [n] ≠ lf → fs w2 !! (t ++ [n]) = Some y →
            fs w3 !! (t ++ [n]) = Some y) as Hstay.
  { intros n y Hq Hy.
    destruct (Hk2 _ _ Hq Hy) as [H|(_ & [Hp _] & _)]; [done|]. by apply Hap in Hp. }
  split.
  - by eapply logged_rel_trans.
  - intros q x Hne Hq.
    destruct (Hk1 q x Hne Hq) as [Hq2|(Hq2 & Hc & d & t0 & -> & Hdst)].
    + destruct (Hk2 q x Hne Hq2) as [Hq3|(Hq3 & Hc & d & t0 & -> & Hdst)]; [by left|].
      right. split; [done|]. split; [by apply Hback|].
      exists d, t0. split; [done|]. by rewrite <- Hnow.
    + right. split; [apply Hgone; [by destruct Hc|done]|]. split; [done|].
      exists d, t0. split; [done|]. intros Hd. apply Hstay; [done|]. by apply Hdst.
  - intros q Hq Hsome. destruct (fs w2 !! q) as [y|] eqn:E.
    + apply Hn1; [done|by eexists].
    + destruct (Hn2 q E Hsome) as (src & d & t0 & Hp & Hs & Hc & ->).
      assert (is_Some (fs w1 !! src)) as [x Hx].
      { destruct (fs w1 !! src) eqn:E1; [by eexists|].
        destruct (Hn1 src E1) as (src' & ? & ? & _ & _ & _ & Heq); [by eexists|].
        rewrite Heq in Hp. by apply Hap in Hp. }
      destruct (decide (src = lf)) as [->|Hne].
      * destruct x as [d1 t1|]; [exists lf, d1, t1; eauto|].
        destruct lf as [|a lf].
        { apply prefix_nil_inv in Hp as ->. destruct (Hap "" (prefix_nil _)). }
        assert (lookup_node w2 (a :: lf) = Some Dir) as Hdir.
        { destruct Hr1 as [_ _ _ Hd _ _ _]. by apply Hd. }
        cbn [lookup_node] in Hdir. congruence.
      * destruct Hc as [|Hsize]; [done|].
        destruct (Hk1 src x Hne Hx) as [H|[H _]]; [|congruence].
        exists src, d, t0. split; [done|]. split; [congruence|]. eauto.
  - intros d t0 Hlf.
    destruct (Hl1 d t0 Hlf) as [(more & t1 & H2)|(Hp & H2 & more & Hdst)].
    + destruct (Hl2 _ _ H2) as [(more' & t2 & H3)|(Hp & H3 & more' & Hdst)].
      * left. exists (more +:+ more'), t2. by rewrite <- append_assoc.
      * right. split; [done|]. split; [done|].
        exists (more +:+ more'). by rewrite <- append_assoc, <- Hnow.
    + right. split; [done|]. split; [by apply Hgone|]. exists more.
      apply Hstay; [|done]. intros Heq. rewrite <- Heq in Hp. by apply Hap in Hp.
Qed.

Lemma Logged_visit_moved format logFile s t m p info w r w' :
  apart s t → s `prefix_of` p → fresh_info w p info →
  Logged.visit (file_writer format logFile) t m p (Entry info) w = (r, w') →
  logged_moved_rel (h_path logFile) s t m w w'.
Proof.
  intros Hap Hp Hfi. destruct (qualifies m info) eqn:Hq.
  - destruct (Logged_visit_entry (file_writer format logFile) t m p info w Hq) as [l ->].
    intros [= _ <-].
    eapply logged_moved_trans; [done| |apply file_writer_logged_moved].
    apply moved_rel_logged.
    eapply visit_moved_rel; [done|done|apply surjective_pairing].
  - rewrite Logged_visit_skip by done. intros [= _ <-]. apply logged_moved_refl.
Qed.

Lemma Logged_visit_failure_moved format logFile s t m p e w r w' :
  Logged.visit (file_writer format logFile) t m p (Failure e) w = (r, w') →
  logged_moved_rel (h_path logFile) s t m w w'.
Proof. rewrite Logged_visit_failure. intros [= _ <-]. apply logged_moved_refl. Qed.

Lemma Logged_walk_moved format logFile s t m k path info w r w' :
  apart s t → s `prefix_of` path → fresh_info w path info →
  walk k (Logged.visit (file_writer format logFile) t m) path info w = Some (r, w') →
  logged_moved_rel (h_path logFile) s t m w w'.
Proof.
  intros Hap.
  apply (walk_rel (Logged.visit (file_writer format logFile) t m)
           (logged_moved_rel (h_path logFile) s t m) (λ p, s `prefix_of` p)
           (logged_moved_refl _ s t m)
           (λ w1 w2 w3, logged_moved_trans _ s t m w1 w2 w3 Hap)
           (logged_moved_emit _ s t m) (prefix_snoc s)
           (λ p info w r w' Hp, Logged_visit_moved format logFile s t m p info w r w' Hap Hp)
           (Logged_visit_failure_moved format logFile s t m)).
Qed.

Lemma Logged_walk_names_moved format logFile s t m k path names w r w' :
  apart s t → s `prefix_of` path →
  walk_names (walk k (Logged.visit (file_writer format logFile) t m))
    (Logged.visit (file_writer format logFile) t m) path names w = Some (r, w') →
  logged_moved_rel (h_path logFile) s t m w w'.
Proof.
  intros Hap Hp.
  apply (walk_names_rel (Logged.visit (file_writer format logFile) t m)
           (logged_moved_rel (h_path logFile) s t m)
           (logged_moved_refl _ s t m)
           (λ w1 w2 w3, logged_moved_trans _ s t m w1 w2 w3 Hap)
           (logged_moved_emit _ s t m)
           (Logged_visit_failure_moved format logFile s t m)).
  intros name fi w0 r0 w0' Hfi. apply Logged_walk_moved; [done| |done].
  by apply prefix_snoc.
Qed.

Lemma Logged_processDirectory_moved format logFile s t m fuel w r w' :
  apart s t →
  Logged.processDirectory fuel s t m (file_writer format logFile) w = Some (r, w') →
  logged_moved_rel (h_path logFile) s t m w w'.
Proof.
  intros Hap. unfold Logged.processDirectory.
  apply (Walk_rel (Logged.visit (file_writer format logFile) t m)
           (logged_moved_rel (h_path logFile) s t m) (λ p, s `prefix_of` p)
           (logged_moved_refl _ s t m)
           (λ w1 w2 w3, logged_moved_trans _ s t m w1 w2 w3 Hap)
           (logged_moved_emit _ s t m) (prefix_snoc s)
           (λ p info w r w' Hp, Logged_visit_moved format logFile s t m p info w r w' Hap Hp)
           (Logged_visit_failure_moved format logFile s t m)).
  done.
Qed.

(** X8: a run of [processDirectory] loses no file, with the logger of
    [main] writing every line to its log file in the same file system.  With
    the target directory apart from the source tree, every file other than
    the log file is afterwards either where it was, with the bytes and the
    modification time it had, or it was a file of at least the minimum size
    under the source and is gone from there, its bytes being in the target
    directory under its base name (unless that is the path of the log file).
    Whatever appears is the destination of such a file or of the log file.
    The log file itself keeps the bytes it had as the beginning of its
    contents: where it was, grown by the lines of the run, or, when it lay
    under the source and was moved as it had grown to the minimum size, in
    the target directory.  This holds whether or not the run ends with an
    error. *)
Theorem processDirectory_loses_no_file (s t : Path) (m : Z) (format : Line → string)
    (logFile : Handle) (w : World) (fuel : nat) :
  apart s t →
  depth_bound w < fuel →
  ∃ r w',
    Logged.processDirectory fuel s t m (file_writer format logFile) w = Some (r, w') ∧
    (∀ q d t0, q ≠ h_path logFile → fs w !! q = Some (File d t0) →
       fs w' !! q = Some (File d t0)
       ∨ (fs w' !! q = None ∧ s `prefix_of` q
          ∧ (m ≤ Z.of_nat (String.length d))%Z
          ∧ (t ++ [base q] ≠ h_path logFile →
             fs w' !! (t ++ [base q]) = Some (File d (now w))))) ∧
    (∀ q, fs w !! q = None → is_Some (fs w' !! q) →
       ∃ src d t0, s `prefix_of` src ∧ fs w !! src = Some (File d t0)
                   ∧ (src = h_path logFile ∨ (m ≤ Z.of_nat (String.length d))%Z)
                   ∧ q = t ++ [base src]) ∧
    (∀ d t0, fs w !! h_path logFile = Some (File d t0) →
       (∃ more t1, fs w' !! h_path logFile = Some (File (d +:+ more) t1))
       ∨ (s `prefix_of` h_path logFile ∧ fs w' !! h_path logFile = None ∧
          ∃ more, fs w' !! (t ++ [base (h_path logFile)])
                  = Some (File (d +:+ more) (now w)))).
Proof.
  intros Hap Hfuel.
  destruct (Logged_processDirectory_spec format logFile s t m _ w fuel
              (depth_bound_ok w) Hfuel) as (r & w' & Hrun & _).
  exists r, w'. split; [done|].
  apply Logged_processDirectory_moved in Hrun as [_ Hkept Hnew Hlog]; [|done].
  split; [|split; [|done]].
  - intros q d t0 Hne Hq.
    destruct (Hkept _ _ Hne Hq)
      as [H|(Hgone & [Hp (d1 & t1 & Hq1 & Hsize)] & d2 & t2 & Heq & Hdst)];
      [by left|].
    right. simplify_eq. done.
  - intros q Hq Hsome.
    destruct (Hnew q Hq Hsome) as (src & d & t0 & Hp & Hs & Hc & ->).
    exists src, d, t0. eauto.
Qed.

Lemma X8_witness :
  apart ["logs"] ["dst"] ∧ depth_bound ex_log_source_world < 5 ∧
  ∃ r w',
    Logged.processDirectory 5 ["logs"] ["dst"] 5 (file_writer ex_format ex_log_file)
      ex_log_source_world = Some (r, w') ∧
    (fs w' !! ["logs"; "00.bin"] = Some (File "aaaaaaaaaa" 5)
     ∨ fs w' !! ["logs"; "00.bin"] = None
       ∧ fs w' !! ["dst"; "00.bin"] = Some (File "aaaaaaaaaa" 1000)) ∧
    ((∃ more t1, fs w' !! h_path ex_log_file = Some (File ("ab" +:+ more) t1))
     ∨ fs w' !! h_path ex_log_file = None
       ∧ ∃ more, fs w' !! ["dst"; "01-01-1970.log"] = Some (File ("ab" +:+ more) 1000)).
Proof.
  assert (apart ["logs"] ["dst"]) as Hap by (intros n [k Hk]; discriminate Hk).
  assert (depth_bound ex_log_source_world < 5) as Hfuel by (vm_compute; lia).
  split; [exact Hap|]. split; [exact Hfuel|].
  destruct (processDirectory_loses_no_file ["logs"] ["dst"] 5 ex_format ex_log_file
              ex_log_source_world 5 Hap Hfuel)
    as (r & w' & Hrun & Hkept & _ & Hlog).
  exists r, w'. split; [exact Hrun|]. split.
  - destruct (Hkept ["logs"; "00.bin"] "aaaaaaaaaa" 5%Z) as [H|(H1 & _ & _ & H2)];
      [discriminate | vm_compute; reflexivity | by left | right].
    split; [exact H1|]. apply H2. discriminate.
  - destruct (Hlog "ab" 900%Z) as [H|(_ & H1 & H2)];
      [vm_compute; reflexivity | by left | right].
    split; [exact H1 | exact H2].
Defined.

(** The log directory as source directory: the line about the first file
    carries the log file from two bytes past the minimum size of five, and
    the walk, coming to the log file next, moves it too; the line about that
    transfer no longer finds the file. *)
Example log_file_under_source_is_moved :
  ∃ w',
    Logged.processDirectory 5 ["logs"] ["dst"] 5 (file_writer ex_format ex_log_file)
      ex_log_source_world = Some (None, w') ∧
    fs w' !! ["logs"; "01-01-1970.log"] = None ∧
    fs w' !! ["dst"; "01-01-1970.log"] = Some (File "ab0123456789" 1000) ∧
    fs w' !! ["dst"; "00.bin"] = Some (File "aaaaaaaaaa" 1000) ∧
    text <$> out w'
    = [ MMoved ["logs"; "01-01-1970.log"] ["dst"; "01-01-1970.log"];
        MMoved ["logs"; "00.bin"] ["dst"; "00.bin"] ].
Proof. eexists. split; [vm_compute; reflexivity|]. vm_compute. done. Qed.

(** ** A run without error leaves nothing behind *)

Lemma reachable_dirs w w' p rel :
  (∀ q, lookup_node w' q = Some Dir ↔ lookup_node w q = Some Dir) →
  reachable w' p rel ↔ reachable w p rel.
Proof.
  intros Hdirs. revert p.
  induction rel as [|c rel IH]; intros p; simpl; [done|]. by rewrite Hdirs, IH.
Qed.

Lemma settled_but_mono lf s t m w w' p :
  apart s t → s `prefix_of` p →
  logged_moved_rel lf s t m w w' → settled_but lf m w p → settled_but lf m w' p.
Proof.
  intros Hap Hp [Hrun Hkept Hnew _] Hset rel d t0 Hreach Hne Hfile.
  apply lookup_node_file in Hfile as [Hf Hnil].
  assert (s `prefix_of` p ++ rel) as Hpq by (by apply prefix_app_r).
  destruct (fs w !! (p ++ rel)) as [x|] eqn:E.
  - destruct (Hkept _ _ Hne E) as [H|[H _]]; [|congruence].
    assert (x = File d t0) as -> by congruence.
    apply (Hset rel d t0); [|done|by destruct (p ++ rel)].
    destruct Hrun as [_ _ _ Hdirs _ _ _].
    exact (proj1 (reachable_dirs w w' p rel Hdirs) Hreach).
  - destruct (Hnew _ E) as (src & ? & ? & _ & _ & _ & Hq); [by eexists|].
    rewrite Hq in Hpq. by apply Hap in Hpq.
Qed.

Section settles.
Context (format : Line → string) (logFile : Handle).
Context (s t : Path) (m : Z) (Hap : apart s t).

Local Abbreviation logger := (file_writer format logFile).
Local Abbreviation lf := (h_path logFile).

Lemma Logged_walk_names_settles k path names :
  s `prefix_of` path →
  (∀ p info w w', s `prefix_of` p → fresh_info w p info →
     walk k (Logged.visit logger t m) p info w = Some (None, w') →
     settled_but lf m w' p) →
  ∀ w w',
    walk_names (walk k (Logged.visit logger t m)) (Logged.visit logger t m)
      path names w = Some (None, w') →
    ∀ name, name ∈ names → settled_but lf m w' (path ++ [name]).
Proof.
  intros Hp IHk. induction names as [|n rest IH]; intros w w' Hw name Hin.
  { by apply elem_of_nil in Hin. }
  simpl in Hw.
  destruct (os_Lstat (path ++ [n]) w) as [rl w1] eqn:Hl.
  apply os_Lstat_inv in Hl as [(e & -> & ->)|(fi & -> & -> & Hfi)].
  { done. }
  destruct (walk k (Logged.visit logger t m) (path ++ [n]) fi _)
    as [[[e'|] w2]|] eqn:Hcall; try done.
  apply elem_of_cons in Hin as [->|Hin]; [|by eapply IH].
  eapply settled_but_mono; [done|by apply prefix_snoc| |].
  - by eapply Logged_walk_names_moved.
  - eapply IHk; [by apply prefix_snoc| |done]. by apply fresh_info_emit.
Qed.

Lemma Logged_walk_settles k :
  ∀ p info w w',
    s `prefix_of` p → fresh_info w p info →
    walk k (Logged.visit logger t m) p info w = Some (None, w') →
    settled_but lf m w' p.
Proof.
  induction k as [|k IH]; intros p info w w' Hp Hfi Hw; [done|].
  cbn [walk] in Hw. destruct Hfi as (n & Hn & ->).
  destruct n as [data t0|]; cbn [info_of fi_isdir negb] in Hw.
  - (* a file: left where it is, or moved away *)
    apply (inj Some) in Hw.
    destruct (qualifies m (info_of p (File data t0))) eqn:Hq; cbn [info_of] in Hq.
    + destruct (Logged_visit_entry logger t m p _ w Hq) as [l Hl].
      rewrite Hl in Hw. clear Hl.
      destruct (visit t m p _ w) as [r0 w0] eqn:Hv.
      cbn [fst snd] in Hw. injection Hw as -> <-.
      apply visit_inv in Hv as [(Hq' & _)|(_ & w1 & Hmove & ->)]; [congruence|].
      apply moveFile_success in Hmove as (d0 & t1 & Hs & _ & _ & Hfs).
      apply lookup_node_file in Hn as [_ Hne].
      assert (∀ msg, lookup_node (logger l (log msg w1)) p = None) as Hgone.
      { intros msg. destruct p; [done|]. cbn [lookup_node].
        apply file_writer_none. cbn [log fs]. rewrite Hfs. apply lookup_delete_eq. }
      intros rel d t2 Hreach _ Hfile. destruct rel as [|c rel].
      * rewrite app_nil_r, Hgone in Hfile. done.
      * destruct Hreach as [Hdir _]. by rewrite Hgone in Hdir.
    + rewrite Logged_visit_skip in Hw by done. injection Hw as <-.
      intros rel d t1 Hreach _ Hfile. destruct rel as [|c rel].
      * rewrite app_nil_r in Hfile. assert (d = data) as -> by congruence.
        unfold qualifies in Hq. simpl in Hq. by apply Z.leb_gt.
      * destruct Hreach as [Hdir _]. congruence.
  - (* a directory: every entry of its listing is settled *)
    unfold readDirNames, os_ReadDir, sys in Hw.
    destruct (fault w OpReadDir p); [by (try rewrite Logged_visit_failure in Hw)|].
    rewrite Hn in Hw. rewrite Logged_visit_skip in Hw by done.
    set (w1 := emit (Sys OpReadDir p true) w) in *.
    pose proof (Logged_walk_names_settles k p _ Hp IH _ _ Hw) as Hkids.
    apply Logged_walk_names_moved with (s := s) in Hw as [Hrun Hkept Hnew _];
      [|done|done].
    intros rel d t1 Hreach Hne Hfile.
    destruct rel as [|c rel].
    { rewrite app_nil_r in Hfile.
      assert (lookup_node w' p = Some Dir) as Hdir.
      { destruct Hrun as [_ _ _ Hdirs _ _ _]. apply Hdirs.
        unfold w1. by rewrite lookup_node_emit. }
      congruence. }
    assert (p ++ c :: rel = (p ++ [c]) ++ rel) as Heq by (by rewrite <- app_assoc).
    destruct Hreach as [_ Hreach].
    assert (is_Some (fs w' !! (p ++ [c]))) as [y Hy].
    { destruct rel as [|c2 rel].
      - apply lookup_node_file in Hfile as [Hfile _]. by eexists.
      - destruct Hreach as [Hdir _]. exists Dir. by destruct p. }
    assert (is_Some (fs w !! (p ++ [c]))) as [x Hx].
    { change (fs w) with (fs w1).
      destruct (fs w1 !! (p ++ [c])) as [x|] eqn:E; [by eexists|].
      destruct (Hnew _ E) as (src & ? & ? & _ & _ & _ & Hq); [by eexists|].
      destruct (Hap (base src)). rewrite <- Hq. by apply prefix_snoc. }
    assert (c ∈ de_name <$> (entry_of <$> entries (fs w) p)) as Hc.
    { apply list_elem_of_fmap. exists (entry_of (c, x)). split; [done|].
      apply list_elem_of_fmap. exists (c, x). split; [done|].
      by apply elem_of_entries. }
    apply (Hkids c Hc rel d t1); [done|by rewrite <- Heq|by rewrite <- Heq].
Qed.
End settles.

(** ** A tree in which nothing is left to move *)

Lemma lookup_node_fs w w' p : fs w' = fs w → lookup_node w' p = lookup_node w p.
Proof. intros H. destruct p; [done|]. simpl. by rewrite H. Qed.

Lemma reachable_fs w w' p rel : fs w' = fs w → reachable w' p rel ↔ reachable w p rel.
Proof.
  intros H. revert p. induction rel as [|c rel IH]; intros p; simpl; [done|].
  by rewrite (lookup_node_fs w w'), IH.
Qed.

Lemma settled_fs m w w' p : fs w' = fs w → settled m w p → settled m w' p.
Proof.
  intros H Hset rel d t0 Hreach Hfile. apply (Hset rel d t0).
  - by apply (reachable_fs w w').
  - by rewrite <- (lookup_node_fs w w').
Qed.

Lemma settled_child m w p c :
  lookup_node w p = Some Dir → settled m w p → settled m w (p ++ [c]).
Proof.
  intros Hdir Hset rel d t0 Hreach Hfile. apply (Hset (c :: rel) d t0).
  - by split.
  - by rewrite <- app_assoc in Hfile.
Qed.

(** A callback that, like those of [processDirectory] with or without a
    log file, passes on the error of a failed [Lstat] or [ReadDir] and does
    nothing for an entry that does not qualify. *)
Section idle.
Context (walkFn : WalkFunc) (m : Z).
Context (walkFn_failure : ∀ p e w, walkFn p (Failure e) w = (Some e, w)).
Context (walkFn_skip : ∀ p info w,
           qualifies m info = false → walkFn p (Entry info) w = (None, w)).

Lemma walk_names_idle rec path names :
  (∀ name fi w r w', fresh_info w (path ++ [name]) fi →
     settled m w (path ++ [name]) →
     rec (path ++ [name]) fi w = Some (r, w') → fs w' = fs w ∧ out w' = out w) →
  ∀ w r w',
    lookup_node w path = Some Dir → settled m w path →
    walk_names rec walkFn path names w = Some (r, w') →
    fs w' = fs w ∧ out w' = out w.
Proof.
  intros Hrec. induction names as [|name rest IH]; intros w r w' Hdir Hset Hw.
  { simpl in Hw. by simplify_eq. }
  cbn [walk_names] in Hw.
  destruct (os_Lstat (path ++ [name]) w) as [rl w1] eqn:Hl.
  apply os_Lstat_inv in Hl as [(e & -> & ->)|(fi & -> & -> & Hfi)].
  { rewrite walkFn_failure in Hw. by simplify_eq. }
  destruct (rec _ fi _) as [[r2 w2]|] eqn:Hcall; [|done].
  apply Hrec in Hcall as [Hfs2 Hout2].
  2:{ by apply fresh_info_emit. }
  2:{ apply (settled_fs m w); [done|]. by apply settled_child. }
  cbn [fs out emit] in Hfs2, Hout2.
  destruct r2 as [e'|]; [by simplify_eq|].
  apply IH in Hw as [Hfs Hout].
  - split; congruence.
  - by rewrite (lookup_node_fs w w2).
  - by apply (settled_fs m w).
Qed.

Lemma walk_idle k :
  ∀ p info w r w',
    fresh_info w p info → settled m w p →
    walk k walkFn p info w = Some (r, w') → fs w' = fs w ∧ out w' = out w.
Proof.
  induction k as [|k IH]; intros p info w r w' Hfi Hset Hw; [done|].
  cbn [walk] in Hw. destruct Hfi as (n & Hn & ->).
  destruct n as [data t0|]; cbn [info_of fi_isdir negb] in Hw.
  - apply (inj Some) in Hw.
    rewrite walkFn_skip in Hw; [by simplify_eq|].
    assert (Z.of_nat (String.length data) < m)%Z as Hsmall.
    { apply (Hset [] data t0); [done|]. by rewrite app_nil_r. }
    unfold qualifies. simpl. by apply Z.leb_gt.
  - unfold readDirNames, os_ReadDir, sys in Hw.
    destruct (fault w OpReadDir p).
    { rewrite walkFn_failure in Hw. by simplify_eq. }
    rewrite Hn in Hw. rewrite walkFn_skip in Hw by done.
    apply (walk_names_idle (walk k walkFn)) in Hw.
    + done.
    + intros name fi w0 r0 w0' Hfi0 Hset0. by apply IH.
    + by rewrite lookup_node_emit.
    + by apply (settled_fs m w).
Qed.

Lemma Walk_idle fuel s w r w' :
  settled m w s →
  Walk fuel s walkFn w = Some (r, w') → fs w' = fs w ∧ out w' = out w.
Proof.
  intros Hset. unfold Walk.
  destruct (os_Lstat s w) as [rl w1] eqn:Hl.
  apply os_Lstat_inv in Hl as [(e & -> & ->)|(fi & -> & -> & Hfi)].
  { rewrite walkFn_failure. by intros [= _ <-]. }
  intros Hw. apply walk_idle in Hw.
  - done.
  - by apply fresh_info_emit.
  - by apply (settled_fs m w).
Qed.
End idle.

Lemma processDirectory_idle s t m fuel w r w' :
  settled m w s →
  processDirectory fuel s t m w = Some (r, w') → fs w' = fs w ∧ out w' = out w.
Proof. apply (Walk_idle (visit t m) m (visit_failure t m) (visit_skip t m)). Qed.

Lemma Logged_processDirectory_idle logger s t m fuel w r w' :
  settled m w s →
  Logged.processDirectory fuel s t m logger w = Some (r, w') →
  fs w' = fs w ∧ out w' = out w.
Proof.
  apply (Walk_idle (Logged.visit logger t m) m
           (Logged_visit_failure logger t m) (Logged_visit_skip logger t m)).
Qed.

(** X9: when no file that the walk of the source directory can come to has
    the minimum size, a run of [processDirectory] changes no file and no
    directory and writes no log line, whatever else it meets. *)
Theorem processDirectory_without_candidates (s t : Path) (m : Z) (w : World)
    (fuel : nat) :
  (∀ rel d t0, reachable w s rel → lookup_node w (s ++ rel) = Some (File d t0) →
     (Z.of_nat (String.length d) < m)%Z) →
  depth_bound w < fuel →
  ∃ r w', processDirectory fuel s t m w = Some (r, w') ∧ fs w' = fs w ∧ out w' = out w.
Proof.
  intros Hsmall Hfuel.
  destruct (processDirectory_spec s t m _ w fuel (depth_bound_ok w) Hfuel)
    as (r & w' & Hrun & _).
  exists r, w'. split; [done|]. by eapply processDirectory_idle.
Qed.

Lemma X9_witness :
  depth_bound ex_world < 5 ∧
  ∃ r w', processDirectory 5 ["src"] ["dst"] 10 ex_world = Some (r, w')
          ∧ fs w' = fs ex_world ∧ out w' = out ex_world.
Proof.
  assert (depth_bound ex_world < 5) as Hfuel by (vm_compute; lia).
  split; [exact Hfuel|].
  apply (processDirectory_without_candidates ["src"] ["dst"] 10 ex_world 5); [|exact Hfuel].
  intros rel d t0 _ Hq. apply lookup_node_file in Hq as [Hq _].
  assert (map_Forall (λ _ x, below 10 x = true) (fs ex_world)) as Hall
    by (apply (bool_decide_unpack _); vm_compute; reflexivity).
  apply Z.ltb_lt. exact (Hall _ _ Hq).
Defined.

Lemma Logged_processDirectory_settles format logFile s t m fuel w w' :
  apart s t →
  Logged.processDirectory fuel s t m (file_writer format logFile) w = Some (None, w') →
  settled_but (h_path logFile) m w' s.
Proof.
  intros Hap. unfold Logged.processDirectory, Walk.
  destruct (os_Lstat s w) as [rl w1] eqn:Hl.
  apply os_Lstat_inv in Hl as [(e & -> & ->)|(fi & -> & -> & Hfi)].
  { by rewrite Logged_visit_failure. }
  intros Hw. eapply (Logged_walk_settles format logFile s t m Hap); [done| |done].
  by apply fresh_info_emit.
Qed.

(** X10: a run of [processDirectory] that returns no error, with the logger
    of [main] writing every line to its log file in the same file system,
    has moved every file of at least the minimum size that lies under the
    source directory, the log file apart: each is gone from its place and its
    bytes are in the target directory under its base name (unless that is
    the path of the log file), however deep it lay; no file of that size
    that the walk can come to is left under the source, except possibly the
    log file, which may have grown after the walk passed it. *)
Theorem clean_run_moves_every_large_file (s t : Path) (m : Z)
    (format : Line → string) (logFile : Handle) (fuel : nat) (w w' : World) :
  apart s t →
  Logged.processDirectory fuel s t m (file_writer format logFile) w = Some (None, w') →
  (∀ rel d t0,
     reachable w s rel →
     s ++ rel ≠ h_path logFile →
     lookup_node w (s ++ rel) = Some (File d t0) →
     (m ≤ Z.of_nat (String.length d))%Z →
     fs w' !! (s ++ rel) = None ∧
     (t ++ [base (s ++ rel)] ≠ h_path logFile →
      fs w' !! (t ++ [base (s ++ rel)]) = Some (File d (now w)))) ∧
  (∀ rel d t0,
     reachable w' s rel →
     s ++ rel ≠ h_path logFile →
     lookup_node w' (s ++ rel) = Some (File d t0) →
     (Z.of_nat (String.length d) < m)%Z).
Proof.
  intros Hap Hrun.
  pose proof (Logged_processDirectory_moved format logFile s t m fuel w None w' Hap Hrun)
    as [Hrel Hkept _ _].
  pose proof (Logged_processDirectory_settles format logFile s t m fuel w w' Hap Hrun)
    as Hset.
  split; [|exact Hset].
  intros rel d t0 Hreach Hne Hfile Hsize.
  apply lookup_node_file in Hfile as [Hfile Hnil].
  destruct (Hkept _ _ Hne Hfile) as [Hstay|(Hgone & _ & d1 & t1 & Heq & Hdst)].
  - assert (Z.of_nat (String.length d) < m)%Z; [|lia].
    apply (Hset rel d t0); [|done|by destruct (s ++ rel)].
    destruct Hrel as [_ _ _ Hdirs _ _ _].
    exact (proj2 (reachable_dirs w w' s rel Hdirs) Hreach).
  - by simplify_eq.
Qed.

Lemma X10_witness :
  apart ["src"] ["dst"] ∧
  Logged.processDirectory 3 ["src"] ["dst"] 3 (file_writer ex_format ex_log_file)
    ex_logged_world = Some (None, ex_logged_after) ∧
  fs ex_logged_after !! ["src"; "sub"; "a.bin"] = None ∧
  fs ex_logged_after !! ["dst"; "a.bin"] = Some (File "abcd" 1000).
Proof.
  assert (apart ["src"] ["dst"]) as Hap by (intros n [k Hk]; discriminate Hk).
  assert (Logged.processDirectory 3 ["src"] ["dst"] 3 (file_writer ex_format ex_log_file)
            ex_logged_world = Some (None, ex_logged_after))
    as Hrun by (vm_compute; reflexivity).
  split; [exact Hap|]. split; [exact Hrun|].
  destruct (proj1 (clean_run_moves_every_large_file ["src"] ["dst"] 3 ex_format
                     ex_log_file 3 ex_logged_world ex_logged_after Hap Hrun)
              ["sub"; "a.bin"] "abcd" 5%Z) as [Hgone Hdst].
  - vm_compute. split; [reflexivity|]. split; [reflexivity|exact I].
  - discriminate.
  - vm_compute; reflexivity.
  - vm_compute; discriminate.
  - split; [exact Hgone|]. apply Hdst. discriminate.
Defined.

(** X11: running [processDirectory] again after a run that returned no
    error moves nothing, provided the log file of the logger does not lie
    under the source directory: the second run leaves every file and
    directory as the first left them and writes no log line.  (The first
    run's lines have made the log file grow, so a log file under the source
    directory could be a candidate of the second run.) *)
Theorem second_run_moves_nothing (s t : Path) (m : Z) (format : Line → string)
    (logFile : Handle) (fuel fuel2 : nat) (w w1 : World) :
  apart s t →
  ¬ s `prefix_of` h_path logFile →
  Logged.processDirectory fuel s t m (file_writer format logFile) w = Some (None, w1) →
  depth_bound w1 < fuel2 →
  ∃ r w2,
    Logged.processDirectory fuel2 s t m (file_writer format logFile) w1 = Some (r, w2)
    ∧ fs w2 = fs w1 ∧ out w2 = out w1.
Proof.
  intros Hap Hlf Hrun Hfuel.
  destruct (Logged_processDirectory_spec format logFile s t m _ w1 fuel2
              (depth_bound_ok w1) Hfuel) as (r & w2 & Hrun2 & _).
  exists r, w2. split; [done|].
  eapply Logged_processDirectory_idle; [|done].
  intros rel d t0 Hreach Hfile.
  apply (Logged_processDirectory_settles format logFile s t m fuel w w1 Hap Hrun rel d t0);
    [done| |done].
  intros Heq. apply Hlf. rewrite <- Heq. by apply prefix_app_r.
Qed.

Lemma X11_witness :
  apart ["src"] ["dst"] ∧
  ¬ ["src"] `prefix_of` h_path ex_log_file ∧
  Logged.processDirectory 3 ["src"] ["dst"] 3 (file_writer ex_format ex_log_file)
    ex_logged_world = Some (None, ex_logged_after) ∧
  depth_bound ex_logged_after < 5 ∧
  ∃ r w2,
    Logged.processDirectory 5 ["src"] ["dst"] 3 (file_writer ex_format ex_log_file)
      ex_logged_after = Some (r, w2) ∧
    fs w2 = fs ex_logged_after ∧ out w2 = out ex_logged_after.
Proof.
  assert (apart ["src"] ["dst"]) as Hap by (intros n [k Hk]; discriminate Hk).
  assert (¬ ["src"] `prefix_of` h_path ex_log_file) as Hlf
    by (intros [k Hk]; discriminate Hk).
  assert (Logged.processDirectory 3 ["src"] ["dst"] 3 (file_writer ex_format ex_log_file)
            ex_logged_world = Some (None, ex_logged_after))
    as Hrun by (vm_compute; reflexivity).
  assert (depth_bound ex_logged_after < 5) as Hfuel by (vm_compute; lia).
  split; [exact Hap|]. split; [exact Hlf|]. split; [exact Hrun|]. split; [exact Hfuel|].
  exact (second_run_moves_nothing ["src"] ["dst"] 3 ex_format ex_log_file 3 5
           ex_logged_world ex_logged_after Hap Hlf Hrun Hfuel).
Defined.

(** ** The retention sweep, in any world *)

Lemma cleanOldLogs_unlisted w :
  fault w OpReadDir logDir ≠ None ∨ fs w !! logDir ≠ Some Dir →
  ∃ e, cleanOldLogs w
       = log (MReadLogDirError e) (upd (fs w) [Sys OpReadDir logDir false] w).
Proof.
  intros H. unfold cleanOldLogs, os_ReadDir, sys.
  destruct (fault w OpReadDir logDir); [by eexists|].
  change (lookup_node w logDir) with (fs w !! logDir).
  destruct (fs w !! logDir) as [[]|]; try (by eexists). naive_solver.
Qed.

Lemma cleanOldLogs_listable w :
  (fault w OpReadDir logDir ≠ None ∨ fs w !! logDir ≠ Some Dir)
  ∨ (fault w OpReadDir logDir = None ∧ fs w !! logDir = Some Dir).
Proof.
  destruct (fault w OpReadDir logDir); [left; by left|].
  destruct (fs w !! logDir) as [[]|]; [left; by right|by right|left; by right].
Qed.

(** The sweep changes the file system only by removing files of the log
    directory; clock, faults and standard output stay. *)
Lemma cleanOldLogs_effect w :
  fault (cleanOldLogs w) = fault w ∧ now (cleanOldLogs w) = now w ∧
  printed (cleanOldLogs w) = printed w ∧
  ∀ q, fs (cleanOldLogs w) !! q = fs w !! q
       ∨ (fs (cleanOldLogs w) !! q = None
          ∧ ∃ n d t, q = log_path n ∧ fs w !! q = Some (File d t)).
Proof.
  destruct (cleanOldLogs_listable w) as [H|[Hf Hd]].
  { apply cleanOldLogs_unlisted in H as [e ->]. eauto. }
  rewrite cleanOldLogs_listed by done.
  set (w0 := upd (fs w) [Sys OpReadDir logDir true] w).
  destruct (sweep_spec (now w - 5 * 86400)%Z (entries (fs w) logDir)
              (NoDup_entries _ _) w0)
    as (evs & lines & Hfa & Hn & Hpr & _ & _ & Hfs & _).
  { intros n x Hin. by apply elem_of_entries in Hin. }
  split; [done|]. split; [done|]. split; [done|].
  intros q. rewrite Hfs.
  destruct (bool_decide (q ∈ log_path <$> (entries (fs w) logDir).*1)) eqn:Hin;
    [|by left].
  destruct (doomed (now w - 5 * 86400)%Z w0 q) eqn:Hdoom; [|by left].
  right. split; [done|].
  apply bool_decide_eq_true_1 in Hin. apply list_elem_of_fmap in Hin as (n & -> & _).
  unfold doomed, expired in Hdoom. cbn [fs w0 upd] in Hdoom.
  destruct (fs w !! log_path n) as [[d t|]|]; try done. by exists n, d, t.
Qed.


Lemma os_Stat_out p w : out (os_Stat p w).2 = out w.
Proof.
  unfold os_Stat, sys, stat_act. destruct (fault w OpStat p); [done|].
  by destruct (lookup_node w p).
Qed.

Lemma os_Remove_out p w : out (os_Remove p w).2 = out w.
Proof.
  unfold os_Remove, sys. destruct (fault w OpRemove p); [done|].
  destruct p, (lookup_node w _) as [[]|]; try done.
  by destruct (entries _ _).
Qed.

(** The lines of the sweep announce no source directory. *)
Lemma sweep_out cutoff files :
  ∀ w, ∃ lines, out (sweep cutoff files w) = lines ++ out w ∧ announced lines = [].
Proof.
  induction files as [|file rest IH]; intros w; cbn [sweep].
  { by exists []. }
  destruct (de_isdir file); [apply IH|].
  pose proof (os_Stat_out (logDir ++ [de_name file]) w) as Hs.
  destruct (os_Stat (logDir ++ [de_name file]) w) as [[info|e] w1]; cbn [snd] in Hs.
  - destruct (fi_mtime info <? cutoff)%Z.
    + pose proof (os_Remove_out (logDir ++ [de_name file]) w1) as Hr.
      destruct (os_Remove (logDir ++ [de_name file]) w1) as [[|e] w2]; cbn [snd] in Hr.
      * destruct (IH (log (MRemovedLog (de_name file)) w2)) as (lines & -> & Hann).
        eexists (lines ++ [_]). cbn [log out].
        split; [by rewrite Hr, Hs, <- app_assoc|].
        by rewrite announced_app, Hann.
      * destruct (IH (log (MRemoveLogError (de_name file) e) w2)) as (lines & -> & Hann).
        eexists (lines ++ [_]). cbn [log out].
        split; [by rewrite Hr, Hs, <- app_assoc|].
        by rewrite announced_app, Hann.
    + destruct (IH w1) as (lines & -> & Hann). exists lines. by rewrite Hs.
  - destruct (IH (log (MStatLogError (de_name file) e) w1)) as (lines & -> & Hann).
    eexists (lines ++ [_]). cbn [log out].
    split; [by rewrite Hs, <- app_assoc|].
    by rewrite announced_app, Hann.
Qed.

Lemma cleanOldLogs_out w :
  ∃ lines, out (cleanOldLogs w) = lines ++ out w ∧ announced lines = [].
Proof.
  unfold cleanOldLogs.
  assert (out (os_ReadDir logDir w).2 = out w) as Hrd.
  { unfold os_ReadDir, sys. destruct (fault w OpReadDir logDir); [done|].
    by destruct (lookup_node w logDir) as [[]|]. }
  destruct (os_ReadDir logDir w) as [[files|e] w1]; cbn [snd] in Hrd.
  - destruct (sweep_out (AddDate_days (now w1) (- logRetentionDays)) files w1)
      as (lines & -> & Hann).
    exists lines. by rewrite Hrd.
  - eexists [_]. cbn [log out]. by rewrite Hrd.
Qed.

(** ** Loading the configuration, in any world *)

Lemma loadOrCreateConfig_present path w text t :
  lookup_node w path = Some (File text t) →
  fault w OpOpen path = None → fault w OpRead path = None →
  loadOrCreateConfig path w
  = (match Json.Decode text with
     | Ok config => Ok config
     | Err err => Err (EWrap CtxReadConfig err)
     end,
     upd (fs w) [SysClose path; Sys OpRead path true; Sys OpOpen path true] w).
Proof.
  intros Hn Hfo Hfr.
  unfold loadOrCreateConfig. rewrite os_Open_present by (split; eauto).
  unfold f_Read. cbn [h_path]. rewrite sys_upd, Hfr, lookup_node_upd_same, Hn.
  by destruct (Json.Decode text).
Qed.

(** What [loadOrCreateConfig] does to the world: nothing but system calls,
    except that it may create the file when it is absent. *)
Lemma loadOrCreateConfig_effect path w r w1 :
  loadOrCreateConfig path w = (r, w1) →
  out w1 = out w ∧ printed w1 = printed w ∧ fault w1 = fault w ∧ now w1 = now w ∧
  (fs w1 = fs w
   ∨ (lookup_node w path = None ∧ fault w OpOpen path = None ∧
      ∃ text, fs w1 = <[path := File text (now w)]> (fs w))).
Proof.
  unfold loadOrCreateConfig, os_Open, sys.
  destruct (fault w OpOpen path) as [f|] eqn:Hfo.
  { rewrite IsNotExist_fault. intros; simplify_eq. eauto 10. }
  destruct (lookup_node w path) as [n|] eqn:Hn.
  - change (emit (Sys OpOpen path true) w) with (upd (fs w) [Sys OpOpen path true] w).
    unfold f_Read. cbn [h_path]. rewrite sys_upd, lookup_node_upd_same, Hn.
    destruct (fault w OpRead path).
    { intros; simplify_eq. eauto 10. }
    destruct n as [text t|]; [|intros; simplify_eq; eauto 10].
    destruct (Json.Decode text); intros; simplify_eq; eauto 10.
  - cbn [IsNotExist].
    change (emit (Sys OpOpen path false) w) with (upd (fs w) [Sys OpOpen path false] w).
    unfold os_Create. rewrite sys_upd, !lookup_node_upd_same, Hn.
    destruct (fault w OpCreate path).
    { intros; simplify_eq. eauto 10. }
    destruct (lookup_node w (parent path)) as [[]|];
      [intros; simplify_eq; eauto 10| |intros; simplify_eq; eauto 10].
    change (emit (Sys OpCreate path true) _)
      with (upd (<[path := File "" (now w)]> (fs w))
              [Sys OpCreate path true; Sys OpOpen path false] w).
    unfold f_Write. cbn [h_path]. rewrite sys_upd.
    assert (path ≠ []) as Hne by (intros ->; done).
    assert (lookup_node (upd (<[path:=File "" (now w)]> (fs w))
              [Sys OpCreate path true; Sys OpOpen path false] w) path
            = Some (File "" (now w))) as ->.
    { destruct path; [done|]. cbn [lookup_node fs upd]. by rewrite lookup_insert_eq. }
    destruct (fault w OpWrite path).
    { intros; simplify_eq. cbn. eauto 10. }
    unfold append_at. cbn [fs upd now]. rewrite lookup_insert_eq, insert_insert_eq.
    intros; simplify_eq. cbn. eauto 10.
Qed.

(** X13: [loadOrCreateConfig] never overwrites: it changes no path other
    than its own, it leaves the file system as it is whenever something
    exists at the path (readable or not, valid or not), and when opening
    fails for another reason than absence it returns that error and creates
    nothing.  It writes nothing to the logger or the standard output. *)
Theorem loadOrCreateConfig_never_overwrites (path : Path) (w : World) :
  (∀ q, q ≠ path → fs (loadOrCreateConfig path w).2 !! q = fs w !! q) ∧
  (is_Some (lookup_node w path) → fs (loadOrCreateConfig path w).2 = fs w) ∧
  (∀ f, fault w OpOpen path = Some f →
     (loadOrCreateConfig path w).1
       = Err (EWrap CtxOpenConfig (EOs OpOpen path (errno_of_fault f))) ∧
     fs (loadOrCreateConfig path w).2 = fs w) ∧
  out (loadOrCreateConfig path w).2 = out w ∧
  printed (loadOrCreateConfig path w).2 = printed w.
Proof.
  destruct (loadOrCreateConfig path w) as [r w1] eqn:E. cbn [fst snd].
  pose proof (loadOrCreateConfig_effect _ _ _ _ E) as (Hout & Hpr & _ & _ & Hfs).
  split; [|split; [|split; [|done]]].
  - intros q Hq. destruct Hfs as [->|(_ & _ & text & ->)]; [done|].
    by rewrite lookup_insert_ne.
  - intros [n Hn]. destruct Hfs as [->|(Hnone & _)]; [done|congruence].
  - intros f Hf. split.
    + revert E. unfold loadOrCreateConfig, os_Open, sys. rewrite Hf, IsNotExist_fault.
      by intros [= <- _].
    + destruct Hfs as [->|(_ & Hnone & _)]; [done|congruence].
Qed.

(** X14: when the default configuration cannot be written after the file
    was created, [loadOrCreateConfig] returns the write error and leaves the
    empty file behind; every later start finds that file, does not write the
    defaults again and fails with the end-of-input error of the decoder. *)
Theorem failed_default_write_leaves_empty_config (path : Path) (w : World) (f : Fault) :
  lookup_node w path = None →
  lookup_node w (parent path) = Some Dir →
  fault w OpOpen path = None →
  fault w OpCreate path = None →
  fault w OpWrite path = Some f →
  ∃ w1,
    loadOrCreateConfig path w
      = (Err (EWrap CtxWriteConfig (EOs OpWrite path (errno_of_fault f))), w1) ∧
    fs w1 = <[path := File "" (now w)]> (fs w) ∧
    ∀ w2, fs w2 = fs w1 →
      fault w2 OpOpen path = None → fault w2 OpRead path = None →
      (loadOrCreateConfig path w2).1 = Err (EWrap CtxReadConfig (EJson JEOF)) ∧
      fs (loadOrCreateConfig path w2).2 = fs w2.
Proof.
  intros Hnone Hpar Hfo Hfc Hfw.
  assert (path ≠ []) as Hne by (intros ->; done).
  eexists. split; [|split].
  - unfold loadOrCreateConfig. rewrite os_Open_absent by done. cbn [IsNotExist].
    unfold os_Create. rewrite sys_upd, Hfc, !lookup_node_upd_same, Hnone, Hpar.
    change (emit (Sys OpCreate path true) _)
      with (upd (<[path := File "" (now w)]> (fs w))
              [Sys OpCreate path true; Sys OpOpen path false] w).
    unfold f_Write. cbn [h_path]. rewrite sys_upd, Hfw. rewrite f_Close_upd.
    reflexivity.
  - done.
  - intros w2 Hfs Hfo2 Hfr2.
    rewrite (loadOrCreateConfig_present path w2 "" (now w)); [done| |done|done].
    destruct path; [done|]. cbn [lookup_node]. rewrite Hfs. cbn [fs upd].
    by rewrite lookup_insert_eq.
Qed.

Lemma X14_witness :
  ∃ w1,
    loadOrCreateConfig defaultConfigFile ex_no_write_world
      = (Err (EWrap CtxWriteConfig (EOs OpWrite defaultConfigFile ENOSPC)), w1) ∧
    fs w1 !! defaultConfigFile = Some (File "" 1000) ∧
    (loadOrCreateConfig defaultConfigFile w1).1 = Err (EWrap CtxReadConfig (EJson JEOF)).
Proof.
  destruct (failed_default_write_leaves_empty_config defaultConfigFile
              ex_no_write_world FNoSpace)
    as (w1 & Hload & Hfs & Hnext);
    [vm_compute; reflexivity | reflexivity | reflexivity | reflexivity
    | vm_compute; reflexivity |].
  exists w1. split; [exact Hload|]. split; [rewrite Hfs; apply lookup_insert_eq|].
  destruct (loadOrCreateConfig_effect _ _ _ _ Hload) as (_ & _ & Hfa & _).
  apply (Hnext w1 eq_refl); rewrite Hfa; reflexivity.
Defined.

(** ** The log file *)

Lemma os_MkdirAll_logDir w :
  os_MkdirAll logDir w
  = match fault w OpMkdir logDir with
    | Some f => (Err (EOs OpMkdir logDir (errno_of_fault f)),
                 emit (Sys OpMkdir logDir false) w)
    | None =>
        match fs w !! logDir with
        | Some Dir => (Ok tt, emit (Sys OpMkdir logDir true) (set_fs (fs w) w))
        | Some (File _ _) =>
            (Err (EOs OpMkdir logDir ENOTDIR), emit (Sys OpMkdir logDir false) w)
        | None =>
            (Ok tt, emit (Sys OpMkdir logDir true) (set_fs (<[logDir := Dir]> (fs w)) w))
        end
    end.
Proof.
  unfold os_MkdirAll, sys. destruct (fault w OpMkdir logDir); [done|].
  unfold logDir. cbn [mkdir_all app]. by destruct (fs w !! ["logs"]) as [[]|].
Qed.

Lemma os_OpenFile_log n w :
  os_OpenFile (log_path n) w
  = match fault w OpOpenFile (log_path n) with
    | Some f => (Err (EOs OpOpenFile (log_path n) (errno_of_fault f)),
                 emit (Sys OpOpenFile (log_path n) false) w)
    | None =>
        match fs w !! log_path n with
        | Some Dir => (Err (EOs OpOpenFile (log_path n) EISDIR),
                       emit (Sys OpOpenFile (log_path n) false) w)
        | Some (File _ _) =>
            (Ok {| h_path := log_path n |}, emit (Sys OpOpenFile (log_path n) true) w)
        | None =>
            match fs w !! logDir with
            | Some Dir =>
                (Ok {| h_path := log_path n |},
                 emit (Sys OpOpenFile (log_path n) true)
                   (set_fs (<[log_path n := File "" (now w)]> (fs w)) w))
            | Some (File _ _) =>
                (Err (EOs OpOpenFile (log_path n) ENOTDIR),
                 emit (Sys OpOpenFile (log_path n) false) w)
            | None =>
                (Err (EOs OpOpenFile (log_path n) ENOENT),
                 emit (Sys OpOpenFile (log_path n) false) w)
            end
        end
    end.
Proof.
  unfold os_OpenFile, sys. destruct (fault w OpOpenFile (log_path n)); [done|].
  change (lookup_node w (log_path n)) with (fs w !! log_path n).
  change (lookup_node w (parent (log_path n))) with (fs w !! logDir).
  destruct (fs w !! log_path n) as [[]|]; try done.
  by destruct (fs w !! logDir) as [[]|].
Qed.

Lemma log_path_ne n : log_path n ≠ logDir.
Proof. done. Qed.

Ltac fs_kept :=
  let q := fresh "q" in let x := fresh "x" in let Hq := fresh "Hq" in
  intros q x Hq; repeat (rewrite lookup_insert_ne by congruence); exact Hq.

Ltac fs_new :=
  let q := fresh "q" in let x := fresh "x" in
  let Hn := fresh "Hn" in let Hx := fresh "Hx" in
  intros q x Hn Hx;
  repeat match type of Hx with
         | <[?k := _]> _ !! q = _ =>
             destruct (decide (q = k)) as [->|?];
             [rewrite lookup_insert_eq in Hx; naive_solver
             |rewrite lookup_insert_ne in Hx by done]
         end;
  congruence.

Ltac fs_ok :=
  let h := fresh "h" in
  intros h [= <-]; cbn [h_path]; split_and!; try done;
  repeat (first [rewrite lookup_insert_eq | rewrite lookup_insert_ne by done]);
  eauto.

Ltac leaf :=
  cbn [fs out printed fault now emit set_fs h_path];
  split_and!; try done; try (intros; congruence); eauto;
  first [fs_kept | fs_new | fs_ok].

Lemma setupLogFile_effect w r w1 :
  setupLogFile w = (r, w1) →
  out w1 = out w ∧ printed w1 = printed w ∧ fault w1 = fault w ∧ now w1 = now w ∧
  (∀ q x, fs w !! q = Some x → fs w1 !! q = Some x) ∧
  (∀ q x, fs w !! q = None → fs w1 !! q = Some x →
     (q = logDir ∧ x = Dir)
     ∨ (q = log_path (logFileName (now w)) ∧ x = File "" (now w))) ∧
  (∀ d t, fs w !! logDir = Some (File d t) →
     ∃ e, r = Err (EWrap CtxMkLogDir e) ∧ fs w1 = fs w) ∧
  (∀ h, r = Ok h →
     h = {| h_path := log_path (logFileName (now w)) |} ∧
     fault w OpMkdir logDir = None ∧ fault w OpOpenFile (h_path h) = None ∧
     fs w1 !! logDir = Some Dir ∧ ∃ d t, fs w1 !! h_path h = Some (File d t)).
Proof.
  unfold setupLogFile. rewrite os_MkdirAll_logDir.
  destruct (fault w OpMkdir logDir) as [f|] eqn:Hfm.
  { intros [= <- <-]. leaf. }
  pose proof (log_path_ne (logFileName (now w))) as Hpne.
  destruct (fs w !! logDir) as [[d t|]|] eqn:Hd.
  - intros [= <- <-]. leaf.
  - fold (log_path (logFileName (now (emit (Sys OpMkdir logDir true) (set_fs (fs w) w))))).
    rewrite os_OpenFile_log. cbn [fs out printed fault now emit set_fs].
    set (p := log_path (logFileName (now w))) in *. clearbody p.
    destruct (fault w OpOpenFile p) as [f|] eqn:Hfo.
    { intros [= <- <-]. leaf. }
    rewrite Hd.
    destruct (fs w !! p) as [[d t|]|] eqn:Hp; intros [= <- <-]; leaf.
  - fold (log_path (logFileName (now (emit (Sys OpMkdir logDir true)
                                       (set_fs (<[logDir := Dir]> (fs w)) w))))).
    rewrite os_OpenFile_log. cbn [fs out printed fault now emit set_fs].
    set (p := log_path (logFileName (now w))) in *. clearbody p.
    destruct (fault w OpOpenFile p) as [f|] eqn:Hfo.
    { intros [= <- <-]. leaf. }
    rewrite lookup_insert_eq, lookup_insert_ne by done.
    destruct (fs w !! p) as [[d t|]|] eqn:Hp; intros [= <- <-]; leaf.
Qed.

(** X15: [setupLogFile] removes, truncates and changes nothing: every node
    stays as it is (an existing log file of the day keeps its bytes), and
    the only nodes that can appear are the log directory and the empty log
    file of the day.  A regular file in the place of the log directory makes
    it fail with the directory error and no change.  After a success the
    log directory and the file exist, and setting up again succeeds with the
    same file and changes nothing. *)
Theorem setupLogFile_keeps_existing_logs (w w1 : World) (r : result Handle) :
  setupLogFile w = (r, w1) →
  (∀ q x, fs w !! q = Some x → fs w1 !! q = Some x) ∧
  (∀ q, fs w !! q = None → is_Some (fs w1 !! q) →
     q = logDir ∨ q = log_path (logFileName (now w))) ∧
  (∀ d t, fs w !! logDir = Some (File d t) →
     ∃ e, r = Err (EWrap CtxMkLogDir e) ∧ fs w1 = fs w) ∧
  (∀ h, r = Ok h →
     h_path h = log_path (logFileName (now w)) ∧
     fs w1 !! logDir = Some Dir ∧
     (∃ d t, fs w1 !! h_path h = Some (File d t)) ∧
     ∃ w2, setupLogFile w1 = (Ok h, w2) ∧ fs w2 = fs w1).
Proof.
  intros Hsetup.
  destruct (setupLogFile_effect _ _ _ Hsetup)
    as (_ & _ & Hfa & Hnow & Hkept & Hnew & Hblocked & Hok).
  split; [done|]. split; [|split; [done|]].
  - intros q Hq [x Hx]. destruct (Hnew q x Hq Hx) as [[-> _]|[-> _]]; eauto.
  - intros h ->. destruct (Hok h eq_refl) as (-> & Hfm & Hfo & Hdir & d & t & Hfile).
    cbn [h_path] in *. split; [done|]. split; [done|]. split; [eauto|].
    unfold setupLogFile. rewrite os_MkdirAll_logDir, Hfa, Hfm, Hdir.
    cbn [now emit set_fs].
    fold (log_path (logFileName (now w1))).
    rewrite os_OpenFile_log. cbn [fs fault now emit set_fs].
    rewrite Hfa, Hnow, Hfo, Hfile. eexists. split; [reflexivity|done].
Qed.

Lemma X15_witness :
  ∃ h w1,
    setupLogFile ex_world = (Ok h, w1) ∧
    fs w1 !! logDir = Some Dir ∧
    fs w1 !! ["src"; "b.bin"] = Some (File "ab" 5) ∧
    ∃ w2, setupLogFile w1 = (Ok h, w2) ∧ fs w2 = fs w1.
Proof.
  exists (match (setupLogFile ex_world).1 with Ok h => h | Err _ => {| h_path := [] |} end),
         (setupLogFile ex_world).2.
  assert (setupLogFile ex_world
          = (Ok (match (setupLogFile ex_world).1 with
                 | Ok h => h
                 | Err _ => {| h_path := [] |}
                 end), (setupLogFile ex_world).2)) as H by (vm_compute; reflexivity).
  destruct (setupLogFile_keeps_existing_logs _ _ _ H) as (Hkept & _ & _ & Hok).
  destruct (Hok _ eq_refl) as (_ & Hdir & _ & Hagain).
  split; [exact H|]. split; [exact Hdir|]. split; [|exact Hagain].
  apply Hkept. vm_compute; reflexivity.
Defined.

(** ** [main] *)

Lemma depth_below_dirs N w w' :
  (∀ p, fs w' !! p = Some Dir → fs w !! p = Some Dir ∨ List.length p < N) →
  depth_below N w → depth_below N w'.
Proof.
  intros H Hd [|a p] Hp; [by apply (Hd [])|].
  destruct (H _ Hp) as [H1|H1]; [by apply Hd|done].
Qed.

(** X16: with a regular file in the place of the log directory [main]
    stops before it logs or moves anything: it prints one error (that of
    the configuration, or else that of the log directory) and returns, and
    no path other than that of the configuration file has changed. *)
Theorem main_stops_when_logs_is_a_file (fuel : nat) (w : World) (d : string) (t : Z) :
  fs w !! logDir = Some (File d t) →
  ∃ w' p,
    main fuel w = Some (Returned, w') ∧
    printed w' = p :: printed w ∧
    ((∃ e, p = PConfigError e) ∨ (∃ e, p = PLogFileError (EWrap CtxMkLogDir e))) ∧
    out w' = out w ∧
    (∀ q, q ≠ defaultConfigFile → fs w' !! q = fs w !! q).
Proof.
  intros Hlogs. unfold main.
  destruct (loadOrCreateConfig defaultConfigFile w) as [[config|e] w1] eqn:E;
    destruct (loadOrCreateConfig_effect _ _ _ _ E) as (Hout & Hpr & _ & _ & Hfs).
  - assert (∀ q, q ≠ defaultConfigFile → fs w1 !! q = fs w !! q) as Hframe.
    { intros q Hq. destruct Hfs as [->|(_ & _ & text & ->)]; [done|].
      by rewrite lookup_insert_ne. }
    destruct (setupLogFile w1) as [r2 w2] eqn:E2.
    destruct (setupLogFile_effect _ _ _ E2) as (Hout2 & Hpr2 & _ & _ & _ & _ & Hblocked & _).
    destruct (Hblocked d t) as (e & -> & Hfs2); [by rewrite Hframe|].
    eexists _, _. split; [reflexivity|]. cbn [printed out fs Printf].
    split; [by rewrite Hpr2, Hpr|]. split; [eauto|]. split; [congruence|].
    intros q Hq. rewrite Hfs2. by apply Hframe.
  - eexists _, _. split; [reflexivity|]. cbn [printed out fs Printf].
    split; [by rewrite Hpr|]. split; [eauto|]. split; [done|].
    intros q Hq. destruct Hfs as [->|(_ & _ & text & ->)]; [done|].
    by rewrite lookup_insert_ne.
Qed.

Lemma X16_witness :
  fs ex_blocked_world !! logDir = Some (File "x" 1) ∧
  ∃ w' p,
    main 5 ex_blocked_world = Some (Returned, w') ∧
    printed w' = p :: printed ex_blocked_world ∧
    out w' = out ex_blocked_world ∧
    fs w' !! ex_src = Some (File "abcd" 5).
Proof.
  assert (fs ex_blocked_world !! logDir = Some (File "x" 1)) as H
    by (vm_compute; reflexivity).
  split; [exact H|].
  destruct (main_stops_when_logs_is_a_file 5 ex_blocked_world "x" 1 H)
    as (w' & p & Hmain & Hpr & _ & Hout & Hframe).
  exists w', p. split; [exact Hmain|]. split; [exact Hpr|]. split; [exact Hout|].
  rewrite Hframe; [vm_compute; reflexivity | discriminate].
Defined.

(** X17: when the configuration loads, the log file can be set up and there
    is a target directory for every source directory, [main] returns
    normally (it does not panic, whatever the transfers do): its first log
    line is the start line, its last the finish line, in between it
    announced every configured source directory in order, and its last
    system call closed the log file. *)
Theorem main_completes (fuel : nat) (w w1 w2 : World) (config : Config)
    (logFile : Handle) :
  loadOrCreateConfig defaultConfigFile w = (Ok config, w1) →
  setupLogFile w1 = (Ok logFile, w2) →
  (List.length (SourceDirs config) ≤ List.length (TargetDirs config))%nat →
  depth_bound w < fuel → 2 < fuel →
  ∃ w' mid,
    main fuel w = Some (Returned, w') ∧
    text <$> out w' = MFinished :: (text <$> mid) ++ MStarted :: (text <$> out w) ∧
    announced mid = rev (SourceDirs config) ∧
    head (trace w') = Some (SysClose (log_path (logFileName (now w)))).
Proof.
  intros Hload Hsetup Hlen Hfuel Hfuel2.
  destruct (loadOrCreateConfig_effect _ _ _ _ Hload) as (Hout1 & _ & _ & Hnow1 & Hfs1).
  destruct (setupLogFile_effect _ _ _ Hsetup)
    as (Hout2 & _ & _ & _ & Hkept2 & Hnew2 & _ & Hok2).
  destruct (Hok2 _ eq_refl) as (-> & _).
  set (N := Nat.max (depth_bound w) 2).
  assert (depth_below N w) as Hd.
  { intros p Hp. pose proof (depth_bound_ok w p Hp). unfold N. lia. }
  assert (depth_below N w1) as Hd1.
  { revert Hd. apply depth_below_dirs. intros p Hp. left.
    destruct Hfs1 as [Hfs1|(_ & _ & text & Hfs1)]; rewrite Hfs1 in Hp; [done|].
    destruct (decide (p = defaultConfigFile)) as [->|];
      [by rewrite lookup_insert_eq in Hp|by rewrite lookup_insert_ne in Hp]. }
  assert (depth_below N w2) as Hd2.
  { revert Hd1. apply depth_below_dirs. intros p Hp.
    destruct (fs w1 !! p) as [x|] eqn:Hx.
    - left. apply Hkept2 in Hx. congruence.
    - right. destruct (Hnew2 p Dir Hx Hp) as [[-> _]|[_ ?]]; [|done].
      unfold N. simpl. lia. }
  set (w3 := cleanOldLogs (log MStarted w2)).
  assert (depth_below N w3) as Hd3.
  { apply (depth_below_dirs N (log MStarted w2)); [|by apply depth_below_log].
    intros p Hp. left.
    destruct (cleanOldLogs_effect (log MStarted w2)) as (_ & _ & _ & Hfs3).
    fold w3 in Hfs3. destruct (Hfs3 p) as [H|[H _]]; congruence. }
  destruct (pairs_spec config N fuel (SourceDirs config) ltac:(unfold N; lia)
              0%nat w3 Hd3 Hlen) as (w4 & Hpairs & _ & new & Hout4 & Hann).
  destruct (cleanOldLogs_out (log MStarted w2)) as (lines & Hout3 & Hann3).
  fold w3 in Hout3.
  unfold main. rewrite Hload, Hsetup. fold w3. rewrite Hpairs.
  eexists _, (new ++ lines). split; [reflexivity|].
  cbn [f_Close emit log out trace head h_path].
  split; [|split].
  - rewrite Hout4, Hout3. cbn [log out]. rewrite Hout2, Hout1.
    change (MFinished :: (text <$> new ++ lines ++
                            {| stamp := now w2; text := MStarted |} :: out w)
            = MFinished :: (text <$> new ++ lines) ++ MStarted :: (text <$> out w)).
    by rewrite !fmap_app, fmap_cons, <- app_assoc.
  - by rewrite announced_app, Hann, Hann3, app_nil_r.
  - by rewrite Hnow1.
Qed.

Lemma X17_witness :
  ∃ w' mid,
    main 5 ex_trailing_world = Some (Returned, w') ∧
    text <$> out w' = MFinished :: (text <$> mid) ++ [MStarted] ∧
    announced mid = ["src"].
Proof.
  destruct (main_completes 5 ex_trailing_world
              (loadOrCreateConfig defaultConfigFile ex_trailing_world).2
              (setupLogFile (loadOrCreateConfig defaultConfigFile ex_trailing_world).2).2
              {| SourceDirs := ["src"]; TargetDirs := ["dst"]; MinFileSize := 3 |}
              {| h_path := log_path (logFileName 1000) |})
    as (w' & mid & Hmain & Hout & Hann & _);
    [vm_compute; reflexivity | vm_compute; reflexivity | simpl; lia
    | vm_compute; lia | lia |].
  exists w', mid. split; [exact Hmain|]. split; [exact Hout | exact Hann].
Defined.

(** ** The legacy [processDirectory] and [main] *)

Lemma substring_empty n : substring 0 n "" = "".
Proof. by destruct n. Qed.

(** Copying a just truncated file onto itself copies nothing. *)
Lemma io_Copy_self dst m evs w :
  dst ≠ [] →
  io_Copy {| h_path := dst |} {| h_path := dst |}
      (upd (<[dst := File "" (now w)]> m) evs w) =
    match fault w OpRead dst, fault w OpWrite dst with
    | Some f, _ =>
        (Err (EOs OpRead dst (errno_of_fault f)),
         upd (<[dst := File "" (now w)]> m) (SysCopy dst dst false :: evs) w)
    | None, Some f =>
        (Err (EOs OpWrite dst (errno_of_fault f)),
         upd (<[dst := File "" (now w)]> m) (SysCopy dst dst false :: evs) w)
    | None, None =>
        (Ok 0%Z, upd (<[dst := File "" (now w)]> m) (SysCopy dst dst true :: evs) w)
    end.
Proof.
  intros Hne. unfold io_Copy. cbn [h_path].
  assert (lookup_node (upd (<[dst := File "" (now w)]> m) evs w) dst
          = Some (File "" (now w))) as ->.
  { destruct dst; [done|]. cbn. by rewrite lookup_insert_eq. }
  cbn [fault upd partial]. rewrite substring_empty.
  unfold append_at. cbn [fs upd now]. rewrite lookup_insert_eq, insert_insert_eq.
  by destruct (fault w OpRead dst), (fault w OpWrite dst).
Qed.

(** What the legacy [moveFile] can do to the file system: nothing; create,
    truncate or fill the destination, which is no directory; or that and
    delete the source, a file. *)
Ltac legacy_done :=
  cbn; split_and!; try done;
  first [ by left
        | right; split_and!; try done; eexists;
          first [by left | right; split_and!; try done; eauto] ].

Lemma legacy_moveFile_effect src dst w r w' :
  Legacy.moveFile src dst w = (r, w') →
  out w' = out w ∧ fault w' = fault w ∧ now w' = now w ∧ printed w' = printed w ∧
  (fs w' = fs w
   ∨ (dst ≠ [] ∧ fs w !! dst ≠ Some Dir ∧
      ∃ c, fs w' = <[dst := File c (now w)]> (fs w)
           ∨ (fs w' = delete src (<[dst := File c (now w)]> (fs w))
              ∧ src ≠ [] ∧ ∃ d t, fs w !! src = Some (File d t)))).
Proof.
  unfold Legacy.moveFile.
  destruct (os_Open src w) as [[h|e] w1] eqn:Hopen.
  2:{ apply os_Open_err in Hopen as ->. intros; simplify_eq; legacy_done. }
  apply os_Open_ok in Hopen as ((Hfo & nsrc & Hsrc) & -> & ->).
  assert (dst ≠ [] → fs w !! dst ≠ Some Dir →
    (src = dst → ∃ d t, nsrc = File d t) →
    match io_Copy {| h_path := dst |} {| h_path := src |}
            (upd (<[dst := File "" (now w)]> (fs w))
               [Sys OpCreate dst true; Sys OpOpen src true] w) with
    | (Err e, w4) =>
        (Some (EWrap CtxCopy e),
         f_Close {| h_path := src |} (f_Close {| h_path := dst |} w4))
    | (Ok _, w4) =>
        match os_Remove src (f_Close {| h_path := dst |}
                               (f_Close {| h_path := src |} w4)) with
        | (Err e, w5) => (Some (EWrap CtxRemoveSourceOld e), w5)
        | (Ok _, w5) => (None, w5)
        end
    end = (r, w') →
    out w' = out w ∧ fault w' = fault w ∧ now w' = now w ∧ printed w' = printed w ∧
    (fs w' = fs w
     ∨ (dst ≠ [] ∧ fs w !! dst ≠ Some Dir ∧
        ∃ c, fs w' = <[dst := File c (now w)]> (fs w)
             ∨ (fs w' = delete src (<[dst := File c (now w)]> (fs w))
                ∧ src ≠ [] ∧ ∃ d t, fs w !! src = Some (File d t))))) as Hgo.
  { intros Hdne Hnd Hself. destruct (decide (src = dst)) as [->|Hne].
    - (* the file is copied onto itself *)
      destruct (Hself eq_refl) as (d & t & ->).
      apply lookup_node_file in Hsrc as [Hsrc _].
      rewrite io_Copy_self by done.
      destruct (fault w OpRead dst); [intros; simplify_eq; legacy_done|].
      destruct (fault w OpWrite dst); [intros; simplify_eq; legacy_done|].
      rewrite !f_Close_upd. cbn [h_path].
      rewrite os_Remove_file with (data := "") (t := now w).
      2:{ destruct dst; [done|]. cbn. by rewrite lookup_insert_eq. }
      destruct (fault w OpRemove dst); intros; simplify_eq; legacy_done.
    - rewrite io_Copy_fresh, lookup_node_upd_same, Hsrc by done.
      destruct nsrc as [data t|].
      2:{ intros; simplify_eq; legacy_done. }
      destruct (fault w OpRead src); [intros; simplify_eq; legacy_done|].
      destruct (fault w OpWrite dst); [intros; simplify_eq; legacy_done|].
      rewrite !f_Close_upd. cbn [h_path].
      rewrite os_Remove_file with (data := data) (t := t).
      2:{ destruct src; [done|]. cbn. by rewrite lookup_insert_ne. }
      apply lookup_node_file in Hsrc as [Hsrc Hsne].
      destruct (fault w OpRemove src); intros; simplify_eq; legacy_done. }
  unfold os_Create. rewrite sys_upd, !lookup_node_upd_same.
  destruct (fault w OpCreate dst).
  { intros; simplify_eq; legacy_done. }
  destruct (lookup_node w dst) as [[d0 t0|]|] eqn:Hd.
  - apply lookup_node_file in Hd as Hd'. destruct Hd' as [Hd' Hdne].
    apply Hgo; [done|congruence|]. intros ->. rewrite Hd in Hsrc. simplify_eq. eauto.
  - intros; simplify_eq; legacy_done.
  - assert (dst ≠ [] ∧ fs w !! dst = None) as [Hdne Hd'] by (by destruct dst).
    destruct (lookup_node w (parent dst)) as [[]|];
      [intros; simplify_eq; legacy_done| |intros; simplify_eq; legacy_done].
    apply Hgo; [done|congruence|]. intros ->. congruence.
Qed.

Lemma legacy_rel_refl t w : legacy_rel t w w.
Proof.
  split; [done|done|done|done|done| |].
  - intros p Hn [x Hx]. congruence.
  - by exists [].
Qed.

Lemma legacy_rel_trans t w1 w2 w3 :
  legacy_rel t w1 w2 → legacy_rel t w2 w3 → legacy_rel t w1 w3.
Proof.
  intros [Hf1 Hn1 Hp1 Hd1 Hs1 Hnew1 (new1 & Ho1 & Hl1)]
         [Hf2 Hn2 Hp2 Hd2 Hs2 Hnew2 (new2 & Ho2 & Hl2)].
  split; try congruence.
  - intros p. by rewrite Hd2, Hd1.
  - eauto.
  - intros p Hnone Hsome.
    destruct (fs w2 !! p) eqn:E; [apply Hnew1; eauto | apply Hnew2; eauto].
  - exists (new2 ++ new1). split; [by rewrite Ho2, Ho1, app_assoc|].
    by rewrite announced_app, Hl2, Hl1.
Qed.

Lemma legacy_rel_emit t e w : legacy_rel t w (emit e w).
Proof.
  split; [done|done|done| |done| |].
  - intros p. by rewrite lookup_node_emit.
  - intros p Hn [x Hx]. simpl in Hx. congruence.
  - by exists [].
Qed.

Lemma legacy_rel_depth t n w w' :
  legacy_rel t w w' → depth_below n w → depth_below n w'.
Proof. intros [_ _ _ Hd _ _ _] Hdepth p Hp. apply Hdepth. by apply Hd. Qed.

Lemma legacy_visit_failure t p e w : LegacyMain.visit t p (Failure e) w = (Some e, w).
Proof. done. Qed.

(** Every call of the legacy callback, whatever it returns. *)
Lemma legacy_visit_rel t p info w :
  fresh_info w p info → legacy_rel t w (LegacyMain.visit t p (Entry info) w).2.
Proof.
  intros (n & Hn & ->). unfold LegacyMain.visit.
  destruct n as [data t0|]; [|apply legacy_rel_refl].
  cbn [info_of fi_isdir fi_size fi_name negb andb].
  destruct (LegacyMain.minFileSize <=? Z.of_nat (String.length data))%Z eqn:Hsize;
    [|apply legacy_rel_refl].
  apply Z.leb_le in Hsize.
  apply lookup_node_file in Hn as [Hfile Hpne].
  destruct (Legacy.moveFile p (t ++ [base p]) w) as [r w1] eqn:Hmove.
  apply legacy_moveFile_effect in Hmove as (Hout & Hfa & Hnow & Hpr & Hfs).
  assert (∀ msg, (msg = MMoved p (t ++ [base p])
                  ∨ ∃ e, msg = MMoveError p (t ++ [base p]) e) →
            legacy_rel t w (log msg w1)) as Hrel.
  { intros msg Hmsg.
    assert (∃ new, out (log msg w1) = new ++ out w ∧ announced new = []) as Hlines.
    { eexists [_]. split; [cbn [log out]; by rewrite Hout|].
      unfold announced. cbn. by destruct Hmsg as [->|[e ->]]. }
    destruct Hfs as [Hfs|(Hdne & Hnd & c & [Hfs|(Hfs & Hsne & d & t1 & Hs)])].
    - split; [done|done|done| | | |done].
      + intros [|a q]; [done|]. cbn. by rewrite Hfs.
      + intros q d t1 Hq _ _. cbn. by rewrite Hfs.
      + intros q Hq [x Hx]. cbn in Hx. rewrite Hfs in Hx. congruence.
    - split; [done|done|done| | | |done].
      + intros [|a q]; [done|]. cbn. rewrite Hfs.
        destruct (decide (a :: q = t ++ [base p])) as [Heq|Hneq].
        * rewrite Heq, lookup_insert_eq. split; [done|]. intros Hd. by rewrite Hd in Hnd.
        * by rewrite lookup_insert_ne.
      + intros q d t1 Hq _ Hnt. cbn. rewrite Hfs, lookup_insert_ne; [done|].
        intros Heq. by apply (Hnt (base p)).
      + intros q Hq [x Hx]. cbn in Hx. rewrite Hfs in Hx.
        destruct (decide (q = t ++ [base p])) as [->|]; [eauto|].
        rewrite lookup_insert_ne in Hx by done. congruence.
    - split; [done|done|done| | | |done].
      + intros [|a q]; [done|]. cbn. rewrite Hfs.
        destruct (decide (a :: q = p)) as [Heq|Hneq].
        * rewrite Heq, lookup_delete_eq, Hs. naive_solver.
        * rewrite lookup_delete_ne by done.
          destruct (decide (a :: q = t ++ [base p])) as [Heq|Hneq2].
          -- rewrite Heq, lookup_insert_eq. split; [done|].
             intros Hd. by rewrite Hd in Hnd.
          -- by rewrite lookup_insert_ne.
      + intros q d0 t2 Hq Hsmall Hnt. cbn. rewrite Hfs.
        assert (q ≠ p) by (intros ->; simplify_eq; lia).
        rewrite lookup_delete_ne, lookup_insert_ne; [done| |done].
        intros Heq. by apply (Hnt (base p)).
      + intros q Hq [x Hx]. cbn in Hx. rewrite Hfs in Hx.
        destruct (decide (q = t ++ [base p])) as [->|]; [eauto|].
        destruct (decide (q = p)) as [->|]; [by rewrite lookup_delete_eq in Hx|].
        rewrite lookup_delete_ne, lookup_insert_ne in Hx by done. congruence. }
  destruct r as [e|]; cbn [snd]; apply Hrel; eauto.
Qed.

Lemma legacy_visit_none t p info w w' :
  fresh_info w p info → LegacyMain.visit t p (Entry info) w = (None, w') →
  legacy_rel t w w'.
Proof.
  intros Hfi Hv. pose proof (legacy_visit_rel t p info w Hfi) as H. by rewrite Hv in H.
Qed.

Lemma legacy_visit_failure_none t p e w w' :
  LegacyMain.visit t p (Failure e) w = (None, w') → legacy_rel t w w'.
Proof. by rewrite legacy_visit_failure. Qed.

Lemma legacy_processDirectory_spec s t N w fuel :
  depth_below N w → N < fuel →
  ∃ r w', LegacyMain.processDirectory fuel s t w = Some (r, w') ∧ legacy_rel t w w'.
Proof.
  intros Hd Hfuel. unfold LegacyMain.processDirectory.
  destruct (Walk_spec (LegacyMain.visit t) (legacy_rel t) N
              (legacy_rel_refl t) (legacy_rel_trans t) (λ e w, legacy_rel_emit t e w)
              (legacy_rel_depth t N) (legacy_visit_none t) (legacy_visit_failure_none t)
              fuel s w Hfuel Hd)
    as ([r w'] & Hrun & Hnone & Herr).
  exists r, w'. split; [done|]. cbn [fst snd] in *.
  destruct r as [e|]; [|by apply Hnone].
  destruct (Herr e eq_refl) as (p & v & w0 & Hrel & Hv & Hfi).
  eapply legacy_rel_trans; [done|]. destruct v as [info|e'].
  - pose proof (legacy_visit_rel t p info w0 (Hfi _ eq_refl)) as H.
    by rewrite Hv in H.
  - rewrite legacy_visit_failure in Hv. simplify_eq. apply legacy_rel_refl.
Qed.

(** ** The legacy run with its log file *)

Lemma legacy_logged_refl lf t w : legacy_logged_rel lf t w w.
Proof.
  split; [done|done|done|done|].
  intros p Hn [x Hx]. congruence.
Qed.

Lemma legacy_logged_trans lf t w1 w2 w3 :
  legacy_logged_rel lf t w1 w2 → legacy_logged_rel lf t w2 w3 →
  legacy_logged_rel lf t w1 w3.
Proof.
  intros [Hf1 Hn1 Hd1 Hs1 Hnew1] [Hf2 Hn2 Hd2 Hs2 Hnew2].
  split; try congruence.
  - intros p. by rewrite Hd2, Hd1.
  - eauto.
  - intros p Hnone Hsome.
    destruct (fs w2 !! p) eqn:E; [apply Hnew1; eauto | apply Hnew2; eauto].
Qed.

Lemma legacy_logged_emit lf t e w : legacy_logged_rel lf t w (emit e w).
Proof.
  split; [done|done| |done|].
  - intros p. by rewrite lookup_node_emit.
  - intros p Hn [x Hx]. simpl in Hx. congruence.
Qed.

Lemma legacy_logged_depth lf t n w w' :
  legacy_logged_rel lf t w w' → depth_below n w → depth_below n w'.
Proof. intros [_ _ Hd _ _] Hdepth p Hp. apply Hdepth. by apply Hd. Qed.

Lemma legacy_rel_logged lf t w w' : legacy_rel t w w' → legacy_logged_rel lf t w w'.
Proof. intros [Hf Hn _ Hd Hs Hnew _]. split; eauto. Qed.

Lemma file_writer_legacy_logged format logFile t l w :
  legacy_logged_rel (h_path logFile) t w (file_writer format logFile l w).
Proof.
  destruct (file_writer_effect format logFile l w) as (Hf & Hn & _).
  split; [done|done| | |].
  - apply file_writer_dirs.
  - intros p d t0 Hne Hq _ _. by rewrite file_writer_lookup.
  - intros p Hq [x Hx]. by rewrite file_writer_none in Hx.
Qed.

Lemma LegacyLogged_visit_failure logger t p e w :
  LegacyLogged.visit logger t p (Failure e) w = (Some e, w).
Proof. done. Qed.

Lemma LegacyLogged_visit_skip logger t p info w :
  qualifies LegacyMain.minFileSize info = false →
  LegacyLogged.visit logger t p (Entry info) w = (None, w).
Proof.
  intros Hq. unfold LegacyLogged.visit. fold (qualifies LegacyMain.minFileSize info).
  by rewrite Hq.
Qed.

(** A call that attempts a transfer is the call of the callback without
    log file, followed by one write of the logger. *)
Lemma LegacyLogged_visit_entry logger t p info w :
  qualifies LegacyMain.minFileSize info = true →
  ∃ l, LegacyLogged.visit logger t p (Entry info) w
       = ((LegacyMain.visit t p (Entry info) w).1,
          logger l (LegacyMain.visit t p (Entry info) w).2).
Proof.
  intros Hq. unfold LegacyLogged.visit, LegacyMain.visit.
  fold (qualifies LegacyMain.minFileSize info). rewrite Hq.
  destruct (Legacy.moveFile p (t ++ [fi_name info]) w) as [[e|] w1]; eexists; reflexivity.
Qed.

(** Every call of the legacy callback, whatever it returns. *)
Lemma LegacyLogged_visit_rel format logFile t p info w :
  fresh_info w p info →
  legacy_logged_rel (h_path logFile) t w
    (LegacyLogged.visit (file_writer format logFile) t p (Entry info) w).2.
Proof.
  intros Hfi. destruct (qualifies LegacyMain.minFileSize info) eqn:Hq.
  - destruct (LegacyLogged_visit_entry (file_writer format logFile) t p info w Hq)
      as [l ->].
    cbn [snd]. eapply legacy_logged_trans; [|apply file_writer_legacy_logged].
    by apply legacy_rel_logged, legacy_visit_rel.
  - rewrite LegacyLogged_visit_skip by done. apply legacy_logged_refl.
Qed.

Lemma LegacyLogged_visit_none format logFile t p info w w' :
  fresh_info w p info →
  LegacyLogged.visit (file_writer format logFile) t p (Entry info) w = (None, w') →
  legacy_logged_rel (h_path logFile) t w w'.
Proof.
  intros Hfi Hv.
  pose proof (LegacyLogged_visit_rel format logFile t p info w Hfi) as H.
  by rewrite Hv in H.
Qed.

Lemma LegacyLogged_visit_failure_none format logFile t p e w w' :
  LegacyLogged.visit (file_writer format logFile) t p (Failure e) w = (None, w') →
  legacy_logged_rel (h_path logFile) t w w'.
Proof. by rewrite LegacyLogged_visit_failure. Qed.

Lemma LegacyLogged_processDirectory_spec format logFile s t N w fuel :
  depth_below N w → N < fuel →
  ∃ r w',
    LegacyLogged.processDirectory fuel s t (file_writer format logFile) w = Some (r, w')
    ∧ legacy_logged_rel (h_path logFile) t w w'.
Proof.
  intros Hd Hfuel. unfold LegacyLogged.processDirectory.
  set (lf := h_path logFile).
  destruct (Walk_spec (LegacyLogged.visit (file_writer format logFile) t)
              (legacy_logged_rel lf t) N
              (legacy_logged_refl lf t) (legacy_logged_trans lf t)
              (λ e w, legacy_logged_emit lf t e w) (legacy_logged_depth lf t N)
              (LegacyLogged_visit_none format logFile t)
              (LegacyLogged_visit_failure_none format logFile t)
              fuel s w Hfuel Hd)
    as ([r w'] & Hrun & Hnone & Herr).
  exists r, w'. split; [done|]. cbn [fst snd] in *.
  destruct r as [e|]; [|by apply Hnone].
  destruct (Herr e eq_refl) as (p & v & w0 & Hrel & Hv & Hfi).
  eapply legacy_logged_trans; [done|]. destruct v as [info|e'].
  - pose proof (LegacyLogged_visit_rel format logFile t p info w0 (Hfi _ eq_refl)) as H.
    by rewrite Hv in H.
  - rewrite LegacyLogged_visit_failure in Hv. simplify_eq. apply legacy_logged_refl.
Qed.

(** X18: a run of the legacy [processDirectory] (with enough recursion
    depth), with the logger of the legacy [main] writing every line to its
    log file in the same file system, terminates; it creates and removes no
    directory; whatever appears lies directly in the target directory; and
    every file below the constant minimum size other than the log file stays
    as it is unless it lies directly in the target directory, where a
    transfer may overwrite it.  The log file grows with every line and is
    judged by its size when the walk comes to it. *)
Theorem legacy_run_spares_small_files_outside_target (s t : Path)
    (format : Line → string) (logFile : Handle) (w : World) (fuel : nat) :
  depth_bound w < fuel →
  ∃ r w',
    LegacyLogged.processDirectory fuel s t (file_writer format logFile) w
    = Some (r, w') ∧
    (∀ p, lookup_node w' p = Some Dir ↔ lookup_node w p = Some Dir) ∧
    (∀ p, fs w !! p = None → is_Some (fs w' !! p) → ∃ name, p = t ++ [name]) ∧
    (∀ p d t0,
       p ≠ h_path logFile →
       fs w !! p = Some (File d t0) →
       (Z.of_nat (String.length d) < 26463150)%Z →
       (∀ n, p ≠ t ++ [n]) →
       fs w' !! p = Some (File d t0)).
Proof.
  intros Hfuel.
  destruct (LegacyLogged_processDirectory_spec format logFile s t _ w fuel
              (depth_bound_ok w) Hfuel)
    as (r & w' & Hrun & [_ _ Hdirs Hsmall Hnew]).
  by exists r, w'.
Qed.

Lemma X18_witness :
  depth_bound ex_legacy_logged_world < 5 ∧
  ∃ r w',
    LegacyLogged.processDirectory 5 ["src"] ["dst"]
      (file_writer ex_format {| h_path := LegacyMain.logFileName |})
      ex_legacy_logged_world = Some (r, w') ∧
    fs w' !! ["src"; "b.bin"] = Some (File "ab" 5).
Proof.
  assert (depth_bound ex_legacy_logged_world < 5) as Hfuel by (vm_compute; lia).
  split; [exact Hfuel|].
  destruct (legacy_run_spares_small_files_outside_target ["src"] ["dst"] ex_format
              {| h_path := LegacyMain.logFileName |} ex_legacy_logged_world 5 Hfuel)
    as (r & w' & Hrun & _ & _ & Hsmall).
  exists r, w'. split; [exact Hrun|].
  apply Hsmall; [discriminate | vm_compute; reflexivity | vm_compute; reflexivity|].
  intros n Heq. discriminate Heq.
Defined.

(** The loop of the legacy [main] never stops early. *)
Lemma legacy_pairs_spec path_of_os N fuel dirs :
  N < fuel →
  ∀ i w, depth_below N w →
    (i + List.length dirs ≤ List.length LegacyMain.targetDirs)%nat →
    ∃ w', LegacyMain.pairs path_of_os fuel i dirs w = Some (Returned, w')
          ∧ printed w' = printed w
          ∧ ∃ new, out w' = new ++ out w ∧ announced new = rev dirs.
Proof.
  intros Hfuel. induction dirs as [|s rest IH]; intros i w Hd Hlen;
    cbn [LegacyMain.pairs]; simpl in Hlen.
  { exists w. split; [done|]. split; [done|]. by exists []. }
  destruct (LegacyMain.targetDirs !! i) as [t|] eqn:Ht.
  2:{ apply lookup_ge_None in Ht. simpl in Ht. lia. }
  destruct (legacy_processDirectory_spec (path_of_os s) (path_of_os t) N
              (log (MProcessing s) w) fuel) as (r & w2 & -> & Hrel);
    [by apply depth_below_log | done |].
  pose proof (legacy_rel_depth _ _ _ _ Hrel (depth_below_log _ _ _ Hd)) as Hd2.
  destruct Hrel as [_ _ Hpr2 _ _ _ (new2 & Hout2 & Hlines)]. cbn [log printed] in Hpr2.
  destruct r as [e|].
  - destruct (IH (S i) (log (MDirError s e) w2)) as (w' & -> & Hpr & new & Hout & Hann);
      [by apply depth_below_log | simpl; lia |].
    exists w'. split; [done|]. split; [by rewrite Hpr|].
    exists (new ++ [{| stamp := now w2; text := MDirError s e |}] ++ new2
              ++ [{| stamp := now w; text := MProcessing s |}]).
    split; [rewrite Hout; cbn [log out]; rewrite Hout2; cbn [log out];
            by rewrite <- !app_assoc|].
    rewrite !announced_app, Hann, Hlines. done.
  - destruct (IH (S i) w2) as (w' & -> & Hpr & new & Hout & Hann); [done | simpl; lia |].
    exists w'. split; [done|]. split; [congruence|].
    exists (new ++ new2 ++ [{| stamp := now w; text := MProcessing s |}]).
    split; [rewrite Hout, Hout2; cbn [log out]; by rewrite <- !app_assoc|].
    rewrite !announced_app, Hann, Hlines. done.
Qed.

(** X19: the legacy [main] always returns normally, whatever the file
    system holds and however the operating system reads the directory
    constants: its two lists have the same length, so the index is always in
    range.  When [transferFiles.log] cannot be opened it prints the error
    and does nothing else; otherwise its first log line is the start line,
    its last the finish line, and in between both source directories are
    announced in order. *)
Theorem legacy_main_completes (path_of_os : string → Path) (fuel : nat) (w : World) :
  depth_bound w < fuel →
  ∃ w',
    LegacyMain.main path_of_os fuel w = Some (Returned, w') ∧
    ((∃ e, printed w' = PLogFileError e :: printed w ∧ out w' = out w ∧ fs w' = fs w)
     ∨ (∃ mid,
          printed w' = printed w ∧
          text <$> out w' = MFinished :: (text <$> mid) ++ MStarted :: (text <$> out w) ∧
          announced mid = rev LegacyMain.sourceDirs ∧
          head (trace w') = Some (SysClose LegacyMain.logFileName))).
Proof.
  intros Hfuel. unfold LegacyMain.main, os_OpenFile, sys.
  destruct (fault w OpOpenFile LegacyMain.logFileName).
  { eexists. split; [reflexivity|]. left. by eexists. }
  change (lookup_node w LegacyMain.logFileName) with (fs w !! LegacyMain.logFileName).
  change (lookup_node w (parent LegacyMain.logFileName)) with (Some Dir).
  assert (∀ w1, (∀ p, lookup_node w1 p = Some Dir → lookup_node w p = Some Dir) →
            out w1 = out w → printed w1 = printed w →
            ∃ w',
              match LegacyMain.pairs path_of_os fuel 0 LegacyMain.sourceDirs
                      (log MStarted w1) with
              | None => None
              | Some (Panicked i n, w3) =>
                  Some (Panicked i n, f_Close {| h_path := LegacyMain.logFileName |} w3)
              | Some (Returned, w3) =>
                  Some (Returned,
                        f_Close {| h_path := LegacyMain.logFileName |} (log MFinished w3))
              end = Some (Returned, w') ∧
              ∃ mid,
                printed w' = printed w ∧
                text <$> out w'
                  = MFinished :: (text <$> mid) ++ MStarted :: (text <$> out w) ∧
                announced mid = rev LegacyMain.sourceDirs ∧
                head (trace w') = Some (SysClose LegacyMain.logFileName)) as Hgo.
  { intros w1 Hdirs Hout Hpr.
    destruct (legacy_pairs_spec path_of_os (depth_bound w) fuel LegacyMain.sourceDirs
                Hfuel 0%nat (log MStarted w1)) as (w3 & -> & Hpr3 & new & Hout3 & Hann).
    { apply depth_below_log. intros p Hp. apply depth_bound_ok. by apply Hdirs. }
    { simpl. lia. }
    eexists. split; [reflexivity|]. exists new.
    cbn [f_Close emit log out trace head h_path printed].
    split; [by rewrite Hpr3|]. split; [|done].
    rewrite Hout3. cbn [log out]. rewrite Hout.
    change (MFinished :: (text <$> new ++ {| stamp := now w1; text := MStarted |} :: out w)
            = MFinished :: (text <$> new) ++ MStarted :: (text <$> out w)).
    by rewrite fmap_app, fmap_cons. }
  destruct (fs w !! LegacyMain.logFileName) as [[d t|]|] eqn:Hlog.
  - destruct (Hgo (emit (Sys OpOpenFile LegacyMain.logFileName true) w))
      as (w' & Hrun & Hmid); [by intros p; rewrite lookup_node_emit|done|done|].
    exists w'. split; [exact Hrun|]. by right.
  - eexists. split; [reflexivity|]. left. by eexists.
  - destruct (Hgo (emit (Sys OpOpenFile LegacyMain.logFileName true)
                     (set_fs (<[LegacyMain.logFileName := File "" (now w)]> (fs w)) w)))
      as (w' & Hrun & Hmid); [|done|done|].
    { intros [|a p]; [done|]. cbn.
      destruct (decide (a :: p = LegacyMain.logFileName)) as [->|];
        [by rewrite lookup_insert_eq|by rewrite lookup_insert_ne]. }
    exists w'. split; [exact Hrun|]. by right.
Qed.

Lemma X19_witness :
  depth_bound ex_world < 5 ∧
  ∃ w', LegacyMain.main path_of 5 ex_world = Some (Returned, w') ∧
        fs w' !! ["transferFiles.log"] = Some (File "" 1000) ∧
        announced (out w') = rev LegacyMain.sourceDirs.
Proof.
  assert (depth_bound ex_world < 5) as Hfuel by (vm_compute; lia).
  split; [exact Hfuel|].
  destruct (legacy_main_completes path_of 5 ex_world Hfuel) as (w' & Hmain & _).
  exists w'. split; [exact Hmain|].
  revert Hmain. vm_compute. intros [= <-]. split; reflexivity.
Defined.
